(** * Lume core utilities: a shallow embedding and its verified properties

    The development follows [core/utils.ts]: the bounded-concurrency runner
    [concurrent], the recursive option merge [merge] with its plain-object
    probe [isPlainObject], the import-map functions [resolveSpecifierMap],
    [resolveImportMap], [getImportMap], and the upgrade check
    [mustNotifyUpgrade]. *)

From Stdlib Require Import ZArith List String Ascii Bool Lia.
From Stdlib Require Import DecimalString DecimalPos DecimalZ.
From stdpp Require Import base list strings gmap.

Local Open Scope Z_scope.

#[local] Set Warnings "-register-all".

(** ** ConcurrentRunner: [concurrent] as a transition system

    JavaScript runs every synchronous stretch of code to completion, so the
    observable instants of a run of [concurrent] are the points between two
    jobs of the event loop.  A state records the local array [executing],
    the promises created so far and where the driving [async] function is
    suspended; an event is one job.  The source is a finite list of items,
    delivered one at a time; the worker returns a promise for every item,
    which the environment settles when it pleases; [limit] is an integer. *)
Module Runner.

Inductive outcome := Fulfilled | Rejected.

(** One started invocation: [worker] is the promise returned by
    [iteratorFn(item)], [handle] is [p], the promise returned by
    [.then(() => executing.splice(executing.indexOf(p), 1))].  [None] is a
    pending promise.  Handles are identified by their creation index. *)
Record task := Task { worker : option outcome; handle : option outcome }.

(** Where the body of [concurrent] is suspended. *)
Inductive control (Item : Type) :=
| Pulling                                   (* [for await]: awaiting the next item *)
| Body (item : option Item)                 (* the source answered; loop body (or loop exit) is due *)
| Racing (snap : list nat) (res : option outcome)   (* [await Promise.race(executing)] *)
| Joining (snap : list nat)                 (* [await Promise.all(executing)] *)
| Returned                                  (* the returned promise is fulfilled *)
| Thrown.                                   (* the returned promise is rejected *)
Arguments Pulling {Item}.
Arguments Body {Item} item.
Arguments Racing {Item} snap res.
Arguments Joining {Item} snap.
Arguments Returned {Item}.
Arguments Thrown {Item}.

Record state (Item : Type) := State {
  source : list Item;        (* items the iterable has not yielded yet *)
  pulled : list Item;        (* items yielded so far, in order *)
  invoked : list Item;       (* arguments of the calls [iteratorFn(item)], in order *)
  tasks : list task;         (* promises created so far, by creation index *)
  executing : list nat;      (* the array [executing] *)
  ctl : control Item
}.
Arguments State {Item}.
Arguments source {Item}.
Arguments pulled {Item}.
Arguments invoked {Item}.
Arguments tasks {Item}.
Arguments executing {Item}.
Arguments ctl {Item}.

(** One job of the event loop. *)
Inductive event :=
| EYield                          (* the source delivers its next item, or reports exhaustion *)
| ERun                            (* the loop body runs up to its next [await] *)
| ESettle (i : nat) (o : outcome) (* the worker promise of invocation [i] settles *)
| EReact (i : nat)                (* the reaction registered by [.then] on invocation [i] runs *)
| EResume.                        (* the suspended [await] of the main body resumes *)

(** [Array.prototype.indexOf]: first position of [p], or [-1]. *)
Fixpoint indexOf (xs : list nat) (p : nat) : Z :=
  match xs with
  | [] => -1
  | x :: rest =>
      if Nat.eqb x p then 0
      else let i := indexOf rest p in if i <? 0 then -1 else i + 1
  end.

(** [xs.splice(start, 1)]: a negative [start] counts from the end (so
    [-1] designates the last element), and is clamped to the array. *)
Definition splice1 (xs : list nat) (start : Z) : list nat :=
  let len := Z.of_nat (length xs) in
  let k := if start <? 0 then Z.max (len + start) 0 else Z.min start len in
  take (Z.to_nat k) xs ++ drop (S (Z.to_nat k)) xs.

Definition handle_of (ts : list task) (i : nat) : option outcome :=
  match ts !! i with Some t => handle t | None => None end.

Definition worker_of (ts : list task) (i : nat) : option outcome :=
  match ts !! i with Some t => worker t | None => None end.

(** [Promise.race(snap)] at call time: an already settled member wins,
    the first one in array order. *)
Fixpoint first_settled (ts : list task) (snap : list nat) : option outcome :=
  match snap with
  | [] => None
  | i :: rest =>
      match handle_of ts i with
      | Some o => Some o
      | None => first_settled ts rest
      end
  end.

Definition is_rejected (o : option outcome) : bool :=
  match o with Some Rejected => true | _ => false end.

Definition is_fulfilled (o : option outcome) : bool :=
  match o with Some Fulfilled => true | _ => false end.

(** [Promise.all(snap)]: rejected as soon as a member is rejected,
    fulfilled once every member is fulfilled. *)
Definition all_result (ts : list task) (snap : list nat) : option outcome :=
  if existsb (fun i => is_rejected (handle_of ts i)) snap then Some Rejected
  else if forallb (fun i => is_fulfilled (handle_of ts i)) snap then Some Fulfilled
  else None.

Definition memb (i : nat) (xs : list nat) : bool := existsb (Nat.eqb i) xs.

Section concurrent.
Context {Item : Type}.
Variable limit : Z.

Definition init (iterable : list Item) : state Item :=
  State iterable [] [] [] [] Pulling.

Definition step (e : event) (st : state Item) : option (state Item) :=
  match e with
  | EYield =>
      match ctl st with
      | Pulling =>
          match source st with
          | item :: rest =>
              Some (State rest (pulled st ++ [item]) (invoked st)
                      (tasks st) (executing st) (Body (Some item)))
          | [] =>
              Some (State [] (pulled st) (invoked st)
                      (tasks st) (executing st) (Body None))
          end
      | _ => None
      end
  | ERun =>
      match ctl st with
      | Body (Some item) =>
          (* const p = iteratorFn(item).then(...); executing.push(p); *)
          let p := length (tasks st) in
          let ts := tasks st ++ [Task None None] in
          let ex := executing st ++ [p] in
          (* if (executing.length >= limit) await Promise.race(executing); *)
          if Z.of_nat (length ex) >=? limit
          then Some (State (source st) (pulled st) (invoked st ++ [item])
                       ts ex (Racing ex (first_settled ts ex)))
          else Some (State (source st) (pulled st) (invoked st ++ [item])
                       ts ex Pulling)
      | Body None =>
          (* await Promise.all(executing); *)
          Some (State (source st) (pulled st) (invoked st)
                  (tasks st) (executing st) (Joining (executing st)))
      | _ => None
      end
  | ESettle i o =>
      match tasks st !! i with
      | Some (Task None h) =>
          Some (State (source st) (pulled st) (invoked st)
                  (<[i := Task (Some o) h]> (tasks st)) (executing st) (ctl st))
      | _ => None
      end
  | EReact i =>
      match tasks st !! i with
      | Some (Task (Some o) None) =>
          let ts := <[i := Task (Some o) (Some o)]> (tasks st) in
          let ex :=
            match o with
            | Fulfilled =>
                (* () => executing.splice(executing.indexOf(p), 1) *)
                splice1 (executing st) (indexOf (executing st) i)
            | Rejected => executing st   (* no rejection handler was given *)
            end in
          let c :=
            match ctl st with
            | Racing snap None =>
                if memb i snap then Racing snap (Some o) else Racing snap None
            | c => c
            end in
          Some (State (source st) (pulled st) (invoked st) ts ex c)
      | _ => None
      end
  | EResume =>
      match ctl st with
      | Racing _ (Some Fulfilled) =>
          Some (State (source st) (pulled st) (invoked st)
                  (tasks st) (executing st) Pulling)
      | Racing _ (Some Rejected) =>
          Some (State (source st) (pulled st) (invoked st)
                  (tasks st) (executing st) Thrown)
      | Joining snap =>
          match all_result (tasks st) snap with
          | Some Fulfilled =>
              Some (State (source st) (pulled st) (invoked st)
                      (tasks st) (executing st) Returned)
          | Some Rejected =>
              Some (State (source st) (pulled st) (invoked st)
                      (tasks st) (executing st) Thrown)
          | None => None
          end
      | _ => None
      end
  end.

(** A run is a sequence of jobs; [None] when a job is not enabled. *)
Fixpoint run (es : list event) (st : state Item) : option (state Item) :=
  match es with
  | [] => Some st
  | e :: rest =>
      match step e st with
      | Some st' => run rest st'
      | None => None
      end
  end.

Definition reachable (iterable : list Item) (st : state Item) : Prop :=
  exists es, run es (init iterable) = Some st.

End concurrent.

Definition pending (t : task) : bool :=
  match worker t with None => true | Some _ => false end.

(** Number of started invocations whose worker promise has not settled. *)
Definition unresolved {Item} (st : state Item) : nat :=
  length (List.filter pending (tasks st)).

(** The promise returned by [concurrent] has settled. *)
Definition settled {Item} (st : state Item) : bool :=
  match ctl st with Returned | Thrown => true | _ => false end.

(** *** The run invariant *)
Section invariant.
Context {Item : Type}.
Variable limit : Z.
Variable items : list Item.

(** The item delivered by the source whose loop body has not run yet. *)
Definition in_hand (c : control Item) : list Item :=
  match c with Body (Some x) => [x] | _ => [] end.

Definition room (st : state Item) : Prop :=
  Z.of_nat (length (executing st)) < Z.max limit 1.

Definition all_fulfilled_outside (st : state Item) (snap : list nat) : Prop :=
  forall i, (i < length (tasks st))%nat -> i ∉ snap ->
            handle_of (tasks st) i = Some Fulfilled.

Definition ctl_inv (st : state Item) : Prop :=
  match ctl st with
  | Pulling | Body (Some _) => room st
  | Body None => source st = []
  | Racing snap res => res = Some Fulfilled -> room st
  | Joining snap => source st = [] /\ all_fulfilled_outside st snap
  | Returned => source st = [] /\ all_fulfilled_outside st []
  | Thrown => True
  end.

(** The invariant of every run of [concurrent] over [items]. *)
Record inv (st : state Item) : Prop := Inv {
  inv_items : pulled st ++ source st = items;
  inv_pulled : pulled st = invoked st ++ in_hand (ctl st);
  inv_tasks : length (tasks st) = length (invoked st);
  inv_nodup : NoDup (executing st);
  inv_exec : forall i, i ∈ executing st <->
               (i < length (tasks st))%nat /\ handle_of (tasks st) i <> Some Fulfilled;
  inv_handle : forall i o, handle_of (tasks st) i = Some o -> worker_of (tasks st) i = Some o;
  inv_bound : Z.of_nat (length (executing st)) <= Z.max limit 1;
  inv_ctl : ctl_inv st
}.

End invariant.

(** *** Progress measure *)

Definition unsettled (t : task) : bool :=
  match handle t with None => true | Some _ => false end.

Definition ctl_weight {Item} (c : control Item) : nat :=
  match c with
  | Returned | Thrown => 0
  | Joining _ => 1
  | Body None => 2
  | Pulling => 3
  | Racing _ _ => 4
  | Body (Some _) => 7
  end.

(** A bound on the number of jobs still to run. *)
Definition measure {Item} (st : state Item) : nat :=
  5 * length (source st) + length (List.filter pending (tasks st)) +
  length (List.filter unsettled (tasks st)) + ctl_weight (ctl st).

(** What the control state remembers about the handles it waits for. *)
Definition ctl_live {Item} (st : state Item) : Prop :=
  match ctl st with
  | Racing snap None =>
      snap <> [] /\
      forall i, i ∈ snap -> (i < length (tasks st))%nat /\ handle_of (tasks st) i = None
  | Racing _ (Some Rejected) | Thrown =>
      exists i, handle_of (tasks st) i = Some Rejected
  | Joining snap => forall i, i ∈ snap -> (i < length (tasks st))%nat
  | _ => True
  end.

Definition no_reject {Item} (st : state Item) : Prop :=
  forall i, worker_of (tasks st) i <> Some Rejected.

(** The default value of the parameter [limit]. *)
Definition default_limit : Z := 200.

(** *** Concrete runs used as test inputs *)

Definition abc : list string := ["a"; "b"; "c"]%string.

(** Three items under limit 2, every worker fulfilling; the second
    invocation completes first. *)
Definition schedule_fulfilled : list event :=
  [EYield; ERun; EYield; ERun; ESettle 1 Fulfilled; EReact 1; EResume;
   EYield; ERun; ESettle 0 Fulfilled; EReact 0; EResume;
   EYield; ERun; ESettle 2 Fulfilled; EReact 2; EResume].

Definition state_fulfilled : state string :=
  State [] abc abc
    [Task (Some Fulfilled) (Some Fulfilled); Task (Some Fulfilled) (Some Fulfilled);
     Task (Some Fulfilled) (Some Fulfilled)] [] Returned.

(** Three items under limit 2; the first worker rejects while the second is
    still running. *)
Definition schedule_rejected : list event :=
  [EYield; ERun; EYield; ERun; ESettle 0 Rejected; EReact 0; EResume].

Definition state_rejected : state string :=
  State ["c"%string] ["a"; "b"]%string ["a"; "b"]%string
    [Task (Some Rejected) (Some Rejected); Task None None] [0; 1]%nat Thrown.

(** The first handle of two has settled and its reaction is due. *)
Definition state_reaction_due (o : outcome) : state string :=
  State ["c"%string] ["a"; "b"]%string ["a"; "b"]%string
    [Task (Some o) None; Task None None] [0; 1]%nat (Racing [0; 1]%nat None).

(** *** Waiting for a slot *)
Section race.
Context {Item : Type}.
Variable limit : Z.

(** What holds while the body is suspended in [await Promise.race(executing)]:
    the snapshot taken by the call has at least [limit] members, all of them
    created tasks, and as long as no member has settled the array
    [executing] holds nothing but members of the snapshot. *)
Definition race_inv (st : state Item) : Prop :=
  match ctl st with
  | Racing snap res =>
      limit <= Z.of_nat (length snap) /\
      (length snap <= length (tasks st))%nat /\
      (res = None -> forall j, j ∈ executing st -> j ∈ snap)
  | _ => True
  end.

End race.

(** A bound on the number of jobs of the body still to run once a handle is
    rejected. *)
Definition body_weight {Item} (c : control Item) : nat :=
  match c with
  | Returned | Thrown => 0
  | Joining _ => 1
  | Body None => 2
  | Pulling => 3
  | Racing _ _ => 4
  | Body (Some _) => 5
  end.

Definition body_measure {Item} (st : state Item) : nat :=
  4 * length (source st) + body_weight (ctl st).

(** The run on an empty source. *)
Definition schedule_empty : list event := [EYield; ERun; EResume].

(** Two workers still settle after the returned promise was rejected. *)
Definition schedule_after_rejection : list event :=
  [ESettle 1 Fulfilled; EReact 1].

(** Two items started under limit 2: the body waits in the race. *)
Definition state_racing : state string :=
  State ["c"%string] ["a"; "b"]%string ["a"; "b"]%string
    [Task None None; Task None None] [0; 1]%nat (Racing [0; 1]%nat None).

(** Under limit 1, the second item is in hand after the first invocation
    has fulfilled. *)
Definition schedule_sequential : list event :=
  [EYield; ERun; ESettle 0 Fulfilled; EReact 0; EResume; EYield].

Definition state_sequential : state string :=
  State ["c"%string] ["a"; "b"]%string ["a"%string]
    [Task (Some Fulfilled) (Some Fulfilled)] [] (Body (Some "b"%string)).

Definition state_empty : state string := State [] [] [] [] [] Returned.

Definition state_after_rejection : state string :=
  State ["c"%string] ["a"; "b"]%string ["a"; "b"]%string
    [Task (Some Rejected) (Some Rejected); Task (Some Fulfilled) (Some Fulfilled)]
    [0%nat] Thrown.

(** [n] rounds of the loop: the source yields and the body starts a worker. *)
Fixpoint schedule_start (n : nat) : list event :=
  match n with
  | O => []
  | S n' => schedule_start n' ++ [EYield; ERun]
  end.

(** The state after [n] rounds in which no worker has settled. *)
Definition state_started {Item} (items : list Item) (n : nat) (c : control Item) : state Item :=
  State (drop n items) (take n items) (take n items)
    (replicate n (Task None None)) (seq 0 n) c.

(** The job is the settling of a worker promise. *)
Definition is_settle (e : event) : bool :=
  match e with
  | ESettle _ _ => true
  | _ => false
  end.

End Runner.


(** ** Numbers and strings: [Number.prototype.toString] and [parseInt]

    Numbers are integers; the values the module converts (array indices,
    epoch milliseconds) are exact in JavaScript's number type. *)
Module JsNumber.

(** Decimal rendering of an integer, as [n.toString()]. *)
Definition dec (n : Z) : string := DecimalString.NilZero.string_of_int (Z.to_int n).

Definition digit_of (c : ascii) : option Z :=
  let n := Z.of_nat (nat_of_ascii c) in
  if (48 <=? n) && (n <=? 57) then Some (n - 48) else None.

Definition hex_digit_of (c : ascii) : option Z :=
  let n := Z.of_nat (nat_of_ascii c) in
  if (48 <=? n) && (n <=? 57) then Some (n - 48)
  else if (97 <=? n) && (n <=? 102) then Some (n - 87)
  else if (65 <=? n) && (n <=? 70) then Some (n - 55)
  else None.

(** Value of the longest prefix of digits, starting from [acc]. *)
Fixpoint digits (radix : Z) (digit : ascii -> option Z) (acc : Z) (s : string) : Z :=
  match s with
  | EmptyString => acc
  | String c rest =>
      match digit c with
      | Some d => digits radix digit (acc * radix + d) rest
      | None => acc
      end
  end.

Definition starts_with (digit : ascii -> option Z) (s : string) : bool :=
  match s with
  | String c _ => match digit c with Some _ => true | None => false end
  | EmptyString => false
  end.

Definition is_space (c : ascii) : bool :=
  let n := nat_of_ascii c in
  Nat.eqb n 32 || (Nat.leb 9 n && Nat.leb n 13).

Fixpoint skip_spaces (s : string) : string :=
  match s with
  | String c rest => if is_space c then skip_spaces rest else s
  | EmptyString => s
  end.

(** The digits after an optional sign: a [0x] prefix selects radix 16.
    [None] is [NaN]: there is no digit to read. *)
Definition parse_unsigned (s : string) : option Z :=
  match s with
  | String "0" (String "x" rest) | String "0" (String "X" rest) =>
      if starts_with hex_digit_of rest then Some (digits 16 hex_digit_of 0 rest) else None
  | _ =>
      if starts_with digit_of s then Some (digits 10 digit_of 0 s) else None
  end.

(** [parseInt(s)] with no radix argument. *)
Definition parseInt (s : string) : option Z :=
  match skip_spaces s with
  | String "-" rest => option_map Z.opp (parse_unsigned rest)
  | String "+" rest => parse_unsigned rest
  | s' => parse_unsigned s'
  end.

End JsNumber.
(** ** Strings: helpers shared by the models *)
Module Text.

(** The character occurs in the string. *)
Fixpoint mentions (c : ascii) (s : string) : bool :=
  match s with
  | EmptyString => false
  | String d rest => Ascii.eqb d c || mentions c rest
  end.

(** Every occurrence of the character [from] replaced by [to]. *)
Fixpoint translate (from to : ascii) (s : string) : string :=
  match s with
  | EmptyString => EmptyString
  | String c rest =>
      String (if Ascii.eqb c from then to else c) (translate from to rest)
  end.

End Text.


(** ** Effects: state, exceptions and a recursion budget

    The stateful functions of the module are written in a state and
    exception monad over their store; the store survives a throw. *)
Module Eff.

Inductive error := TypeError.

(** Result of running code with a recursion budget: a value, a thrown
    exception, or the budget ran out. *)
Inductive result (A : Type) :=
| Ok (a : A)
| Throw (e : error)
| OutOfFuel.
Arguments Ok {A} a.
Arguments Throw {A} e.
Arguments OutOfFuel {A}.

Definition M (S A : Type) : Type := S -> result A * S.

Definition ret {S A} (a : A) : M S A := fun s => (Ok a, s).

Definition throw {S A} (e : error) : M S A := fun s => (Throw e, s).

Definition bind {S A B} (m : M S A) (k : A -> M S B) : M S B :=
  fun s =>
    match m s with
    | (Ok a, s') => k a s'
    | (Throw e, s') => (Throw e, s')
    | (OutOfFuel, s') => (OutOfFuel, s')
    end.

Notation "'let*' x := m 'in' k" := (bind m (fun x => k))
  (at level 10, x name, m at level 100, k at level 200).

(** A computation that only reads the store. *)
Definition read {S A} (f : S -> result A) : M S A := fun s => (f s, s).

Fixpoint for_each {S A} (xs : list A) (body : A -> M S unit) : M S unit :=
  match xs with
  | [] => ret tt
  | x :: rest => let* _ := body x in for_each rest body
  end.

End Eff.

(** ** DeepMerge: [merge] and [isPlainObject] over a heap of objects

    JavaScript objects are mutable and shared by reference, so [merge] is
    modelled over an explicit heap: a value is a primitive or a reference,
    and the functions thread the heap.  Allocation appends to the heap. *)
Module Merge.
Export Eff.
Import JsNumber.

Abbreviation loc := nat.

Inductive value :=
| VUndefined
| VNull
| VBool (b : bool)
| VNum (n : Z)
| VStr (s : string)
| VSym (key : string)      (* [Symbol.for(key)] *)
| VRef (l : loc).          (* an object of the heap *)

(** What [obj.toString] resolves to along the prototype chain. *)
Inductive proto :=
| PObject                  (* [Object.prototype]: [toString()] is ["[object Object]"] *)
| PNull                    (* [Object.create(null)]: there is no [toString] *)
| PCustom (ts : string).   (* a prototype whose [toString()] returns [ts] *)

(** An object: a keyed record with its prototype, or an array.  Own
    enumerable properties are a finite map; their enumeration order is not
    modelled.  Properties inherited from [Object.prototype] are functions,
    which [isPlainObject] rejects as it rejects [undefined], so a read of
    an absent key yields [undefined]; the accessor key [__proto__] is
    outside the model. *)
Inductive obj :=
| Obj (p : proto) (props : gmap string value)
| Arr (elems : list value).

Abbreviation heap := (list obj).

(** Computations of this module run over the heap. *)
Abbreviation M := (Eff.M heap).

Definition index_key (i : nat) : string := dec (Z.of_nat i).

Definition value_eqb (a b : value) : bool :=
  match a, b with
  | VUndefined, VUndefined => true
  | VNull, VNull => true
  | VBool x, VBool y => Bool.eqb x y
  | VNum x, VNum y => Z.eqb x y
  | VStr x, VStr y => String.eqb x y
  | VSym x, VSym y => String.eqb x y
  | VRef x, VRef y => Nat.eqb x y
  | _, _ => false
  end.

(** A missing reference reads as an empty record; heaps of interest are
    closed, see [closed]. *)
Definition heap_get (h : heap) (l : loc) : obj :=
  match h !! l with Some o => o | None => Obj PObject ∅ end.

(** Array elements as indexed properties. *)
Definition indexed (vs : list value) : gmap string value :=
  list_to_map (imap (fun i v => (index_key i, v)) vs).

Definition char_values (s : string) : list value :=
  List.map (fun c => VStr (String c EmptyString)) (list_ascii_of_string s).

(** Own enumerable properties of a value: what the spread [{ ...v }] copies
    and [Object.entries(v)] enumerates. *)
Definition own_props (h : heap) (v : value) : gmap string value :=
  match v with
  | VRef l =>
      match heap_get h l with
      | Obj _ props => props
      | Arr elems => indexed elems
      end
  | VStr s => indexed (char_values s)
  | _ => ∅
  end.

(** The conversion to boolean of [!user]. *)
Definition truthy (v : value) : bool :=
  match v with
  | VUndefined | VNull => false
  | VBool b => b
  | VNum n => negb (Z.eqb n 0)
  | VStr s => negb (String.eqb s "")
  | VSym _ | VRef _ => true
  end.

(** [obj[key]] on own properties. *)
Definition get_prop (h : heap) (l : loc) (key : string) : value :=
  match own_props h (VRef l) !! key with Some v => v | None => VUndefined end.

Fixpoint join (sep : string) (parts : list string) : string :=
  match parts with
  | [] => ""
  | [s] => s
  | s :: rest => s ++ sep ++ join sep rest
  end.

Fixpoint sequence {A} (rs : list (result A)) : result (list A) :=
  match rs with
  | [] => Ok []
  | r :: rest =>
      match r with
      | Ok a =>
          match sequence rest with
          | Ok l => Ok (a :: l)
          | Throw e => Throw e
          | OutOfFuel => OutOfFuel
          end
      | Throw e => Throw e
      | OutOfFuel => OutOfFuel
      end
  end.

(** [obj.toString()] for the object at [l].  The model has no function
    values, so an own property named [toString] is not callable and the
    call throws; otherwise the method comes from the prototype.  An array
    joins the string conversions of its elements ([Array.prototype.join]);
    [null] and [undefined] elements contribute the empty string, a symbol
    cannot be converted.  An array met again while it is being joined
    contributes the empty string in the engines; this is not modelled, and
    on an array that holds itself the function runs out of fuel.  Such
    arrays are outside [tame]. *)
Fixpoint obj_toString (fuel : nat) (h : heap) (l : loc) : result string :=
  match fuel with
  | O => OutOfFuel
  | S fuel' =>
      match heap_get h l with
      | Obj p props =>
          match props !! "toString" with
          | Some _ => Throw TypeError
          | None =>
              match p with
              | PObject => Ok "[object Object]"
              | PNull => Throw TypeError
              | PCustom ts => Ok ts
              end
          end
      | Arr elems =>
          match sequence (List.map (fun v =>
                   match v with
                   | VUndefined | VNull => Ok ""
                   | VBool true => Ok "true"
                   | VBool false => Ok "false"
                   | VNum n => Ok (dec n)
                   | VStr s => Ok s
                   | VSym _ => Throw TypeError
                   | VRef l' => obj_toString fuel' h l'
                   end) elems) with
          | Ok parts => Ok (join "," parts)
          | Throw e => Throw e
          | OutOfFuel => OutOfFuel
          end
      end
  end.

Definition reactElement : value := VSym "react.element".

(** [isPlainObject(obj)]:
    [typeof obj === "object" && obj !== null &&
     obj.toString() === "[object Object]" && obj["$$typeof"] !== reactElement]. *)
Definition isPlainObject (fuel : nat) (h : heap) (obj : value) : result bool :=
  match obj with
  | VRef l =>
      match obj_toString fuel h l with
      | Ok s =>
          if String.eqb s "[object Object]"
          then Ok (negb (value_eqb (get_prop h l "$$typeof") reactElement))
          else Ok false
      | Throw e => Throw e
      | OutOfFuel => OutOfFuel
      end
  | _ => Ok false
  end.

(** [const merged = { ...defaults }]: a fresh ordinary object. *)
Definition alloc (o : obj) : M loc := fun h => (Ok (length h), h ++ [o]).

(** [merged[key] = v] on a keyed record. *)
Definition set_prop (l : loc) (key : string) (v : value) : M unit :=
  fun h =>
    match h !! l with
    | Some (Obj p props) => (Ok tt, <[l := Obj p (<[key := v]> props)]> h)
    | _ => (Ok tt, h)
    end.

(** One round of the loop [for (const [key, value] of Object.entries(user))],
    with [self] the recursive call of [merge]. *)
Definition merge_entry (self : value -> value -> M value) (fuel : nat)
    (merged : loc) (entry : string * value) : M unit :=
  let '(key, value) := entry in
  let* cur := read (fun h => Ok (get_prop h merged key)) in
  let* plain_cur := read (fun h => isPlainObject fuel h cur) in
  let* plain_val :=
    (if plain_cur : bool
     then read (fun h => isPlainObject fuel h value)
     else ret false) in
  if plain_cur && plain_val
  then let* r := self cur value in set_prop merged key r
  else set_prop merged key value.

(** [merge(defaults, user)]. *)
Fixpoint merge (fuel : nat) (defaults user : value) : M value :=
  match fuel with
  | O => fun h => (OutOfFuel, h)
  | S fuel' =>
      let* props := read (fun h => Ok (own_props h defaults)) in
      let* merged := alloc (Obj PObject props) in
      if negb (truthy user) then ret (VRef merged)
      else
        let* entries := read (fun h => Ok (map_to_list (own_props h user))) in
        let* _ := for_each entries (merge_entry (merge fuel') fuel merged) in
        ret (VRef merged)
  end.

(** *** Deep snapshots *)

(** The structure reachable from a value, unfolded to a given depth. *)
Inductive tree :=
| TLeaf (v : value)
| TObj (p : proto) (props : list (string * tree))
| TArr (elems : list tree)
| TCut.

Fixpoint snapshot (depth : nat) (h : heap) (v : value) : tree :=
  match v with
  | VRef l =>
      match depth with
      | O => TCut
      | S d =>
          match heap_get h l with
          | Obj p props =>
              TObj p (List.map (fun kv => (fst kv, snapshot d h (snd kv)))
                        (map_to_list props))
          | Arr elems => TArr (List.map (snapshot d h) elems)
          end
      end
  | _ => TLeaf v
  end.

(** Values an object refers to. *)
Definition children (o : obj) : list value :=
  match o with
  | Obj _ props => List.map snd (map_to_list props)
  | Arr elems => elems
  end.

Definition in_heap (h : heap) (v : value) : Prop :=
  match v with VRef l => (l < length h)%nat | _ => True end.

(** No object of the heap refers outside the heap. *)
Definition closed (h : heap) : Prop :=
  forall l o, h !! l = Some o -> Forall (in_heap h) (children o).

(** [h'] keeps every object of [h] as it is and may hold more objects. *)
Definition extends (h h' : heap) : Prop := exists ext, h' = h ++ ext.

(** [tame n h v]: the structure under [v] is a finite tree of depth at most
    [n] in which every object has a [toString] that returns a string: no
    object without [toString] or with an own property of that name, and no
    symbol as an array element. *)
Fixpoint tame (n : nat) (h : heap) (v : value) : bool :=
  match v with
  | VRef l =>
      match n with
      | O => false
      | S n' =>
          match h !! l with
          | Some (Obj PNull _) => false
          | Some (Obj _ props) =>
              match props !! "toString" with
              | Some _ => false
              | None => forallb (tame n' h) (List.map snd (map_to_list props))
              end
          | Some (Arr elems) =>
              forallb (fun e => match e with VSym _ => false | _ => tame n' h e end) elems
          | None => false
          end
      end
  | _ => true
  end.

(** *** Heaps used as test inputs *)

Definition record (entries : list (string * value)) : obj :=
  Obj PObject (list_to_map entries).

(** [{a: 1, b: {x: 1, y: 2}}] at 1 and [{b: {y: 3, z: 4}}] at 3. *)
Definition heap_nested : heap :=
  [ record [("x", VNum 1); ("y", VNum 2)];
    record [("a", VNum 1); ("b", VRef 0%nat)];
    record [("y", VNum 3); ("z", VNum 4)];
    record [("b", VRef 2%nat)] ]%string.

(** [{a: 1, b: {x: 1, y: 3, z: 4}}] at 1. *)
Definition heap_nested_expected : heap :=
  [ record [("x", VNum 1); ("y", VNum 3); ("z", VNum 4)];
    record [("a", VNum 1); ("b", VRef 0%nat)] ]%string.

(** [{list: [1, 2]}] at 1 and [{list: [3]}] at 3. *)
Definition heap_numbers : heap :=
  [ Arr [VNum 1; VNum 2]; record [("list", VRef 0%nat)];
    Arr [VNum 3]; record [("list", VRef 2%nat)] ]%string.

(** [{list: [{a: 1}]}] at 2 and [{list: [{b: 2}]}] at 5. *)
Definition heap_lists : heap :=
  [ record [("a", VNum 1)]; Arr [VRef 0%nat]; record [("list", VRef 1%nat)];
    record [("b", VNum 2)]; Arr [VRef 3%nat]; record [("list", VRef 4%nat)] ]%string.

(** [Object.create(null)] at 0, [{a: <that object>}] at 1, [{a: 1}] at 2. *)
Definition heap_nullproto : heap :=
  [ Obj PNull ∅; Obj PObject {["a"%string := VRef 0%nat]};
    Obj PObject {["a"%string := VNum 1]} ].

(** [a = {}; a.self = a] at 0 and [b = {}; b.self = b] at 1. *)
Definition heap_cyclic : heap :=
  [ Obj PObject {["self"%string := VRef 0%nat]};
    Obj PObject {["self"%string := VRef 1%nat]} ].

(** *** One level of the result *)

(** The test of the loop of [merge], [isPlainObject(merged[key]) &&
    isPlainObject(value)], when both probes answer. *)
Definition both_plain (fuel : nat) (h : heap) (cur value : value) : bool :=
  match isPlainObject fuel h cur with
  | Ok true =>
      match isPlainObject fuel h value with
      | Ok true => true
      | _ => false
      end
  | _ => false
  end.

(** [default o] is the value read from a property that may be absent. *)
Definition or_undefined (o : option value) : value :=
  match o with Some v => v | None => VUndefined end.

(** What one round of the loop leaves under its key, told in terms of a
    closed heap [h] that holds the arguments and of the heap [hfin] at the
    end of the call: the user's value itself, or, when the value in place
    and the user's value are both taken for plain objects, the object [l]
    returned by the recursive call.  That call ran in a heap [hc] which
    extends [h] and holds more than [base] objects, and what it allocated
    is in [hfin] as it left it. *)
Definition entry_result (f : nat) (h : heap) (base : nat) (cur value : value)
    (res : option Merge.value) (hfin : heap) : Prop :=
  if both_plain (S f) h cur value
  then exists l hc hc',
         res = Some (VRef l) /\ l = length hc /\ (base < l)%nat /\
         extends h hc /\ merge f cur value hc = (Ok (VRef l), hc') /\
         forall j, (length hc <= j < length hc')%nat -> hfin !! j = hc' !! j
  else res = Some value.

(** *** Paths of keys *)

(** [v?.[k1]?.[k2]...]: the value found from [v] along a path of own
    properties; [undefined] where a property is missing. *)
Fixpoint reach (h : heap) (v : value) (path : list string) : value :=
  match path with
  | [] => v
  | k :: rest => reach h (or_undefined (own_props h v !! k)) rest
  end.

(** The deep-merge rule, read along a path of keys in the arguments: at a
    key that [user] lacks, go on in [defaults]; at a key where both hold
    what [isPlainObject] takes for plain objects, go on in both; at any
    other key of [user], go on in [user].  [None] stands for a record made
    by [merge] itself. *)
Fixpoint mreach (fuel : nat) (h : heap) (defaults user : value)
    (path : list string) : option value :=
  match path with
  | [] => None
  | k :: rest =>
      match fuel with
      | O => None
      | S f =>
          let cur := or_undefined (own_props h defaults !! k) in
          match (if truthy user then own_props h user else ∅) !! k with
          | None => Some (reach h cur rest)
          | Some v =>
              if both_plain (S f) h cur v then mreach f h cur v rest
              else Some (reach h v rest)
          end
      end
  end.

(** [[{a: 1}]] at 1, [["[object Object]"]] at 2, [[1, 2]] at 3, [[]] at 4. *)
Definition heap_arrays : heap :=
  [ record [("a", VNum 1)]; Arr [VRef 0%nat]; Arr [VStr "[object Object]"];
    Arr [VNum 1; VNum 2]; Arr [] ]%string.

End Merge.


(** ** ImportMapResolver: [resolveSpecifierMap], [resolveImportMap],
    [getImportMap]

    A specifier map is a mutable object, so the specifier maps live in a
    store and an import map refers to them.  The import-map object itself
    and its [scopes] record are only read by these functions. *)
Module ImportMaps.
Export Eff.

Abbreviation loc := nat.

(** [SpecifierMap = Record<string, string>], and the store of such objects. *)
Abbreviation SpecifierMap := (gmap string string).
Abbreviation store := (list SpecifierMap).
Abbreviation M := (Eff.M store).

(** [interface ImportMap { imports: SpecifierMap; scopes?: Record<string, SpecifierMap> }] *)
Record ImportMap := {
  imports : loc;
  scopes : option (gmap string loc)
}.

Definition get (st : store) (l : loc) : SpecifierMap :=
  match st !! l with Some m => m | None => ∅ end.

(** [specifierMap[specifier] = url] *)
Definition set_target (l : loc) (specifier url : string) : M unit :=
  fun st => (Ok tt, <[l := <[specifier := url]> (get st l)]> st).

Definition alloc_map (m : SpecifierMap) : M loc :=
  fun st => (Ok (length st), st ++ [m]).

(** The specifier maps an import map refers to: [imports] and then the
    values of [scopes]. *)
Definition scope_maps (m : ImportMap) : list loc :=
  match scopes m with
  | Some sc => List.map snd (map_to_list sc)
  | None => []
  end.

Definition specifier_maps (m : ImportMap) : list loc := imports m :: scope_maps m.

Section resolver.

(** [href url base] is [new URL(url, base).href] of the platform, [None]
    when the constructor throws a [TypeError]; URL objects are represented
    by their [href]. *)
Variable href : string -> string -> option string.

(** The constant [baseUrl = new URL("../", import.meta.url)] of the module. *)
Variable baseUrl : string.

Definition new_URL_href (url base : string) : M string :=
  match href url base with
  | Some r => ret r
  | None => throw TypeError
  end.

(** One round of the loop of [resolveSpecifierMap]:
    [specifierMap[specifier] = new URL(url, baseUrl).href]. *)
Definition resolve_entry (specifierMap : loc) (base : string)
    (entry : string * string) : M unit :=
  let '(specifier, url) := entry in
  let* r := new_URL_href url base in
  set_target specifierMap specifier r.

(** [resolveSpecifierMap(specifierMap, baseUrl)].  [Object.entries] lists
    the entries in insertion order, which a [gmap] does not keep: the loop
    visits them in the order of [map_to_list].  The order shows only in
    which targets of one specifier map a call that throws has rewritten
    before it stops; the properties below do not depend on it. *)
Definition resolveSpecifierMap (specifierMap : loc) (base : string) : M unit :=
  let* entries := read (fun st => Ok (map_to_list (get st specifierMap))) in
  for_each entries (resolve_entry specifierMap base).

Definition resolveImportMap (importMap : ImportMap) (base : string) : M unit :=
  let* _ := resolveSpecifierMap (imports importMap) base in
  match scopes importMap with
  | Some sc =>
      for_each (List.map snd (map_to_list sc)) (fun scope =>
        resolveSpecifierMap scope base)
  | None => ret tt
  end.

(** The three entries of the map of Lume itself. *)
Definition canonical_imports (mod_ts root : string) : SpecifierMap :=
  <["lume" := mod_ts]> (<["lume/" := root]> (<["https://deno.land/x/lume/" := root]> ∅)).

Definition getImportMap (userMap : option ImportMap) (url : option string) : M ImportMap :=
  let* mod_ts := new_URL_href "./mod.ts" baseUrl in
  let* root := new_URL_href "./" baseUrl in
  let* root' := new_URL_href "./" baseUrl in
  let* own := alloc_map (<["lume" := mod_ts]> (<["lume/" := root]>
                      (<["https://deno.land/x/lume/" := root']> ∅))) in
  match userMap with
  | Some userMap =>
      let* _ := match url with
                | Some url => resolveImportMap userMap url
                | None => ret tt
                end in
      (* map.imports = { ...map.imports, ...userMap.imports }; *)
      let* mine := read (fun st => Ok (get st own)) in
      let* theirs := read (fun st => Ok (get st (imports userMap))) in
      let* merged := alloc_map (theirs ∪ mine) in
      (* map.scopes = userMap.scopes; *)
      ret {| imports := merged; scopes := scopes userMap |}
  | None => ret {| imports := own; scopes := None |}
  end.

(** The map in which every target is replaced by its resolution. *)
Definition resolved (base : string) (m : SpecifierMap) : SpecifierMap :=
  omap (fun u => href u base) m.

(** Every target of the map is accepted by the URL constructor. *)
Definition resolvable (base : string) (m : SpecifierMap) : Prop :=
  forall k u, m !! k = Some u -> is_Some (href u base).

(** A well-formed import map: its specifier maps are objects of the store
    and all their targets are valid URLs or valid relative references. *)
Definition well_formed (st : store) (m : ImportMap) (base : string) : Prop :=
  forall l, l ∈ specifier_maps m ->
    (l < length st)%nat /\ resolvable base (get st l).

End resolver.

(** Between the two stores only the objects [ls] may differ. *)
Definition only_changes (ls : list loc) (st st' : store) : Prop :=
  length st' = length st /\ forall l, l ∉ ls -> st' !! l = st !! l.

(** *** A sample of the platform's URL resolution, for test inputs *)

(** The string starts with a scheme: a [:] before any [/]. *)
Fixpoint has_scheme (s : string) : bool :=
  match s with
  | EmptyString => false
  | String c rest =>
      if Ascii.eqb c ":" then true
      else if Ascii.eqb c "/" then false
      else has_scheme rest
  end.

(** The string up to and including its last [/]. *)
Fixpoint dir_of (s : string) : string :=
  match s with
  | EmptyString => EmptyString
  | String c rest =>
      match dir_of rest with
      | EmptyString => if Ascii.eqb c "/" then String c EmptyString else EmptyString
      | d => String c d
      end
  end.

Definition strip_dot_slash (s : string) : string :=
  match s with
  | String "." (String "/" rest) => rest
  | _ => s
  end.

(** Modelled from the spec: [new URL(url, base).href] is the platform's
    URL resolution and is not part of the repository.  The spec gives its
    rule as: a relative target is resolved against the base, and resolving
    an absolute URL against any base yields itself.  This sample covers
    absolute inputs and path-relative inputs against a hierarchical base. *)
Definition sample_href (url base : string) : option string :=
  if has_scheme url then Some url
  else if has_scheme base then
    match dir_of base with
    | EmptyString => None
    | d => Some (d ++ strip_dot_slash url)%string
    end
  else None.

(** *** Test inputs *)

(** [{imports: {"foo": "./bar.js", "cdn": "https://cdn/x.js"},
      scopes: {"https://example.com/a/": {"dep": "./dep.js"}}}] *)
Definition store_user : store :=
  [ {[ "foo" := "./bar.js"; "cdn" := "https://cdn/x.js" ]};
    {[ "dep" := "./dep.js" ]} ]%string.

Definition map_user : ImportMap :=
  {| imports := 0%nat;
     scopes := Some {[ "https://example.com/a/"%string := 1%nat ]} |}.

Definition project_url : string := "https://example.com/project/".

Definition lume_url : string := "https://deno.land/x/lume@v1.7.0/".

(** *** What a call may leave behind *)
Section provenance.
Variable href : string -> string -> option string.

(** Compared with [st], the store [st'] has the same objects with the same
    specifiers, and each target is the former one or a URL returned by the
    constructor for the base [base]. *)
Definition keeps (base : string) (st st' : store) : Prop :=
  length st' = length st /\
  forall l,
    dom (get st' l) = dom (get st l) /\
    forall k u', get st' l !! k = Some u' ->
      get st l !! k = Some u' \/ exists u, href u base = Some u'.

End provenance.

(** The authority of an [http:] or [https:] URL holds a space. *)
Fixpoint has_space (s : string) : bool :=
  match s with
  | EmptyString => false
  | String c rest =>
      if Ascii.eqb c "/" then false
      else if Ascii.eqb c " " then true
      else has_space rest
  end.

Definition bad_host (url : string) : bool :=
  match url with
  | String "h" (String "t" (String "t" (String "p" (String ":" (String "/" (String "/" rest)))))) =>
      has_space rest
  | String "h" (String "t" (String "t" (String "p" (String "s" (String ":" (String "/" (String "/" rest))))))) =>
      has_space rest
  | _ => false
  end.

(** Modelled from the spec: the sample of the platform's URL resolution,
    made to fail, as the specification says the constructor does on a
    malformed URL value, on an [http(s)] URL with a space in its host. *)
Definition sample_href_strict (url base : string) : option string :=
  if bad_host url then None else sample_href url base.

(** [{imports: {"ok": "./ok.js", "bad": "https://exa mple.com/x.js"}}] *)
Definition store_malformed : store :=
  [ {[ "ok" := "./ok.js"; "bad" := "https://exa mple.com/x.js" ]} ]%string.

Definition map_malformed : ImportMap := {| imports := 0%nat; scopes := None |}.

(** *** A sample of the constructor's normalisation *)

(** The string holds a [/], a [?] or a [#]. *)
Fixpoint has_delim (s : string) : bool :=
  match s with
  | EmptyString => false
  | String c rest =>
      (Ascii.eqb c "/" || Ascii.eqb c "?" || Ascii.eqb c "#") || has_delim rest
  end.

(** [s] without the prefix [p], when it starts with it. *)
Fixpoint strip_prefix (p s : string) : option string :=
  match p with
  | EmptyString => Some s
  | String a p' =>
      match s with
      | String b s' => if Ascii.eqb a b then strip_prefix p' s' else None
      | EmptyString => None
      end
  end.

(** What follows [//] is a host and nothing else. *)
Definition no_path (rest : string) : bool :=
  negb (String.eqb rest "") && negb (has_delim rest).

(** An [http:] or [https:] URL that ends with its host. *)
Definition bare_origin (url : string) : bool :=
  match strip_prefix "https://" url with
  | Some rest => no_path rest
  | None =>
      match strip_prefix "http://" url with
      | Some rest => no_path rest
      | None => false
      end
  end.

(** The platform's constructor does not only resolve, it returns every URL
    in one form: among other rules, the [href] of an [http(s)] URL always
    has a path, so that ["https://cdn"] is returned as ["https://cdn/"].
    This sample adds that one rule to [sample_href]. *)
Definition sample_href_normalising (url base : string) : option string :=
  match sample_href url base with
  | Some r => Some (if bare_origin r then r ++ "/" else r)%string
  | None => None
  end.

(** [{imports: {"cdn": "https://cdn", "x": "https://cdn/x.js"}}] *)
Definition store_bare : store :=
  [ {[ "cdn" := "https://cdn"; "x" := "https://cdn/x.js" ]} ]%string.

Definition map_bare : ImportMap := {| imports := 0%nat; scopes := None |}.

(** [{imports: {"foo": "./bar.js"},
      scopes: {"https://example.com/a/": {"bad": "https://exa mple.com/x.js"}}}] *)
Definition store_bad_scope : store :=
  [ {[ "foo" := "./bar.js" ]}; {[ "bad" := "https://exa mple.com/x.js" ]} ]%string.

Definition map_bad_scope : ImportMap :=
  {| imports := 0%nat;
     scopes := Some {[ "https://example.com/a/"%string := 1%nat ]} |}.

End ImportMaps.

(** ** The import-map command: [toUrl] and [cli/import_map.ts]

    The command reads the user's import map, lays it over the map of Lume
    with [getImportMap] and writes the result back to the file.  The
    platform (URL parsing, the file system, [fetch], [JSON]) is a parameter
    of the model; the command is told by the calls it makes on the file
    system and the console. *)
Module ImportMapCommand.
Export ImportMaps.

(** The argument of [toUrl]: [string | URL]; a URL is represented by its
    [href]. *)
Inductive string_or_URL :=
| AString (s : string)
| AUrl (href : string).

(** The value of [JSON.parse(mapContent) as ImportMap]: the text is taken to
    hold an import map, as the cast asserts. *)
Record parsed_map := {
  parsed_imports : SpecifierMap;
  parsed_scopes : option (gmap string SpecifierMap)
}.

(** What [JSON.stringify(importMap, null, 2)] is given: the contents of the
    import map.  The text itself also shows the order of the keys, which the
    maps of the model do not keep, so a write is told by the value that is
    serialised. *)
Definition contents (st : store) (m : ImportMap) : parsed_map :=
  {| parsed_imports := get st (imports m);
     parsed_scopes := match scopes m with
                      | Some sc => Some ((fun l => get st l) <$> sc)
                      | None => None
                      end |}.

(** The objects created by [JSON.parse]: the [imports] record first, then
    one record per scope, none of them shared. *)
Definition scope_locs (sc : gmap string SpecifierMap) : gmap string loc :=
  list_to_map (imap (fun i kv => (fst kv, S i)) (map_to_list sc)).

Definition parsed_store (p : parsed_map) : store :=
  parsed_imports p ::
  match parsed_scopes p with
  | Some sc => List.map snd (map_to_list sc)
  | None => []
  end.

Definition parsed_object (p : parsed_map) : ImportMap :=
  {| imports := 0%nat;
     scopes := match parsed_scopes p with
               | Some sc => Some (scope_locs sc)
               | None => None
               end |}.

(** The calls the command makes on the file system and the console. *)
Inductive action :=
| EnsureDir (dir : string)
| WriteTextFile (path : string) (value : parsed_map)  (* the JSON text of [value] *)
| ConsoleLog (args : list string).

Section command.

(** The platform. *)
Variable href : string -> string -> option string.   (* [new URL(url, base).href] *)
Variable baseUrl : string.
Variable new_URL : string -> option string.          (* [new URL(s)]; [None]: it throws *)
Variable realPath : string -> option string.         (* [await Deno.realPath(path)] *)
Variable toFileUrl : string -> option string.        (* [toFileUrl(path)] *)
Variable fetch_text : string -> option string.       (* [await (await fetch(url)).text()] *)
Variable JSON_parse : string -> option parsed_map.   (* [None]: a [SyntaxError] *)
Variable dirname : string -> string.
Variable brightGreen : string -> string.
Variable ensureDir : string -> bool.                 (* whether the call succeeds *)
Variable writeTextFile : string -> parsed_map -> bool. (* whether the call succeeds *)

(** [toUrl(maybeUrl)]; [None] when the promise is rejected. *)
Definition toUrl (maybeUrl : string_or_URL) : option string :=
  match maybeUrl with
  | AUrl u => Some u
  | AString s =>
      match new_URL s with
      | Some u => Some u
      | None =>
          match realPath s with
          | Some path => toFileUrl path
          | None => None
          end
      end
  end.

(** The body of the [try] block: the contents of
    [getImportMap(parsedMap, mapUrl)], or [None] when a step throws. *)
Definition read_user_map (file : string) : option parsed_map :=
  match toUrl (AString file) with
  | None => None
  | Some mapUrl =>
      match fetch_text mapUrl with
      | None => None
      | Some mapContent =>
          match JSON_parse mapContent with
          | None => None
          | Some parsedMap =>
              match getImportMap href baseUrl (Some (parsed_object parsedMap))
                      (Some mapUrl) (parsed_store parsedMap) with
              | (Ok r, st) => Some (contents st r)
              | _ => None
              end
          end
      end
  end.

(** The [catch] block: the contents of [getImportMap()]. *)
Definition default_map : option parsed_map :=
  match getImportMap href baseUrl None None [] with
  | (Ok r, st) => Some (contents st r)
  | _ => None
  end.

(** [importMap({ file })]: the calls made, and whether the promise is
    fulfilled. *)
Definition importMap (file : string) : list action * bool :=
  let chosen :=
    match read_user_map file with
    | Some m => Some (m, true)
    | None =>
        match default_map with
        | Some m => Some (m, false)
        | None => None
        end
    end in
  match chosen with
  | None => ([], false)
  | Some (m, updated) =>
      if ensureDir (dirname file) then
        if writeTextFile file m then
          ([EnsureDir (dirname file); WriteTextFile file m;
            ConsoleLog [brightGreen (if updated : bool then "Updated the file"
                                     else "Created a new import map file"); file]],
           true)
        else ([EnsureDir (dirname file); WriteTextFile file m], false)
      else ([EnsureDir (dirname file)], false)
  end.

(** Some target of the parsed map, in its imports or in one of its scopes,
    is rejected by the URL constructor for the base [mapUrl]. *)
Definition has_bad_target (mapUrl : string) (p : parsed_map) : Prop :=
  exists (m : SpecifierMap) k u,
    (m = parsed_imports p \/
     exists sc scope, parsed_scopes p = Some sc /\ sc !! scope = Some m) /\
    m !! k = Some u /\ href u mapUrl = None.

(** Every target of the parsed map is accepted. *)
Definition all_targets_resolve (mapUrl : string) (p : parsed_map) : Prop :=
  resolvable href mapUrl (parsed_imports p) /\
  forall sc scope m, parsed_scopes p = Some sc -> sc !! scope = Some m ->
    resolvable href mapUrl m.

(** The map written by the command when the file was read: the user's
    entries, resolved, over the entries of Lume, and the user's scopes,
    resolved. *)
Definition updated_map (mapUrl mod_ts root : string) (p : parsed_map) : parsed_map :=
  {| parsed_imports := resolved href mapUrl (parsed_imports p) ∪ canonical_imports mod_ts root;
     parsed_scopes := match parsed_scopes p with
                      | Some sc => Some (resolved href mapUrl <$> sc)
                      | None => None
                      end |}.

End command.

(** *** Test inputs: a platform with one file *)

Definition sample_new_URL (s : string) : option string :=
  if has_scheme s then Some s else None.

(** The working directory is [/site]; it holds [import_map.json] only. *)
Definition sample_realPath (path : string) : option string :=
  if String.eqb path "import_map.json" then Some "/site/import_map.json"%string else None.

Definition sample_toFileUrl (path : string) : option string :=
  Some ("file://" ++ path)%string.

Definition sample_text : string := "{ ... }".

Definition sample_fetch_text (url : string) : option string :=
  if String.eqb url "file:///site/import_map.json" then Some sample_text else None.

(** [{imports: {"foo": "./bar.js", "lume/": "https://example.com/lume/"},
      scopes: {"https://example.com/a/": {"dep": "./dep.js"}}}] *)
Definition sample_parsed : parsed_map :=
  {| parsed_imports := {[ "foo" := "./bar.js"; "lume/" := "https://example.com/lume/" ]};
     parsed_scopes := Some {[ "https://example.com/a/" := {[ "dep" := "./dep.js" ]} ]} |}%string.

(** [{imports: {"ok": "./ok.js", "bad": "https://exa mple.com/x.js"}}] *)
Definition sample_parsed_malformed : parsed_map :=
  {| parsed_imports := {[ "ok" := "./ok.js"; "bad" := "https://exa mple.com/x.js" ]};
     parsed_scopes := None |}%string.

Definition sample_dirname (path : string) : string :=
  match dir_of path with
  | EmptyString => "."
  | d => d
  end.

Definition sample_file_url : string := "file:///site/import_map.json".

Definition sample_mod_ts : string := "https://deno.land/x/lume@v1.7.0/mod.ts".

Definition sample_importMap (href : string -> string -> option string)
    (content : parsed_map) (file : string) : list action * bool :=
  importMap href lume_url sample_new_URL sample_realPath sample_toFileUrl
    sample_fetch_text (fun _ => Some content) sample_dirname (fun s => s)
    (fun _ => true) (fun _ _ => true) file.

End ImportMapCommand.


(** ** UpgradeNotifier: [getCurrentVersion], [getLatestVersion],
    [getLatestDevelopmentVersion], [mustNotifyUpgrade]

    The upgrade check talks to [localStorage], the clock and the network.
    It is written as a program over these effects and interpreted against a world
    that answers them and logs the network requests. *)
Module Upgrade.
Import JsNumber.

(** Parsed JSON, with [undefined] for an absent property. *)
Inductive json :=
| JUndefined
| JNull
| JBool (b : bool)
| JNum (n : Z)
| JStr (s : string)
| JArr (elems : list json)
| JObj (fields : list (string * json)).

Inductive eff : Type -> Type :=
| GetItem (key : string) : eff (option string)     (* [localStorage.getItem(key)] *)
| SetItem (key value : string) : eff unit          (* [localStorage.setItem(key, value)] *)
| DateNow : eff Z                                  (* [Date.now()] *)
| FetchJson (url : string) : eff json.             (* [await (await fetch(url)).json()] *)

(** Programs over the effects; [Fail] is an exception that reaches the
    caller. *)
Inductive prog (A : Type) :=
| Ret (a : A)
| Fail
| Vis {X : Type} (e : eff X) (k : X -> prog A).
Arguments Ret {A} a.
Arguments Fail {A}.
Arguments Vis {A X} e k.

Fixpoint prog_bind {A B} (k : A -> prog B) (m : prog A) : prog B :=
  match m with
  | Ret a => k a
  | Fail => Fail
  | Vis e h => Vis e (fun x => prog_bind k (h x))
  end.

#[global] Instance prog_mret : MRet prog := fun _ a => Ret a.
#[global] Instance prog_mbind : MBind prog := fun _ _ k m => prog_bind k m.

Definition perform {X} (e : eff X) : prog X := Vis e Ret.

(** *** The world *)

Record world := World {
  storage : gmap string string;      (* [localStorage] *)
  clock : nat -> Z;                  (* successive readings of [Date.now()] *)
  reads : nat;                       (* how many readings were taken *)
  network : string -> option json;   (* what a URL answers; [None]: the fetch fails *)
  requests : list string             (* the network requests made so far *)
}.

Inductive completion (A : Type) :=
| Returned (a : A)
| Failed.
Arguments Returned {A} a.
Arguments Failed {A}.

Definition handle {X} (e : eff X) (w : world) : option X * world :=
  match e in eff X return option X * world with
  | GetItem key => (Some (storage w !! key), w)
  | SetItem key value =>
      (Some tt, World (<[key := value]> (storage w)) (clock w) (reads w)
                  (network w) (requests w))
  | DateNow =>
      (Some (clock w (reads w)),
       World (storage w) (clock w) (S (reads w)) (network w) (requests w))
  | FetchJson url =>
      (network w url,
       World (storage w) (clock w) (reads w) (network w) (requests w ++ [url]))
  end.

Fixpoint interp {A} (p : prog A) (w : world) : completion A * world :=
  match p with
  | Ret a => (Returned a, w)
  | Fail => (Failed, w)
  | Vis e k =>
      match handle e w with
      | (Some x, w') => interp (k x) w'
      | (None, w') => (Failed, w')
      end
  end.

(** *** The functions *)

(** The characters before the first [/]. *)
Fixpoint segment (s : string) : string :=
  match s with
  | EmptyString => EmptyString
  | String c rest => if Ascii.eqb c "/" then EmptyString else String c (segment rest)
  end.

(** [s.match(/@([^/]+)/)?.[1]]: the segment after the first [@] that has a
    non-empty one. *)
Fixpoint match_version (s : string) : option string :=
  match s with
  | EmptyString => None
  | String c rest =>
      if Ascii.eqb c "@" then
        match segment rest with
        | EmptyString => match_version rest
        | v => Some v
        end
      else match_version rest
  end.

(** [getCurrentVersion()], as a function of [baseUrl.pathname]. *)
Definition getCurrentVersion (pathname : string) : string :=
  match match_version pathname with
  | Some v => v
  | None => "local (" ++ pathname ++ ")"
  end.

Fixpoint skip_digits (s : string) : string :=
  match s with
  | String c rest =>
      match digit_of c with Some _ => skip_digits rest | None => s end
  | EmptyString => s
  end.

(** [!!current.match(/^v\d+\./)] *)
Definition is_stable (current : string) : bool :=
  match current with
  | String "v" rest =>
      starts_with digit_of rest &&
      match skip_digits rest with
      | String "." _ => true
      | _ => false
      end
  | _ => false
  end.

(** [x[key]] for a property name that primitives and arrays do not have
    ([latest], [sha]): [None] is the [TypeError] of reading a property of
    [null] or [undefined]. *)
Definition get_field (x : json) (key : string) : option json :=
  match x with
  | JUndefined | JNull => None
  | JObj fields =>
      match List.find (fun kv => String.eqb (fst kv) key) fields with
      | Some kv => Some (snd kv)
      | None => Some JUndefined
      end
  | _ => Some JUndefined
  end.

(** [x[0]] *)
Definition get_first (x : json) : option json :=
  match x with
  | JUndefined | JNull => None
  | JArr (e :: _) => Some e
  | JStr (String c _) => Some (JStr (String c EmptyString))
  | JObj _ => get_field x "0"
  | _ => Some JUndefined
  end.

Definition access (o : option json) : prog json :=
  match o with Some j => Ret j | None => Fail end.

Definition versions_url : string := "https://cdn.deno.land/lume/meta/versions.json".

Definition commits_url : string :=
  "https://api.github.com/repos/lumeland/lume/commits?per_page=1".

Definition getLatestVersion : prog json :=
  versions ← perform (FetchJson versions_url);
  access (get_field versions "latest").

Definition getLatestDevelopmentVersion : prog json :=
  commits ← perform (FetchJson commits_url);
  first ← access (get_first commits);
  access (get_field first "sha").

Record UpgradeInfo := {
  current : string;
  latest : json;
  command : string
}.

Definition json_is_string (j : json) (s : string) : bool :=
  match j with JStr t => String.eqb s t | _ => false end.

Definition storage_key : string := "lume-upgrade".

Definition expires : Z := 1000 * 60 * 60 * 24.

(** The part of [mustNotifyUpgrade] after the cache test. *)
Definition check_upgrade (current : string) (stable : bool) : prog (option UpgradeInfo) :=
  now ← perform DateNow;
  _ ← perform (SetItem storage_key (dec now));
  latest ← (if stable then getLatestVersion else getLatestDevelopmentVersion);
  if json_is_string latest current then mret None
  else mret (Some {| current := current; latest := latest;
                     command := if stable then "lume upgrade" else "lume upgrade --dev" |}).

Definition mustNotifyUpgrade (pathname : string) : prog (option UpgradeInfo) :=
  let current := getCurrentVersion pathname in
  if String.prefix "local " current then mret None
  else
    let stable := is_stable current in
    interval ← perform (GetItem storage_key);
    (* if (interval && parseInt(interval) + expires > Date.now()) return; *)
    match interval with
    | Some text =>
        if String.eqb text "" then check_upgrade current stable
        else
          now ← perform DateNow;
          match parseInt text with
          | Some checked =>
              if checked + expires >? now then mret None
              else check_upgrade current stable
          | None => check_upgrade current stable
          end
    | None => check_upgrade current stable
    end.

(** *** Notions used to state the cache policy *)

(** The reading the next call of [Date.now()] returns. *)
Definition now (w : world) : Z := clock w (reads w).

(** The timestamp recorded in [localStorage], when there is one. *)
Definition recorded (w : world) : option Z :=
  match storage w !! storage_key with
  | Some text => parseInt text
  | None => None
  end.

(** A check was recorded less than 24 hours before [now]. *)
Definition cached (w : world) : bool :=
  match recorded w with
  | Some checked => checked + expires >? now w
  | None => false
  end.

(** The endpoint [mustNotifyUpgrade] asks for the running version. *)
Definition endpoint (pathname : string) : string :=
  if is_stable (getCurrentVersion pathname) then versions_url else commits_url.

Definition is_local (pathname : string) : bool :=
  String.prefix "local " (getCurrentVersion pathname).

(** *** Test inputs *)

Definition released_path : string := "/x/lume@v1.7.0/".

Definition local_path : string := "/home/user/lume/".

Definition hour : Z := 1000 * 60 * 60.

(** A world whose clock stands at [time], with an optional recorded check
    and a metadata endpoint that answers [{"latest": version}]. *)
Definition world_at (time : Z) (checked : option Z) (version : string) : world :=
  World (match checked with
         | Some t => {[ storage_key := dec t ]}
         | None => ∅
         end)
        (fun _ => time) 0
        (fun url => if String.eqb url versions_url
                    then Some (JObj [("latest"%string, JStr version)])
                    else None)
        [].

Definition noon : Z := 1700000000000.

(** The same world with the network down. *)
Definition offline (w : world) : world :=
  World (storage w) (clock w) (reads w) (fun _ => None) (requests w).

Import Text.

(** *** Notions used to state the outcome of a check *)

(** The value [mustNotifyUpgrade] takes for [latest] out of the reply of
    the endpoint: [versions.latest], or [commits[0].sha]; [None] when
    reading it throws. *)
Definition latest_of (stable : bool) (reply : json) : option json :=
  if stable then get_field reply "latest"
  else match get_first reply with
       | Some first => get_field first "sha"
       | None => None
       end.

Fixpoint all_digits (s : string) : bool :=
  match s with
  | EmptyString => true
  | String c rest =>
      match digit_of c with Some _ => all_digits rest | None => false end
  end.

(** A development copy, named by a commit. *)
Definition development_path : string := "/lumeland/lume@4f1c2d9/".

(** A world whose endpoints answer [versions] and [commits]. *)
Definition world_answering (time : Z) (versions commits : json) : world :=
  World ∅ (fun _ => time) 0
        (fun url => if String.eqb url versions_url then Some versions
                    else if String.eqb url commits_url then Some commits
                    else None)
        [].

End Upgrade.

(** ** The check of the Deno version: [checkDenoVersion]

    The function compares two version strings with the operator [<] of
    JavaScript, which on strings is the order of their code units. *)
Module Versions.
Import JsNumber.

(** [a < b] on strings: the first differing code unit decides, and a proper
    prefix comes first. *)
Fixpoint string_lt (a b : string) : bool :=
  match a, b with
  | _, EmptyString => false
  | EmptyString, String _ _ => true
  | String x a', String y b' =>
      if Nat.ltb (nat_of_ascii x) (nat_of_ascii y) then true
      else if Nat.ltb (nat_of_ascii y) (nat_of_ascii x) then false
      else string_lt a' b'
  end.

(** [interface DenoInfo { current; minimum; command }] *)
Record DenoInfo := {
  deno_current : string;
  deno_minimum : string;
  deno_command : string
}.

(** [checkDenoVersion()], as a function of [Deno.version.deno]. *)
Definition checkDenoVersion (deno : string) : option DenoInfo :=
  let minimum := "1.18.1"%string in
  let current := deno in
  if string_lt current minimum
  then Some {| deno_current := current; deno_minimum := minimum;
               deno_command := "deno upgrade" |}
  else None.

(** The version string of a release, [major.minor.patch]. *)
Definition version (major minor patch : Z) : string :=
  (dec major ++ "." ++ dec minor ++ "." ++ dec patch)%string.

(** The order of [p ++ x] and [m], when the code units of [p] decide it
    whatever [x] is. *)
Fixpoint compare_prefix (p m : string) : option bool :=
  match p, m with
  | EmptyString, _ => None
  | String _ _, EmptyString => Some false
  | String x p', String y m' =>
      if Nat.ltb (nat_of_ascii x) (nat_of_ascii y) then Some true
      else if Nat.ltb (nat_of_ascii y) (nat_of_ascii x) then Some false
      else compare_prefix p' m'
  end.

(** The integers [lo], [lo + 1], ..., [lo + n - 1]. *)
Definition Z_range (lo : Z) (n : nat) : list Z :=
  List.map (fun i => lo + Z.of_nat i) (seq 0 n).

(** For every minor version of the range, the order of [1.minor.x] and
    [1.18.1] is decided before the patch and is [expected]. *)
Definition minors_decided (lo : Z) (n : nat) (expected : bool) : bool :=
  forallb (fun minor =>
    match compare_prefix ("1." ++ dec minor ++ ".") "1.18.1" with
    | Some r => Bool.eqb r expected
    | None => false
    end) (Z_range lo n).

End Versions.

(** ** Paths: [normalizePath]

    [SEP] is the path separator of the platform, a constant of the path
    library: ["/"], or ["\"] on Windows. *)
Module Paths.

(** [s.replaceAll(pattern, replacement)] for a string pattern and a
    replacement that holds no [$]: the occurrences of [pattern] are found
    from left to right and do not overlap; an empty pattern occurs before
    every character and at the end.  [skip] characters of [s] belong to
    the occurrence just replaced. *)
Fixpoint replace_from (skip : nat) (pattern replacement s : string) : string :=
  match s with
  | EmptyString =>
      match skip, pattern with
      | O, EmptyString => replacement
      | _, _ => EmptyString
      end
  | String c rest =>
      match skip with
      | S k => replace_from k pattern replacement rest
      | O =>
          if String.prefix pattern s
          then match pattern with
               | EmptyString =>
                   (replacement ++ String c (replace_from 0 pattern replacement rest))%string
               | String _ more =>
                   (replacement ++
                    replace_from (String.length more) pattern replacement rest)%string
               end
          else String c (replace_from 0 pattern replacement rest)
      end
  end.

Definition replaceAll (pattern replacement s : string) : string :=
  replace_from 0 pattern replacement s.

(** [normalizePath(path)]: [SEP === "/" ? path : path.replaceAll(SEP, "/")]. *)
Definition normalizePath (SEP : string) (path : string) : string :=
  if String.eqb SEP "/" then path else replaceAll SEP "/" path.

(** The separator of Windows, a backslash. *)
Definition backslash : ascii := ascii_of_nat 92.

End Paths.


(** * Properties *)
(** ** Facts about the runner *)
Module RunnerFacts.
Import Runner.

Lemma indexOf_lower xs p : -1 <= indexOf xs p.
Proof.
  induction xs as [|x rest IH]; simpl; [lia|].
  destruct (Nat.eqb x p); [lia|].
  destruct (indexOf rest p <? 0) eqn:E; lia.
Qed.

(** When [p] occurs in the array, [indexOf] is the position of its first
    occurrence. *)
Lemma indexOf_found xs p :
  p ∈ xs -> exists k, indexOf xs p = Z.of_nat k /\ xs !! k = Some p.
Proof.
  induction xs as [|x rest IH]; intros Hin.
  - by apply elem_of_nil in Hin.
  - simpl. destruct (Nat.eqb x p) eqn:E.
    + apply Nat.eqb_eq in E. subst. by exists 0%nat.
    + apply Nat.eqb_neq in E.
      apply elem_of_cons in Hin as [->|Hin]; [done|].
      destruct (IH Hin) as (k & Hk & Hl).
      exists (S k). rewrite Hk.
      destruct (Z.of_nat k <? 0) eqn:F; [lia|].
      split; [lia|done].
Qed.

Lemma splice1_delete xs k :
  (k < length xs)%nat -> splice1 xs (Z.of_nat k) = delete k xs.
Proof.
  intros Hk. unfold splice1.
  destruct (Z.of_nat k <? 0) eqn:E; [lia|].
  rewrite Z.min_l by lia. rewrite Nat2Z.id.
  by rewrite delete_take_drop.
Qed.

Lemma elem_of_delete_NoDup (xs : list nat) k p j :
  NoDup xs -> xs !! k = Some p ->
  j ∈ delete k xs <-> j ∈ xs /\ j <> p.
Proof.
  intros Hnd Hk.
  rewrite <- (take_drop_middle xs k p Hk) in Hnd.
  rewrite delete_take_drop.
  rewrite <- (take_drop_middle xs k p Hk) at 3.
  apply NoDup_app in Hnd as (_ & Hdisj & Hnd).
  apply NoDup_cons in Hnd as [Hnot _].
  rewrite !elem_of_app, elem_of_cons.
  split.
  - intros [H|H].
    + split; [by left|]. intros ->. apply (Hdisj p H). by left.
    + split; [by right; right|]. by intros ->.
  - intros [[H|[->|H]] Hne]; [by left|done|by right].
Qed.

(** The reaction of a fulfilled invocation removes exactly its own handle. *)
Lemma splice_own_handle xs p :
  NoDup xs -> p ∈ xs ->
  let xs' := splice1 xs (indexOf xs p) in
  NoDup xs' /\ (forall j, j ∈ xs' <-> j ∈ xs /\ j <> p) /\
  S (length xs') = length xs.
Proof.
  intros Hnd Hin. destruct (indexOf_found xs p Hin) as (k & Hk & Hl).
  simpl. rewrite Hk.
  assert (k < length xs)%nat as Hlt by (by eapply lookup_lt_Some).
  rewrite splice1_delete by done.
  split; [|split].
  - rewrite delete_take_drop.
    rewrite <- (take_drop_middle xs k p Hl) in Hnd.
    apply NoDup_app in Hnd as (H1 & H2 & H3).
    apply NoDup_cons in H3 as [H3 H4].
    apply NoDup_app. split; [done|]. split; [|done].
    intros x Hx Hx'. apply (H2 x Hx). by right.
  - intros j. by apply elem_of_delete_NoDup.
  - rewrite length_delete by (by eexists). lia.
Qed.

Lemma handle_of_app_l ts t i :
  (i < length ts)%nat -> handle_of (ts ++ [t]) i = handle_of ts i.
Proof. intros H. unfold handle_of. by rewrite lookup_app_l. Qed.

Lemma handle_of_app_new ts t : handle_of (ts ++ [t]) (length ts) = handle t.
Proof.
  unfold handle_of. rewrite lookup_app_r by lia.
  by rewrite Nat.sub_diag.
Qed.

Lemma handle_of_ge ts i : (length ts <= i)%nat -> handle_of ts i = None.
Proof. intros H. unfold handle_of. by rewrite lookup_ge_None_2. Qed.

Lemma handle_of_insert_eq ts i t :
  (i < length ts)%nat -> handle_of (<[i := t]> ts) i = handle t.
Proof. intros H. unfold handle_of. by rewrite list_lookup_insert_eq. Qed.

Lemma handle_of_insert_ne ts i j t :
  i <> j -> handle_of (<[i := t]> ts) j = handle_of ts j.
Proof. intros H. unfold handle_of. by rewrite list_lookup_insert_ne. Qed.

Lemma worker_of_insert_eq ts i t :
  (i < length ts)%nat -> worker_of (<[i := t]> ts) i = worker t.
Proof. intros H. unfold worker_of. by rewrite list_lookup_insert_eq. Qed.

Lemma worker_of_insert_ne ts i j t :
  i <> j -> worker_of (<[i := t]> ts) j = worker_of ts j.
Proof. intros H. unfold worker_of. by rewrite list_lookup_insert_ne. Qed.

Lemma first_settled_not_fulfilled ts snap :
  (forall i, i ∈ snap -> handle_of ts i <> Some Fulfilled) ->
  first_settled ts snap <> Some Fulfilled.
Proof.
  induction snap as [|i rest IH]; intros H; simpl; [done|].
  destruct (handle_of ts i) as [o|] eqn:E.
  - intros [= ->]. apply (H i); [by left|done].
  - apply IH. intros j Hj. apply H. by right.
Qed.

Section invariant.
Context {Item : Type}.
Variable limit : Z.
Variable items : list Item.

Lemma inv_init : inv limit items (init items).
Proof.
  split; simpl; try done.
  all: try apply NoDup_nil_2.
  - intros i. split; [by intros ?%elem_of_nil|]. simpl. lia.
  - lia.
  - unfold ctl_inv, room. simpl. lia.
Qed.

Lemma inv_step e st st' :
  inv limit items st -> step limit e st = Some st' -> inv limit items st'.
Proof.
  intros [Hit Hpu Hta Hnd Hex Hha Hbo Hct] Hstep.
  destruct e; simpl in Hstep.
  - (* EYield *)
    destruct (ctl st) eqn:Ec; try done.
    unfold ctl_inv in Hct; rewrite Ec in Hct.
    destruct (source st) as [|x rest] eqn:Es; inversion Hstep; subst; clear Hstep.
    + split; simpl; try done.
    + split; simpl; try done.
      * by rewrite <- app_assoc.
      * rewrite Hpu. simpl. by rewrite app_nil_r.
  - (* ERun *)
    destruct (ctl st) as [|[x|]| | | |] eqn:Ec; try done.
    + unfold ctl_inv in Hct; rewrite Ec in Hct. unfold room in Hct.
      assert (forall i, i ∈ executing st ++ [length (tasks st)] <->
                (i < length (tasks st ++ [Task None None]))%nat /\
                handle_of (tasks st ++ [Task None None]) i <> Some Fulfilled) as Hex'.
      { intros i. rewrite elem_of_app, list_elem_of_singleton, length_app. simpl.
        rewrite Hex. split.
        - intros [[H1 H2]| ->].
          + split; [lia|]. by rewrite handle_of_app_l.
          + split; [lia|]. by rewrite handle_of_app_new.
        - intros [H1 H2].
          destruct (decide (i = length (tasks st))) as [->|Hne]; [by right|].
          left. split; [lia|]. rewrite handle_of_app_l in H2 by lia. done. }
      assert (NoDup (executing st ++ [length (tasks st)])) as Hnd'.
      { apply NoDup_app. split; [done|]. split; [|apply NoDup_singleton].
        intros i Hi ->%list_elem_of_singleton. apply Hex in Hi. lia. }
      assert (forall i o, handle_of (tasks st ++ [Task None None]) i = Some o ->
                worker_of (tasks st ++ [Task None None]) i = Some o) as Hha'.
      { intros i o. unfold handle_of, worker_of.
        destruct (decide (i < length (tasks st))%nat).
        - rewrite lookup_app_l by done. apply Hha.
        - rewrite lookup_app_r by lia.
          destruct (i - length (tasks st))%nat as [|m]; simpl; done. }
      destruct (Z.of_nat (length (executing st ++ [length (tasks st)])) >=? limit) eqn:El;
        inversion Hstep; subst; clear Hstep; split; simpl; try done.
      all: try (rewrite Hpu; simpl; by rewrite ?app_nil_r).
      all: try (rewrite !length_app; simpl; lia).
      * unfold ctl_inv, room. simpl. intros Hf.
        exfalso. eapply first_settled_not_fulfilled; [|exact Hf].
        intros i Hi. by apply Hex'.
      * rewrite Z.geb_leb in El. apply Z.leb_gt in El.
        unfold ctl_inv, room. simpl. rewrite length_app in *. simpl in *. lia.
    + inversion Hstep; subst; clear Hstep; split; simpl; try done.
      unfold ctl_inv in *. rewrite Ec in Hct. simpl. split; [done|].
      intros i Hi Hni. destruct (handle_of (tasks st) i) as [[|]|] eqn:E; [done| |];
        exfalso; apply Hni, Hex; split; try done; by rewrite E.
  - (* ESettle *)
    destruct (tasks st !! i) as [[[w|] h]|] eqn:Et; try done.
    inversion Hstep; subst; clear Hstep.
    assert (i < length (tasks st))%nat as Hi by (by eapply lookup_lt_Some).
    assert (forall j, handle_of (<[i:=Task (Some o) h]> (tasks st)) j = handle_of (tasks st) j) as Hsame.
    { intros j. destruct (decide (i = j)) as [<-|Hne].
      - rewrite handle_of_insert_eq by done. unfold handle_of. by rewrite Et.
      - by rewrite handle_of_insert_ne. }
    assert (h = None) as ->.
    { destruct h as [o'|]; [|done].
      specialize (Hha i o'). unfold handle_of, worker_of in Hha. rewrite Et in Hha.
      simpl in Hha. by specialize (Hha eq_refl). }
    split; simpl; try done.
    + by rewrite length_insert.
    + intros j. rewrite length_insert, Hsame. apply Hex.
    + intros j o'. rewrite Hsame. intros Hj.
      destruct (decide (i = j)) as [<-|Hne].
      * unfold handle_of in Hj. by rewrite Et in Hj.
      * rewrite worker_of_insert_ne by done. by apply Hha.
    + unfold ctl_inv, room, all_fulfilled_outside in *. simpl.
      destruct (ctl st); try done.
      all: destruct Hct as [? Hct]; split; [done|]; intros j; rewrite length_insert, Hsame; apply Hct.
  - (* EReact *)
    destruct (tasks st !! i) as [[[o|] [h|]]|] eqn:Et; try done.
    inversion Hstep; subst; clear Hstep.
    assert (i < length (tasks st))%nat as Hi by (by eapply lookup_lt_Some).
    assert (i ∈ executing st) as Hin.
    { apply Hex. split; [done|]. unfold handle_of. by rewrite Et. }
    set (c' := match ctl st with
               | Racing snap None => if memb i snap then Racing snap (Some o) else Racing snap None
               | c => c end).
    assert (in_hand c' = in_hand (ctl st)) as Hih.
    { unfold c'. destruct (ctl st) as [| | snap [r|] | | |]; try done. by destruct (memb i snap). }
    assert (forall j o', handle_of (<[i:=Task (Some o) (Some o)]> (tasks st)) j = Some o' ->
              worker_of (<[i:=Task (Some o) (Some o)]> (tasks st)) j = Some o') as Hha'.
    { intros j o'. destruct (decide (i = j)) as [<-|Hne].
      - rewrite handle_of_insert_eq, worker_of_insert_eq by done. done.
      - rewrite handle_of_insert_ne, worker_of_insert_ne by done. apply Hha. }
    destruct o.
    + (* fulfilled: the handle is spliced out *)
      destruct (splice_own_handle (executing st) i Hnd Hin) as (Hnd' & Hmem & Hlen).
      assert (forall j, j ∈ splice1 (executing st) (indexOf (executing st) i) <->
                (j < length (<[i:=Task (Some Fulfilled) (Some Fulfilled)]> (tasks st)))%nat /\
                handle_of (<[i:=Task (Some Fulfilled) (Some Fulfilled)]> (tasks st)) j <> Some Fulfilled) as Hex'.
      { intros j. rewrite Hmem, length_insert, Hex.
        destruct (decide (i = j)) as [<-|Hne].
        - rewrite handle_of_insert_eq by done. simpl. tauto.
        - rewrite handle_of_insert_ne by done. split; [tauto|]. intros [H1 H2]. split; [done|congruence]. }
      split; simpl; try done.
      * by rewrite Hih.
      * by rewrite length_insert.
      * lia.
      * unfold ctl_inv, room, all_fulfilled_outside in *. simpl. unfold c'.
        destruct (ctl st) as [|[x|]| snap [r|] | snap | |] eqn:Ec; simpl; try done; try lia.
        -- destruct (memb i snap); simpl; [intros _; lia | done].
        -- destruct Hct as [Hs Hct]. split; [done|].
           intros j. rewrite length_insert. intros Hj Hnj.
           destruct (decide (i = j)) as [<-|Hne].
           ++ by rewrite handle_of_insert_eq.
           ++ rewrite handle_of_insert_ne by done. by apply Hct.
        -- destruct Hct as [Hs Hct]. split; [done|].
           intros j. rewrite length_insert. intros Hj Hnj.
           destruct (decide (i = j)) as [<-|Hne].
           ++ by rewrite handle_of_insert_eq.
           ++ rewrite handle_of_insert_ne by done. by apply Hct.
    + (* rejected: no handler, the handle stays *)
      split; simpl; try done.
      * by rewrite Hih.
      * by rewrite length_insert.
      * intros j. rewrite length_insert, Hex.
        destruct (decide (i = j)) as [<-|Hne].
        -- rewrite handle_of_insert_eq by done. simpl. unfold handle_of. rewrite Et. simpl.
           split; intros [? _]; split; done.
        -- by rewrite handle_of_insert_ne.
      * unfold ctl_inv, room, all_fulfilled_outside in *. simpl. unfold c'.
        destruct (ctl st) as [|[x|]| snap [r|] | snap | |] eqn:Ec; simpl; try done.
        -- destruct (memb i snap); simpl; done.
        -- destruct Hct as [Hs Hct]. split; [done|].
           intros j. rewrite length_insert. intros Hj Hnj.
           destruct (decide (i = j)) as [<-|Hne].
           ++ exfalso. specialize (Hct i Hi Hnj). unfold handle_of in Hct. by rewrite Et in Hct.
           ++ rewrite handle_of_insert_ne by done. by apply Hct.
        -- destruct Hct as [Hs Hct]. split; [done|].
           intros j. rewrite length_insert. intros Hj Hnj.
           destruct (decide (i = j)) as [<-|Hne].
           ++ exfalso. specialize (Hct i Hi Hnj). unfold handle_of in Hct. by rewrite Et in Hct.
           ++ rewrite handle_of_insert_ne by done. by apply Hct.
  - (* EResume *)
    destruct (ctl st) as [|[x|]| snap [[|]|] | snap | |] eqn:Ec; try done.
    + inversion Hstep; subst; clear Hstep. split; simpl; try done.
      unfold ctl_inv in *. rewrite Ec in Hct. simpl. by apply Hct.
    + inversion Hstep; subst; clear Hstep. split; simpl; try done.
    + unfold ctl_inv in Hct. rewrite Ec in Hct. destruct Hct as [Hs Hct].
      destruct (all_result (tasks st) snap) as [[|]|] eqn:Ea; try done;
        inversion Hstep; subst; clear Hstep; split; simpl; try done.
      unfold ctl_inv. simpl. split; [done|].
      intros j Hj _. destruct (decide (j ∈ snap)) as [Hin|Hnin]; [|by apply Hct].
      unfold all_result in Ea.
      destruct (existsb (fun i => is_rejected (handle_of (tasks st) i)) snap); [done|].
      destruct (forallb (fun i => is_fulfilled (handle_of (tasks st) i)) snap) eqn:Ef; [|done].
      rewrite forallb_forall in Ef. apply list_elem_of_In in Hin.
      specialize (Ef j Hin). revert Ef. simpl. destruct (handle_of (tasks st) j) as [[|]|]; simpl; congruence.
Qed.
End invariant.


Section runs.
Context {Item : Type}.
Variable limit : Z.

Lemma run_app es1 es2 (st : state Item) :
  run limit (es1 ++ es2) st =
  match run limit es1 st with Some st' => run limit es2 st' | None => None end.
Proof.
  revert st. induction es1 as [|e es1 IH]; intros st; simpl; [done|].
  destruct (step limit e st); [apply IH|done].
Qed.

Lemma run_inv items es (st st' : state Item) :
  Runner.inv limit items st -> run limit es st = Some st' -> Runner.inv limit items st'.
Proof.
  revert st. induction es as [|e es IH]; intros st Hinv Hrun; simpl in Hrun.
  - inversion Hrun; by subst.
  - destruct (step limit e st) as [st1|] eqn:Es; [|done].
    eapply IH; [|exact Hrun]. by eapply inv_step.
Qed.

Lemma reachable_inv items (st : state Item) :
  reachable limit items st -> Runner.inv limit items st.
Proof. intros [es Hrun]. eapply run_inv; [apply inv_init|exact Hrun]. Qed.

End runs.

Lemma filter_indices (ts : list task) :
  length (List.filter pending ts) =
  length (List.filter (fun i => match ts !! i with Some t => pending t | None => false end)
            (seq 0 (length ts))).
Proof.
  induction ts as [|t ts IH] using rev_ind; [done|].
  rewrite List.filter_app, !length_app, Nat.add_1_r, seq_S, List.filter_app, length_app.
  simpl. f_equal.
  - rewrite IH. f_equal. apply List.filter_ext_in.
    intros i Hi%in_seq. rewrite lookup_app_l by lia. done.
  - rewrite lookup_app_r by lia. rewrite Nat.sub_diag. simpl. by destruct (pending t).
Qed.

Lemma unresolved_le_executing {Item} limit items (st : state Item) :
  Runner.inv limit items st -> (unresolved st <= length (executing st))%nat.
Proof.
  intros Hinv. unfold unresolved. rewrite filter_indices.
  apply NoDup_incl_length.
  - apply List.NoDup_filter, seq_NoDup.
  - intros i Hi. apply List.filter_In in Hi as [Hi Hp].
    apply in_seq in Hi. apply list_elem_of_In, (inv_exec _ _ _ Hinv).
    split; [lia|].
    destruct (tasks st !! i) as [t|] eqn:Et; [|done].
    destruct (handle_of (tasks st) i) as [o|] eqn:Eh; [|done].
    apply (inv_handle _ _ _ Hinv) in Eh. unfold worker_of in Eh. rewrite Et in Eh.
    unfold pending in Hp. by rewrite Eh in Hp.
Qed.


Section stability.
Context {Item : Type}.
Variable limit : Z.

(** A settled handle never changes again. *)
Lemma handle_stable e (st st' : state Item) i o :
  step limit e st = Some st' ->
  handle_of (tasks st) i = Some o -> handle_of (tasks st') i = Some o.
Proof.
  intros Hstep Hh.
  assert (i < length (tasks st))%nat as Hi.
  { destruct (decide (i < length (tasks st))%nat); [done|].
    rewrite handle_of_ge in Hh by lia. done. }
  destruct e; simpl in Hstep.
  - destruct (ctl st); try done. destruct (source st); by inversion Hstep.
  - destruct (ctl st) as [|[x|]| | | |]; try done.
    + destruct (_ >=? limit); inversion Hstep; subst; simpl; by rewrite handle_of_app_l.
    + by inversion Hstep.
  - destruct (tasks st !! i0) as [[[w|] h]|] eqn:Et; try done.
    inversion Hstep; subst; simpl.
    destruct (decide (i0 = i)) as [->|Hne].
    + rewrite handle_of_insert_eq by done. unfold handle_of in Hh. by rewrite Et in Hh.
    + by rewrite handle_of_insert_ne.
  - destruct (tasks st !! i0) as [[[w|] [h|]]|] eqn:Et; try done.
    inversion Hstep; subst; simpl.
    destruct (decide (i0 = i)) as [->|Hne].
    + unfold handle_of in Hh. by rewrite Et in Hh.
    + by rewrite handle_of_insert_ne.
  - destruct (ctl st) as [|[x|]| snap [[|]|] | snap | |]; try done; try by inversion Hstep.
    destruct (all_result (tasks st) snap) as [[|]|]; by inversion Hstep.
Qed.

Lemma handle_stable_run es (st st' : state Item) i o :
  run limit es st = Some st' ->
  handle_of (tasks st) i = Some o -> handle_of (tasks st') i = Some o.
Proof.
  revert st. induction es as [|e es IH]; intros st Hrun Hh; simpl in Hrun.
  - inversion Hrun; by subst.
  - destruct (step limit e st) as [st1|] eqn:Es; [|done].
    eapply IH; [exact Hrun|]. by eapply handle_stable.
Qed.

(** Once the returned promise is rejected, the body of [concurrent] is
    over: no later job pulls an item or starts a worker. *)
Lemma thrown_final es (st st' : state Item) :
  ctl st = Thrown -> run limit es st = Some st' ->
  ctl st' = Thrown /\ source st' = source st /\ invoked st' = invoked st.
Proof.
  revert st. induction es as [|e es IH]; intros st Hc Hrun; simpl in Hrun.
  - inversion Hrun; by subst.
  - destruct (step limit e st) as [st1|] eqn:Es; [|done].
    assert (ctl st1 = Thrown /\ source st1 = source st /\ invoked st1 = invoked st) as (H1 & H2 & H3).
    { destruct e; simpl in Es; rewrite ?Hc in Es; try done.
      - destruct (tasks st !! i) as [[[w|] h]|]; try done. inversion Es; subst; simpl. done.
      - destruct (tasks st !! i) as [[[w|] [h|]]|]; try done. inversion Es; subst; simpl. done. }
    destruct (IH st1 H1 Hrun) as (H4 & H5 & H6). by rewrite H5, H6, H2, H3.
Qed.
End stability.

(** *** Progress: a run whose workers fulfil comes to an end *)

Lemma first_settled_none ts snap :
  first_settled ts snap = None -> forall i, i ∈ snap -> handle_of ts i = None.
Proof.
  induction snap as [|j snap IH]; intros H i Hi; [by apply elem_of_nil in Hi|].
  simpl in H. destruct (handle_of ts j) eqn:E; [done|].
  apply elem_of_cons in Hi as [->|Hi]; [done|by apply IH].
Qed.

Lemma first_settled_some ts snap o :
  first_settled ts snap = Some o -> exists i, handle_of ts i = Some o.
Proof.
  induction snap as [|j snap IH]; intros H; [done|].
  simpl in H. destruct (handle_of ts j) eqn:E; [|by apply IH].
  exists j. congruence.
Qed.

Lemma memb_true i xs : memb i xs = true <-> i ∈ xs.
Proof.
  unfold memb. rewrite existsb_exists. split.
  - intros (x & Hx & ->%Nat.eqb_eq). by apply list_elem_of_In.
  - intros H. exists i. split; [by apply list_elem_of_In|apply Nat.eqb_refl].
Qed.

Lemma filter_insert_length (p : task -> bool) (l : list task) i x y :
  l !! i = Some x ->
  (length (List.filter p (<[i := y]> l)) + Nat.b2n (p x) =
   length (List.filter p l) + Nat.b2n (p y))%nat.
Proof.
  intros Hi.
  assert (i < length l)%nat as Hlt by (by eapply lookup_lt_Some).
  rewrite insert_take_drop by done.
  rewrite <- (take_drop_middle l i x Hi) at 3.
  rewrite !List.filter_app, !length_app. simpl.
  destruct (p x), (p y); simpl; lia.
Qed.

Section progress.
Context {Item : Type}.
Variable limit : Z.
Variable items : list Item.

Lemma live_init : ctl_live (init items).
Proof. done. Qed.

Lemma live_step e (st st' : state Item) :
  Runner.inv limit items st -> ctl_live st -> step limit e st = Some st' -> ctl_live st'.
Proof.
  intros Hinv Hlive Hstep. unfold ctl_live in *.
  destruct e; simpl in Hstep.
  - destruct (ctl st); try done. destruct (source st); by inversion Hstep.
  - destruct (ctl st) as [|[x|]| | | |] eqn:Ec; try done.
    + set (ts := tasks st ++ [Task None None]) in *.
      set (ex := executing st ++ [length (tasks st)]) in *.
      assert (forall i, i ∈ ex -> (i < length ts)%nat) as Hbound.
      { intros i. unfold ex, ts. rewrite elem_of_app, list_elem_of_singleton, length_app.
        simpl. intros [Hi| ->]; [|lia]. apply (inv_exec _ _ _ Hinv) in Hi. lia. }
      destruct (Z.of_nat (length ex) >=? limit); inversion Hstep; subst; simpl; [|done].
      destruct (first_settled ts ex) as [[|]|] eqn:Ef; [done| |].
      * by eapply first_settled_some.
      * split; [unfold ex; by destruct (executing st)|].
        intros i Hi. split; [by apply Hbound|by eapply first_settled_none].
    + inversion Hstep; subst; simpl. intros i Hi. by apply (inv_exec _ _ _ Hinv) in Hi as [? _].
  - destruct (tasks st !! i) as [[[w|] h]|] eqn:Et; try done.
    inversion Hstep; subst; simpl.
    assert (forall j, handle_of (<[i:=Task (Some o) h]> (tasks st)) j = handle_of (tasks st) j) as Hsame.
    { intros j. destruct (decide (i = j)) as [<-|Hne].
      - rewrite handle_of_insert_eq by (by eapply lookup_lt_Some).
        unfold handle_of. by rewrite Et.
      - by rewrite handle_of_insert_ne. }
    destruct (ctl st) as [|[x|]| snap [[|]|] | snap | |]; try done.
    + destruct Hlive as [j Hj]. exists j. by rewrite Hsame.
    + destruct Hlive as [Hne Hall]. split; [done|]. intros j Hj.
      rewrite length_insert, Hsame. by apply Hall.
    + intros j Hj. rewrite length_insert. by apply Hlive.
    + destruct Hlive as [j Hj]. exists j. by rewrite Hsame.
  - destruct (tasks st !! i) as [[[o|] [h|]]|] eqn:Et; try done.
    inversion Hstep; subst; simpl.
    assert (i < length (tasks st))%nat as Hi by (by eapply lookup_lt_Some).
    assert (forall j o', handle_of (tasks st) j = Some o' ->
              handle_of (<[i:=Task (Some o) (Some o)]> (tasks st)) j = Some o') as Hkeep.
    { intros j o' Hj. destruct (decide (i = j)) as [<-|Hne].
      - unfold handle_of in Hj. by rewrite Et in Hj.
      - by rewrite handle_of_insert_ne. }
    destruct (ctl st) as [|[x|]| snap [[|]|] | snap | |]; try done.
    + destruct Hlive as [j Hj]. exists j. by apply Hkeep.
    + destruct (memb i snap) eqn:Em.
      * destruct o; [done|]. exists i. by rewrite handle_of_insert_eq.
      * destruct Hlive as [Hne Hall]. split; [done|]. intros j Hj.
        rewrite length_insert. destruct (Hall j Hj) as [H1 H2]. split; [done|].
        rewrite handle_of_insert_ne; [done|]. intros <-.
        apply memb_true in Hj. congruence.
    + intros j Hj. rewrite length_insert. by apply Hlive.
    + destruct Hlive as [j Hj]. exists j. by apply Hkeep.
  - destruct (ctl st) as [|[x|]| snap [[|]|] | snap | |] eqn:Ec; try done;
      try by (inversion Hstep; subst).
    destruct (all_result (tasks st) snap) as [[|]|] eqn:Ea; try done;
      inversion Hstep; subst; simpl; [done|].
    unfold all_result in Ea.
    destruct (existsb (fun i => is_rejected (handle_of (tasks st) i)) snap) eqn:Ee.
    + apply existsb_exists in Ee as (j & _ & Hj). exists j.
      by destruct (handle_of (tasks st) j) as [[|]|].
    + by destruct (forallb _ snap).
Qed.
End progress.

Section completion_from_any_state.
Context {Item : Type}.
Variable limit : Z.
Variable items : list Item.

Lemma find_task (p : task -> bool) (ts : list task) :
  (exists i t, ts !! i = Some t /\ p t = true) \/
  (forall i t, ts !! i = Some t -> p t = false).
Proof.
  induction ts as [|t ts IH].
  - right. intros i t. by rewrite lookup_nil.
  - destruct (p t) eqn:Ep; [left; by exists 0%nat, t|].
    destruct IH as [(i & t' & Hi & Ht)|Hall].
    + left. by exists (S i), t'.
    + right. intros [|i] t' Hi; simpl in Hi; [by inversion Hi; subst|by eapply Hall].
Qed.

(** While the returned promise is pending and no worker has rejected, some
    job can run, and running it brings the end of the run closer. *)
Lemma progress (st : state Item) :
  Runner.inv limit items st -> ctl_live st -> no_reject st -> ctl st <> Returned ->
  exists e st', step limit e st = Some st' /\ no_reject st' /\
                (measure st' < measure st)%nat.
Proof.
  intros Hinv Hlive Hnr Hctl.
  destruct (find_task pending (tasks st)) as [(i & [w h] & Hi & Hp)|Hsettled].
  { (* a worker is still running: it fulfils *)
    unfold pending in Hp. simpl in Hp. destruct w; [done|].
    exists (ESettle i Fulfilled). eexists. split; [simpl; by rewrite Hi|]. split.
    - intros j. simpl. destruct (decide (i = j)) as [<-|Hne].
      + rewrite worker_of_insert_eq by (by eapply lookup_lt_Some). done.
      + rewrite worker_of_insert_ne by done. apply Hnr.
    - unfold measure. simpl.
      assert (length (List.filter pending (<[i:=Task (Some Fulfilled) h]> (tasks st))) + 1 =
              length (List.filter pending (tasks st)) + 0)%nat as H1
        by exact (filter_insert_length pending (tasks st) i (Task None h)
                    (Task (Some Fulfilled) h) Hi).
      assert (length (List.filter unsettled (<[i:=Task (Some Fulfilled) h]> (tasks st))) =
              length (List.filter unsettled (tasks st)))%nat as H2.
      { pose proof (filter_insert_length unsettled (tasks st) i (Task None h)
                      (Task (Some Fulfilled) h) Hi) as H2.
        assert (unsettled (Task None h) = unsettled (Task (Some Fulfilled) h)) as Hu by done.
        rewrite Hu in H2. lia. }
      lia. }
  destruct (find_task unsettled (tasks st)) as [(i & [w h] & Hi & Hp)|Hreacted].
  { (* a reaction is due *)
    unfold unsettled in Hp. simpl in Hp. destruct h; [done|].
    pose proof (Hsettled i _ Hi) as Hw. unfold pending in Hw. simpl in Hw.
    destruct w as [o|]; [|done].
    assert (o = Fulfilled) as ->.
    { destruct o; [done|]. exfalso. apply (Hnr i). unfold worker_of. by rewrite Hi. }
    exists (EReact i). eexists. split; [simpl; by rewrite Hi|]. split.
    - intros j. simpl. destruct (decide (i = j)) as [<-|Hne].
      + rewrite worker_of_insert_eq by (by eapply lookup_lt_Some). done.
      + rewrite worker_of_insert_ne by done. apply Hnr.
    - unfold measure. simpl.
      assert (length (List.filter pending
                        (<[i:=Task (Some Fulfilled) (Some Fulfilled)]> (tasks st))) + 0 =
              length (List.filter pending (tasks st)) + 0)%nat as H1
        by exact (filter_insert_length pending (tasks st) i (Task (Some Fulfilled) None)
                    (Task (Some Fulfilled) (Some Fulfilled)) Hi).
      assert (length (List.filter unsettled
                        (<[i:=Task (Some Fulfilled) (Some Fulfilled)]> (tasks st))) + 1 =
              length (List.filter unsettled (tasks st)) + 0)%nat as H2
        by exact (filter_insert_length unsettled (tasks st) i (Task (Some Fulfilled) None)
                    (Task (Some Fulfilled) (Some Fulfilled)) Hi).
      assert (ctl_weight match ctl st with
                         | Racing snap None =>
                             if memb i snap then Racing snap (Some Fulfilled)
                             else Racing snap None
                         | c => c
                         end = ctl_weight (ctl st)) as ->.
      { destruct (ctl st) as [| | snap [r|] | | |]; try done. by destruct (memb i snap). }
      lia. }
  (* every handle has settled, and was fulfilled *)
  assert (forall i, (i < length (tasks st))%nat ->
                    handle_of (tasks st) i = Some Fulfilled) as Hall.
  { intros i Hlt. destruct (lookup_lt_is_Some_2 _ _ Hlt) as [[w h] Hi].
    pose proof (Hreacted i _ Hi) as Hh. unfold unsettled in Hh. simpl in Hh.
    destruct h as [o|]; [|done].
    assert (handle_of (tasks st) i = Some o) as Ho by (unfold handle_of; by rewrite Hi).
    destruct o; [done|]. exfalso. apply (Hnr i). by apply (inv_handle _ _ _ Hinv). }
  assert ((exists i, handle_of (tasks st) i = Some Rejected) -> False) as Hnone.
  { intros [i Hi]. apply (Hnr i). by apply (inv_handle _ _ _ Hinv). }
  unfold ctl_live in Hlive. unfold measure.
  destruct (ctl st) as [|[x|]| snap [[|]|] | snap | |] eqn:Ec; try done.
  - exists EYield. simpl. rewrite Ec.
    destruct (source st) as [|x rest]; eexists; (split; [done|]); simpl; split; try done; lia.
  - exists ERun. simpl. rewrite Ec.
    assert (forall ts', no_reject (State (source st) (pulled st) (invoked st ++ [x])
                          (tasks st ++ [Task None None]) (executing st ++ [length (tasks st)]) ts'))
      as Hnr'.
    { intros c j. simpl. unfold worker_of.
      destruct (decide (j < length (tasks st))%nat).
      - rewrite lookup_app_l by done. apply Hnr.
      - rewrite lookup_app_r by lia.
        by destruct (j - length (tasks st))%nat as [|[|m]]. }
    destruct (Z.of_nat (length (executing st ++ [length (tasks st)])) >=? limit);
      eexists; (split; [done|]); (split; [apply Hnr'|]); simpl;
      rewrite !List.filter_app, !length_app; simpl; lia.
  - exists ERun. simpl. rewrite Ec. eexists. split; [done|]. split; [done|]. simpl. lia.
  - exists EResume. simpl. rewrite Ec. eexists. split; [done|]. split; [done|]. simpl. lia.
  - destruct Hlive as [Hne Hmem]. destruct snap as [|i snap]; [done|].
    destruct (Hmem i ltac:(by left)) as [Hlt Hh]. by rewrite Hall in Hh.
  - exists EResume. simpl. rewrite Ec.
    assert (all_result (tasks st) snap = Some Fulfilled) as ->.
    { unfold all_result.
      assert (existsb (fun i => is_rejected (handle_of (tasks st) i)) snap = false) as ->.
      { apply not_true_is_false. intros (j & _ & Hj)%existsb_exists.
        apply Hnone. exists j. by destruct (handle_of (tasks st) j) as [[|]|]. }
      assert (forallb (fun i => is_fulfilled (handle_of (tasks st) i)) snap = true) as ->; [|done].
      apply forallb_forall. intros j Hj%list_elem_of_In. by rewrite Hall by (by apply Hlive). }
    eexists. split; [done|]. split; [done|]. simpl. lia.
Qed.

Lemma completes_within (n : nat) : forall st : state Item,
  (measure st <= n)%nat ->
  Runner.inv limit items st -> ctl_live st -> no_reject st ->
  exists es st', run limit es st = Some st' /\ ctl st' = Returned.
Proof.
  induction n as [|n IH]; intros st Hm Hinv Hlive Hnr.
  - destruct (ctl st) eqn:Ec; try (by exists [], st);
      destruct (progress st Hinv Hlive Hnr) as (e & st1 & _ & _ & Hlt);
      try (by rewrite Ec); lia.
  - destruct (ctl st) eqn:Ec; try (by exists [], st);
      destruct (progress st Hinv Hlive Hnr) as (e & st1 & Hstep & Hnr1 & Hlt);
      try (by rewrite Ec);
      (destruct (IH st1) as (es & st' & Hrun & Hret);
       [lia|by eapply inv_step|by eapply live_step|done|]);
      exists (e :: es), st'; simpl; by rewrite Hstep.
Qed.

Lemma run_live es (st st' : state Item) :
  Runner.inv limit items st -> ctl_live st -> run limit es st = Some st' -> ctl_live st'.
Proof.
  revert st. induction es as [|e es IH]; intros st Hinv Hlive Hrun; simpl in Hrun.
  - by inversion Hrun; subst.
  - destruct (step limit e st) as [st1|] eqn:Es; [|done].
    eapply IH; [| |exact Hrun]; [by eapply inv_step|by eapply live_step].
Qed.

(** From any state of a run in which no worker has rejected, the run can
    be brought to its end with the returned promise fulfilled. *)
Lemma completes (st : state Item) :
  reachable limit items st -> no_reject st ->
  exists es st', run limit es st = Some st' /\ ctl st' = Returned.
Proof.
  intros Hreach Hnr. pose proof Hreach as [es0 Hrun0].
  apply (completes_within (measure st) st); [lia| | |done].
  - by apply reachable_inv.
  - eapply run_live; [apply inv_init|apply live_init|exact Hrun0].
Qed.
End completion_from_any_state.

(** With a limit of at least one, and so with the default limit of 200, at
    most [limit] invocations are unresolved at any instant. *)
Lemma unresolved_le_limit {Item} (limit : Z) (items : list Item) (st : state Item) :
  1 <= limit -> reachable limit items st -> Z.of_nat (unresolved st) <= limit.
Proof.
  intros Hl Hreach. pose proof (reachable_inv limit items st Hreach) as Hinv.
  pose proof (unresolved_le_executing limit items st Hinv).
  pose proof (inv_bound _ _ _ Hinv). lia.
Qed.

Lemma unresolved_le_default {Item} (items : list Item) (st : state Item) :
  reachable default_limit items st -> Z.of_nat (unresolved st) <= 200.
Proof. apply unresolved_le_limit. unfold default_limit. lia. Qed.

(** *** Claims about [concurrent] *)

(** C1 (as amended).  For every source of items and every limit, in every
    state a run of [concurrent] can reach: the worker has been invoked on a
    prefix of the source, once per item and in order; the unresolved
    invocations are among the handles in [executing], of which there are at
    most [max limit 1]; when the returned
    promise is fulfilled the source is exhausted, the worker has been invoked
    exactly once on each item and every invocation has fulfilled; and as
    long as no worker has rejected, the run can go on to that end. *)
Theorem concurrent_bounded_exactly_once {Item} (limit : Z) (items : list Item)
    (st : state Item) :
  reachable limit items st ->
  (exists rest, invoked st ++ rest = items) /\
  (unresolved st <= length (executing st))%nat /\
  Z.of_nat (length (executing st)) <= Z.max limit 1 /\
  (ctl st = Returned ->
     source st = [] /\ invoked st = items /\ unresolved st = 0%nat /\
     forall i, (i < length items)%nat -> worker_of (tasks st) i = Some Fulfilled) /\
  (no_reject st ->
     exists es st', run limit es st = Some st' /\ ctl st' = Returned).
Proof.
  intros Hreach. pose proof (reachable_inv limit items st Hreach) as Hinv.
  pose proof (unresolved_le_executing limit items st Hinv) as Hle.
  destruct Hinv as [Hit Hpu Hta Hnd Hex Hha Hbo Hct].
  split; [|split; [|split; [|split]]].
  - exists (in_hand (ctl st) ++ source st). by rewrite app_assoc, <- Hpu.
  - done.
  - done.
  - intros Hc. unfold ctl_inv in Hct. rewrite Hc in Hct. destruct Hct as [Hs Hall].
    rewrite Hc in Hpu. simpl in Hpu. rewrite app_nil_r in Hpu.
    rewrite Hs, app_nil_r in Hit.
    assert (invoked st = items) as Hiv by congruence.
    assert (forall i, (i < length items)%nat -> worker_of (tasks st) i = Some Fulfilled) as Hw.
    { intros i Hi. apply Hha, Hall; [|by intros ?%elem_of_nil]. rewrite Hta, Hiv. done. }
    repeat split; try done.
    unfold unresolved.
    destruct (List.filter pending (tasks st)) as [|t l] eqn:Ef; [done|].
    assert (In t (List.filter pending (tasks st))) as Hin by (rewrite Ef; by left).
    apply List.filter_In in Hin as [Hin Hp].
    apply list_elem_of_In, list_elem_of_lookup in Hin as [i Hi].
    assert (i < length items)%nat as Hlt.
    { rewrite <- Hiv, <- Hta. by eapply lookup_lt_Some. }
    specialize (Hw i Hlt). unfold worker_of in Hw. rewrite Hi in Hw.
    unfold pending in Hp. by rewrite Hw in Hp.
  - intros Hnr. by apply (completes limit items).
Qed.

(** C2 (as amended).  When the reaction of a settled invocation runs: after
    a fulfilment it removes exactly that invocation's handle from
    [executing]; after a rejection it removes nothing, and the handle stays
    in [executing] for the rest of the run. *)
Theorem reaction_deregisters_fulfilled_handle {Item} (limit : Z) (items : list Item)
    (st : state Item) (i : nat) (o : outcome) :
  reachable limit items st ->
  tasks st !! i = Some (Task (Some o) None) ->
  exists st', step limit (EReact i) st = Some st' /\
    i ∈ executing st /\
    match o with
    | Fulfilled => forall j, j ∈ executing st' <-> j ∈ executing st /\ j <> i
    | Rejected =>
        executing st' = executing st /\
        forall es st'', run limit es st' = Some st'' -> i ∈ executing st''
    end.
Proof.
  intros Hreach Ht. pose proof (reachable_inv limit items st Hreach) as Hinv.
  assert (i ∈ executing st) as Hin.
  { apply (inv_exec _ _ _ Hinv). split; [by eapply lookup_lt_Some|].
    unfold handle_of. by rewrite Ht. }
  destruct (step limit (EReact i) st) as [st'|] eqn:Es; [|simpl in Es; by rewrite Ht in Es].
  exists st'. split; [done|]. split; [done|].
  pose proof Es as Es'. simpl in Es. rewrite Ht in Es. inversion Es as [Hst']. clear Es.
  destruct o; simpl.
  - intros j. by apply splice_own_handle; [apply (inv_nodup _ _ _ Hinv)|].
  - split; [done|]. intros es st'' Hrun. rewrite Hst' in Hrun.
    assert (Runner.inv limit items st') as Hinv' by (by eapply inv_step).
    assert (Runner.inv limit items st'') as Hinv'' by (by eapply run_inv).
    assert (handle_of (tasks st') i = Some Rejected) as Hh.
    { rewrite <- Hst'. simpl. apply handle_of_insert_eq. by eapply lookup_lt_Some. }
    pose proof (handle_stable_run limit es st' st'' i Rejected Hrun Hh) as Hh''.
    apply (inv_exec _ _ _ Hinv''). split; [|by rewrite Hh''].
    destruct (decide (i < length (tasks st''))%nat); [done|].
    rewrite handle_of_ge in Hh'' by lia. done.
Qed.

(** C10.  Worker invocations start in source order: the items yielded so
    far are a prefix of the source, the invocations started so far are the
    yielded items in the same order with at most the last one still due,
    and the source is asked for a further item only when every item it has
    yielded has had its invocation started. *)
Theorem concurrent_starts_in_source_order {Item} (limit : Z) (items : list Item)
    (st : state Item) :
  reachable limit items st ->
  pulled st ++ source st = items /\
  (exists hand, pulled st = invoked st ++ hand /\ (length hand <= 1)%nat) /\
  length (tasks st) = length (invoked st) /\
  (forall st', step limit EYield st = Some st' -> invoked st = pulled st).
Proof.
  intros Hreach. destruct (reachable_inv limit items st Hreach) as [Hit Hpu Hta _ _ _ _ _].
  repeat split; try done.
  - exists (in_hand (ctl st)). split; [done|].
    destruct (ctl st) as [|[x|]| | | |]; simpl; lia.
  - intros st' Hstep. simpl in Hstep.
    destruct (ctl st); try done. simpl in Hpu. by rewrite app_nil_r in Hpu.
Qed.

(** *** Concrete runs *)

Example run_fulfilled : run 2 schedule_fulfilled (init abc) = Some state_fulfilled.
Proof. reflexivity. Qed.

Example run_rejected : run 2 schedule_rejected (init abc) = Some state_rejected.
Proof. reflexivity. Qed.

Lemma concurrent_bounded_exactly_once_witness :
  reachable 2 abc state_fulfilled /\
  ((exists rest, invoked state_fulfilled ++ rest = abc) /\
   (unresolved state_fulfilled <= length (executing state_fulfilled))%nat /\
   Z.of_nat (length (executing state_fulfilled)) <= Z.max 2 1 /\
   (ctl state_fulfilled = Returned ->
      source state_fulfilled = [] /\ invoked state_fulfilled = abc /\
      unresolved state_fulfilled = 0%nat /\
      forall i, (i < length abc)%nat ->
                worker_of (tasks state_fulfilled) i = Some Fulfilled) /\
   (no_reject state_fulfilled ->
      exists es st', run 2 es state_fulfilled = Some st' /\ ctl st' = Returned)).
Proof.
  assert (reachable 2 abc state_fulfilled) as H.
  { exists schedule_fulfilled. reflexivity. }
  split; [exact H|].
  exact (concurrent_bounded_exactly_once 2 abc state_fulfilled H).
Defined.

(** C1, counterexample.  With limit 2 and a first worker that rejects, the
    returned promise settles while the second invocation is unresolved and
    the third item has not been pulled; the worker is never invoked on that
    item.  With limit 0 one invocation is unresolved, more than the limit. *)
Lemma concurrent_rejection_settles_early :
  (run 2 schedule_rejected (init abc) = Some state_rejected /\
   settled state_rejected = true /\
   source state_rejected = ["c"%string] /\
   unresolved state_rejected = 1%nat /\
   forall es st', run 2 es state_rejected = Some st' ->
                  invoked st' = ["a"; "b"]%string) /\
  (exists st, run 0 [EYield; ERun] (init ["a"%string]) = Some st /\
              ~ Z.of_nat (unresolved st) <= 0).
Proof.
  split.
  - repeat split; try reflexivity.
    intros es st' Hrun.
    by destruct (thrown_final 2 es state_rejected st' eq_refl Hrun) as (_ & _ & ->).
  - exists (State [] ["a"%string] ["a"%string] [Task None None] [0%nat]
              (Racing [0%nat] None)).
    split; [reflexivity|]. cbv [unresolved tasks List.filter pending worker length]. lia.
Qed.

Lemma reaction_deregisters_fulfilled_handle_witness :
  (reachable 2 abc (state_reaction_due Fulfilled) /\
   tasks (state_reaction_due Fulfilled) !! 0%nat = Some (Task (Some Fulfilled) None)) /\
  exists st', step 2 (EReact 0) (state_reaction_due Fulfilled) = Some st' /\
    0%nat ∈ executing (state_reaction_due Fulfilled) /\
    forall j, j ∈ executing st' <->
              j ∈ executing (state_reaction_due Fulfilled) /\ j <> 0%nat.
Proof.
  assert (reachable 2 abc (state_reaction_due Fulfilled)) as H.
  { exists [EYield; ERun; EYield; ERun; ESettle 0 Fulfilled]. reflexivity. }
  split; [split; [exact H|reflexivity]|].
  exact (reaction_deregisters_fulfilled_handle 2 abc (state_reaction_due Fulfilled)
           0 Fulfilled H eq_refl).
Defined.

(** C2, counterexample.  A worker that rejects: its invocation has
    completed and the reaction has run, yet its handle is still in
    [executing], and stays there when the run ends. *)
Lemma rejected_handle_stays_registered :
  run 2 [EYield; ERun; EYield; ERun; ESettle 0 Rejected; EReact 0] (init abc) =
    Some (State ["c"%string] ["a"; "b"]%string ["a"; "b"]%string
            [Task (Some Rejected) (Some Rejected); Task None None] [0; 1]%nat
            (Racing [0; 1]%nat (Some Rejected))) /\
  worker_of (tasks state_rejected) 0 = Some Rejected /\
  handle_of (tasks state_rejected) 0 = Some Rejected /\
  0%nat ∈ executing state_rejected.
Proof.
  repeat split; try reflexivity. simpl. by left.
Qed.

Lemma concurrent_starts_in_source_order_witness :
  reachable 2 abc (state_reaction_due Fulfilled) /\
  (pulled (state_reaction_due Fulfilled) ++ source (state_reaction_due Fulfilled) = abc /\
   (exists hand, pulled (state_reaction_due Fulfilled) =
                 invoked (state_reaction_due Fulfilled) ++ hand /\ (length hand <= 1)%nat) /\
   length (tasks (state_reaction_due Fulfilled)) =
     length (invoked (state_reaction_due Fulfilled)) /\
   (forall st', step 2 EYield (state_reaction_due Fulfilled) = Some st' ->
                invoked (state_reaction_due Fulfilled) = pulled (state_reaction_due Fulfilled))).
Proof.
  assert (reachable 2 abc (state_reaction_due Fulfilled)) as H.
  { exists [EYield; ERun; EYield; ERun; ESettle 0 Fulfilled]. reflexivity. }
  split; [exact H|].
  exact (concurrent_starts_in_source_order 2 abc (state_reaction_due Fulfilled) H).
Defined.

(** *** More about the array [executing] *)

(** [indexOf] is [-1] exactly on an array without [p]. *)
Lemma indexOf_absent xs p : p ∉ xs -> indexOf xs p = -1.
Proof.
  induction xs as [|x rest IH]; intros Hn; simpl; [done|].
  apply not_elem_of_cons in Hn as [Hne Hn].
  destruct (Nat.eqb x p) eqn:E.
  - apply Nat.eqb_eq in E. congruence.
  - by rewrite (IH Hn).
Qed.

Lemma indexOf_first xs p :
  p ∈ xs -> exists l1 l2, xs = l1 ++ p :: l2 /\ (p ∉ l1) /\ indexOf xs p = Z.of_nat (length l1).
Proof.
  induction xs as [|x rest IH]; intros Hin; [by apply elem_of_nil in Hin|].
  simpl. destruct (Nat.eqb x p) eqn:E.
  - apply Nat.eqb_eq in E. subst. exists [], rest. split; [done|]. split; [|done].
    by intros ?%elem_of_nil.
  - apply Nat.eqb_neq in E. apply elem_of_cons in Hin as [->|Hin]; [done|].
    destruct (IH Hin) as (l1 & l2 & -> & Hn & Hi).
    exists (x :: l1), l2. split; [done|]. split.
    + apply not_elem_of_cons. split; [congruence|done].
    + rewrite Hi. destruct (Z.of_nat (length l1) <? 0) eqn:F; [lia|]. simpl length. lia.
Qed.

Lemma splice1_sub xs start j : j ∈ splice1 xs start -> j ∈ xs.
Proof.
  unfold splice1. intros [H|H]%elem_of_app.
  - apply elem_of_take in H as (i & H & _). by eapply list_elem_of_lookup_2.
  - eapply elem_of_sublist; [exact H|apply sublist_drop].
Qed.

Lemma NoDup_bounded_length (xs : list nat) n :
  NoDup xs -> (forall x, x ∈ xs -> (x < n)%nat) -> (length xs <= n)%nat.
Proof.
  intros Hnd Hb. transitivity (length (seq 0 n)); [|by rewrite List.length_seq].
  apply submseteq_length.
  apply NoDup_submseteq; [done|]. intros x Hx. apply elem_of_seq. specialize (Hb x Hx). lia.
Qed.

Lemma first_settled_member ts snap i o :
  i ∈ snap -> handle_of ts i = Some o -> exists o', first_settled ts snap = Some o'.
Proof.
  induction snap as [|j snap IH]; intros Hi Hh; [by apply elem_of_nil in Hi|].
  simpl. destruct (handle_of ts j) as [oj|] eqn:E; [by eexists|].
  apply elem_of_cons in Hi as [->|Hi]; [congruence|by apply IH].
Qed.

Section waiting.
Context {Item : Type}.
Variable limit : Z.
Variable items : list Item.

Lemma race_step e (st st' : state Item) :
  Runner.inv limit items st -> race_inv limit st -> step limit e st = Some st' ->
  race_inv limit st'.
Proof.
  intros Hinv Hrace Hstep. unfold race_inv in *.
  destruct e; simpl in Hstep.
  - destruct (ctl st); try done. destruct (source st); by inversion Hstep.
  - destruct (ctl st) as [|[x|]| | | |]; try done; [|by inversion Hstep].
    destruct (Z.of_nat (length (executing st ++ [length (tasks st)])) >=? limit) eqn:El;
      inversion Hstep; subst; simpl; [|done].
    rewrite Z.geb_leb in El. apply Z.leb_le in El.
    split; [done|]. split; [|done].
    rewrite !length_app. simpl.
    assert (length (executing st) <= length (tasks st))%nat; [|lia].
    apply NoDup_bounded_length; [apply (inv_nodup _ _ _ Hinv)|].
    intros j Hj. by apply (inv_exec _ _ _ Hinv) in Hj as [? _].
  - destruct (tasks st !! i) as [[[w|] h]|]; try done.
    inversion Hstep; subst; simpl. destruct (ctl st); try done.
    by rewrite length_insert.
  - destruct (tasks st !! i) as [[[o|] [h|]]|]; try done.
    inversion Hstep; subst; simpl.
    assert (forall j, j ∈ match o with
                          | Fulfilled => splice1 (executing st) (indexOf (executing st) i)
                          | Rejected => executing st
                          end -> j ∈ executing st) as Hsub.
    { intros j. destruct o; [apply splice1_sub|done]. }
    destruct (ctl st) as [| |snap [r|]| | |]; try done; rewrite ?length_insert.
    + destruct Hrace as (H1 & H2 & H3). by repeat split.
    + destruct Hrace as (H1 & H2 & H3).
      destruct (memb i snap); rewrite ?length_insert; (split; [done|]; split; [done|]);
        [done|]. intros _ j Hj. by apply H3, Hsub.
  - destruct (ctl st) as [|[x|]| snap [[|]|] | snap | |]; try done; try by inversion Hstep.
    destruct (all_result (tasks st) snap) as [[|]|]; by inversion Hstep.
Qed.

Lemma run_race es (st st' : state Item) :
  Runner.inv limit items st -> race_inv limit st -> run limit es st = Some st' ->
  race_inv limit st'.
Proof.
  revert st. induction es as [|e es IH]; intros st Hinv Hrace Hrun; simpl in Hrun.
  - by inversion Hrun; subst.
  - destruct (step limit e st) as [st1|] eqn:Es; [|done].
    eapply IH; [| |exact Hrun]; [by eapply inv_step|by eapply race_step].
Qed.

Lemma reachable_race (st : state Item) : reachable limit items st -> race_inv limit st.
Proof. intros [es Hrun]. eapply run_race; [apply inv_init|done|exact Hrun]. Qed.

Lemma reachable_live (st : state Item) : reachable limit items st -> ctl_live st.
Proof. intros [es Hrun]. eapply run_live; [apply inv_init|apply live_init|exact Hrun]. Qed.

Lemma reachable_run es (st st' : state Item) :
  reachable limit items st -> run limit es st = Some st' -> reachable limit items st'.
Proof. intros [es0 H0] H. exists (es0 ++ es). by rewrite run_app, H0. Qed.

Lemma invoked_le_items (st : state Item) :
  Runner.inv limit items st -> (length (invoked st) <= length items)%nat.
Proof.
  intros Hinv. rewrite <- (inv_items _ _ _ Hinv), (inv_pulled _ _ _ Hinv), !length_app. lia.
Qed.

(** A settled worker promise never changes again. *)
Lemma worker_stable e (st st' : state Item) i o :
  step limit e st = Some st' ->
  worker_of (tasks st) i = Some o -> worker_of (tasks st') i = Some o.
Proof.
  intros Hstep Hw.
  assert (i < length (tasks st))%nat as Hi.
  { destruct (decide (i < length (tasks st))%nat); [done|].
    unfold worker_of in Hw. by rewrite lookup_ge_None_2 in Hw by lia. }
  destruct e; simpl in Hstep.
  - destruct (ctl st); try done. destruct (source st); by inversion Hstep.
  - destruct (ctl st) as [|[x|]| | | |]; try done.
    + destruct (_ >=? limit); inversion Hstep; subst; simpl;
        unfold worker_of; by rewrite lookup_app_l.
    + by inversion Hstep.
  - destruct (tasks st !! i0) as [[[w|] h]|] eqn:Et; try done.
    inversion Hstep; subst; simpl.
    destruct (decide (i0 = i)) as [->|Hne].
    + unfold worker_of in Hw. by rewrite Et in Hw.
    + by rewrite worker_of_insert_ne.
  - destruct (tasks st !! i0) as [[[w|] [h|]]|] eqn:Et; try done.
    inversion Hstep; subst; simpl.
    destruct (decide (i0 = i)) as [->|Hne].
    + rewrite worker_of_insert_eq by done. unfold worker_of in Hw. by rewrite Et in Hw.
    + by rewrite worker_of_insert_ne.
  - destruct (ctl st) as [|[x|]| snap [[|]|] | snap | |]; try done; try by inversion Hstep.
    destruct (all_result (tasks st) snap) as [[|]|]; by inversion Hstep.
Qed.

Lemma worker_stable_run es (st st' : state Item) i o :
  run limit es st = Some st' ->
  worker_of (tasks st) i = Some o -> worker_of (tasks st') i = Some o.
Proof.
  revert st. induction es as [|e es IH]; intros st Hrun Hh; simpl in Hrun.
  - inversion Hrun; by subst.
  - destruct (step limit e st) as [st1|] eqn:Es; [|done].
    eapply IH; [exact Hrun|]. by eapply worker_stable.
Qed.

(** With a rejected handle registered, the body of [concurrent] can take
    its next step without waiting for any worker, and comes closer to its
    end. *)
Lemma rejected_progress (st : state Item) i :
  Runner.inv limit items st -> ctl_live st -> race_inv limit st ->
  handle_of (tasks st) i = Some Rejected -> ctl st <> Thrown ->
  exists e st', is_settle e = false /\ step limit e st = Some st' /\
                (body_measure st' < body_measure st)%nat.
Proof.
  intros Hinv Hlive Hrace Hh Hc.
  assert (i < length (tasks st))%nat as Hi.
  { destruct (decide (i < length (tasks st))%nat); [done|].
    rewrite handle_of_ge in Hh by lia. done. }
  assert (i ∈ executing st) as Hex.
  { apply (inv_exec _ _ _ Hinv). split; [done|]. by rewrite Hh. }
  pose proof (inv_ctl _ _ _ Hinv) as Hctl. unfold ctl_inv in Hctl.
  unfold ctl_live in Hlive. unfold race_inv in Hrace. unfold body_measure.
  destruct (ctl st) as [|[x|]| snap [[|]|] | snap | |] eqn:Ec; try done.
  - (* Pulling *)
    exists EYield. simpl. rewrite Ec.
    destruct (source st) as [|x rest]; eexists; (split; [done|split; [done|]]); simpl; lia.
  - (* Body (Some x) *)
    exists ERun. simpl. rewrite Ec.
    destruct (_ >=? limit); eexists; (split; [done|split; [done|]]); simpl; lia.
  - exists ERun. simpl. rewrite Ec. eexists. split; [done|split; [done|]]. simpl. lia.
  - exists EResume. simpl. rewrite Ec. eexists. split; [done|split; [done|]]. simpl. lia.
  - exists EResume. simpl. rewrite Ec. eexists. split; [done|split; [done|]]. simpl. lia.
  - (* Racing snap None: no member has settled, yet [i] is a member *)
    destruct Hlive as [_ Hnone]. destruct Hrace as (_ & _ & Hsub).
    destruct (Hnone i (Hsub eq_refl i Hex)) as [_ Hn]. congruence.
  - (* Joining *)
    destruct Hctl as [_ Hout].
    assert (i ∈ snap) as Hin.
    { destruct (decide (i ∈ snap)); [done|]. rewrite (Hout i Hi) in Hh by done. done. }
    exists EResume. simpl. rewrite Ec.
    assert (all_result (tasks st) snap = Some Rejected) as ->.
    { unfold all_result.
      assert (existsb (fun i0 => is_rejected (handle_of (tasks st) i0)) snap = true) as ->;
        [|done].
      apply existsb_exists. exists i. split; [by apply list_elem_of_In|by rewrite Hh]. }
    eexists. split; [done|split; [done|]]. simpl. lia.
  - (* Returned *)
    destruct Hctl as [_ Hout]. rewrite (Hout i Hi) in Hh; [done|by intros ?%elem_of_nil].
Qed.

Lemma rejects_within (n : nat) i : forall st : state Item,
  (body_measure st <= n)%nat ->
  Runner.inv limit items st -> ctl_live st -> race_inv limit st ->
  handle_of (tasks st) i = Some Rejected ->
  exists es st', Forall (fun e => is_settle e = false) es /\
                 run limit es st = Some st' /\ ctl st' = Thrown.
Proof.
  induction n as [|n IH]; intros st Hm Hinv Hlive Hrace Hh;
    (assert (ctl st = Thrown \/ ctl st <> Thrown) as [Hc|Hc];
       [destruct (ctl st); (by left) || (by right)|by exists [], st|]);
    destruct (rejected_progress st i Hinv Hlive Hrace Hh Hc) as (e & st1 & He & Hstep & Hlt);
    [lia|].
  destruct (IH st1) as (es & st' & Hes & Hrun & Hret);
    [lia|by eapply inv_step|by eapply live_step|by eapply race_step|by eapply handle_stable|].
  exists (e :: es), st'. split; [by constructor|]. simpl. by rewrite Hstep.
Qed.

End waiting.


(** *** Further properties of [concurrent] *)

(** X1.  [concurrent] waits for a free slot only when it has none: whenever
    the body is suspended in [await Promise.race(executing)], the array
    raced holds at least [limit] handles, all of them of started
    invocations.  So with a limit above the number of items the body never
    waits for a slot. *)
Theorem race_only_at_limit {Item} (limit : Z) (items : list Item) (st : state Item)
    (snap : list nat) (res : option outcome) :
  reachable limit items st -> ctl st = Racing snap res ->
  limit <= Z.of_nat (length snap) /\
  (length snap <= length (invoked st))%nat /\
  limit <= Z.of_nat (length items).
Proof.
  intros Hreach Hc.
  pose proof (reachable_inv limit items st Hreach) as Hinv.
  pose proof (reachable_race limit items st Hreach) as Hrace.
  unfold race_inv in Hrace. rewrite Hc in Hrace. destruct Hrace as (H1 & H2 & _).
  pose proof (invoked_le_items limit items st Hinv) as H3.
  rewrite (inv_tasks _ _ _ Hinv) in H2. repeat split; [done|done|lia].
Qed.

Lemma race_only_at_limit_witness :
  reachable 2 abc state_racing /\
  2 <= Z.of_nat (length [0; 1]%nat) /\
  (length [0; 1]%nat <= length (invoked state_racing))%nat /\
  2 <= Z.of_nat (length abc).
Proof.
  assert (reachable 2 abc state_racing) as H by (by exists [EYield; ERun; EYield; ERun]).
  split; [exact H|].
  exact (race_only_at_limit 2 abc state_racing [0; 1]%nat None H eq_refl).
Defined.

(** X2.  With a limit of one or less the runner is sequential: when the
    worker is about to be invoked on an item, [executing] is empty and every
    earlier invocation has fulfilled. *)
Theorem limit_one_runs_sequentially {Item} (limit : Z) (items : list Item)
    (st : state Item) (item : Item) :
  limit <= 1 -> reachable limit items st -> ctl st = Body (Some item) ->
  executing st = [] /\ unresolved st = 0%nat /\
  forall i, (i < length (tasks st))%nat -> worker_of (tasks st) i = Some Fulfilled.
Proof.
  intros Hl Hreach Hc.
  pose proof (reachable_inv limit items st Hreach) as Hinv.
  pose proof (inv_ctl _ _ _ Hinv) as Hctl. unfold ctl_inv, room in Hctl. rewrite Hc in Hctl.
  assert (executing st = []) as He.
  { destruct (executing st); [done|]. simpl in Hctl. lia. }
  split; [done|]. split.
  - pose proof (unresolved_le_executing limit items st Hinv) as Hle.
    rewrite He in Hle. simpl in Hle. lia.
  - intros i Hi. apply (inv_handle _ _ _ Hinv).
    destruct (handle_of (tasks st) i) as [[|]|] eqn:Eh; [done| |].
    + assert (i ∈ executing st) as Hin by (apply (inv_exec _ _ _ Hinv); by rewrite Eh).
      rewrite He in Hin. by apply elem_of_nil in Hin.
    + assert (i ∈ executing st) as Hin by (apply (inv_exec _ _ _ Hinv); by rewrite Eh).
      rewrite He in Hin. by apply elem_of_nil in Hin.
Qed.

Lemma limit_one_runs_sequentially_witness :
  reachable 1 abc state_sequential /\
  executing state_sequential = [] /\ unresolved state_sequential = 0%nat /\
  forall i, (i < length (tasks state_sequential))%nat ->
            worker_of (tasks state_sequential) i = Some Fulfilled.
Proof.
  assert (reachable 1 abc state_sequential) as H by (by exists schedule_sequential).
  split; [exact H|].
  refine (limit_one_runs_sequentially 1 abc state_sequential "b"%string _ H eq_refl). lia.
Defined.

(** X3.  On an empty source the worker is never invoked and the returned
    promise cannot be rejected, whatever the limit; three jobs fulfil it. *)
Theorem concurrent_empty_source {Item} (limit : Z) (st : state Item) :
  reachable limit [] st ->
  tasks st = [] /\ invoked st = [] /\ executing st = [] /\ ctl st <> Thrown /\
  run limit schedule_empty (init (@nil Item)) = Some (State [] [] [] [] [] Returned).
Proof.
  intros Hreach.
  pose proof (reachable_inv limit [] st Hreach) as Hinv.
  pose proof (reachable_live limit [] st Hreach) as Hlive.
  pose proof (invoked_le_items limit [] st Hinv) as Hlen. simpl in Hlen.
  assert (invoked st = []) as Hi by (destruct (invoked st); [done|simpl in Hlen; lia]).
  assert (tasks st = []) as Ht.
  { pose proof (inv_tasks _ _ _ Hinv) as H. rewrite Hi in H. by destruct (tasks st). }
  split; [done|]. split; [done|]. split; [|split; [|done]].
  - destruct (executing st) as [|j ex] eqn:Ee; [done|].
    assert (j ∈ executing st) as Hj by (rewrite Ee; by left).
    apply (inv_exec _ _ _ Hinv) in Hj as [Hj _]. rewrite Ht in Hj. simpl in Hj. lia.
  - intros Hc. unfold ctl_live in Hlive. rewrite Hc in Hlive. destruct Hlive as [i Hh].
    rewrite Ht in Hh. unfold handle_of in Hh. by rewrite lookup_nil in Hh.
Qed.

Lemma concurrent_empty_source_witness :
  reachable 200 [] state_empty /\
  tasks state_empty = [] /\ invoked state_empty = [] /\ executing state_empty = [] /\
  ctl state_empty <> Thrown /\
  run 200 schedule_empty (init (@nil string)) = Some (State [] [] [] [] [] Returned).
Proof.
  assert (reachable 200 [] state_empty) as H by (by exists schedule_empty).
  split; [exact H|]. exact (concurrent_empty_source 200 state_empty H).
Defined.

(** X4.  A worker failure is not isolated: from the moment some worker
    promise is rejected, no continuation of the run fulfils the returned
    promise.  And as far as the queue of jobs goes (a host that ends the
    process on an unhandled rejection ends the run before), the run can
    go on, with no further worker promise settling, until the returned
    promise is rejected. *)
Theorem worker_rejection_reaches_caller {Item} (limit : Z) (items : list Item)
    (st : state Item) (i : nat) :
  reachable limit items st -> worker_of (tasks st) i = Some Rejected ->
  (forall es st', run limit es st = Some st' -> ctl st' <> Returned) /\
  (exists es st', Forall (fun e => is_settle e = false) es /\
                  run limit es st = Some st' /\ ctl st' = Thrown).
Proof.
  intros Hreach Hw.
  pose proof (reachable_inv limit items st Hreach) as Hinv.
  assert (i < length (tasks st))%nat as Hi.
  { destruct (decide (i < length (tasks st))%nat); [done|].
    unfold worker_of in Hw. by rewrite lookup_ge_None_2 in Hw by lia. }
  split.
  - intros es st' Hrun Hc.
    pose proof (reachable_inv limit items st' (reachable_run limit items es st st' Hreach Hrun))
      as Hinv'.
    pose proof (worker_stable_run limit es st st' i Rejected Hrun Hw) as Hw'.
    pose proof (inv_ctl _ _ _ Hinv') as Hctl. unfold ctl_inv in Hctl. rewrite Hc in Hctl.
    destruct Hctl as [_ Hout].
    assert (i < length (tasks st'))%nat as Hi'.
    { destruct (decide (i < length (tasks st'))%nat); [done|].
      unfold worker_of in Hw'. by rewrite lookup_ge_None_2 in Hw' by lia. }
    specialize (Hout i Hi' ltac:(by intros ?%elem_of_nil)).
    apply (inv_handle _ _ _ Hinv') in Hout. congruence.
  - (* first let the reaction of the rejected worker run, if it has not *)
    assert (exists es1 st1, Forall (fun e => is_settle e = false) es1 /\
              run limit es1 st = Some st1 /\
              handle_of (tasks st1) i = Some Rejected) as (es1 & st1 & Hes1 & Hrun1 & Hh1).
    { destruct (handle_of (tasks st) i) as [o|] eqn:Eh.
      - exists [], st. split; [by constructor|]. split; [done|].
        pose proof (inv_handle _ _ _ Hinv i o Eh). congruence.
      - unfold handle_of in Eh. unfold worker_of in Hw.
        destruct (tasks st !! i) as [[w h]|] eqn:Et; [|done]. simpl in *. subst.
        eexists [EReact i], _. split; [by repeat constructor|].
        simpl. rewrite Et. split; [done|].
        simpl. by rewrite handle_of_insert_eq. }
    pose proof (reachable_run limit items es1 st st1 Hreach Hrun1) as Hreach1.
    destruct (rejects_within limit items (body_measure st1) i st1)
      as (es2 & st2 & Hes2 & Hrun2 & Hc);
      [lia|by apply reachable_inv|by apply (reachable_live limit items)
      |by apply (reachable_race limit items)|done|].
    exists (es1 ++ es2), st2. split; [by apply Forall_app|]. by rewrite run_app, Hrun1.
Qed.

Lemma worker_rejection_reaches_caller_witness :
  reachable 2 abc (state_reaction_due Rejected) /\
  (forall es st', run 2 es (state_reaction_due Rejected) = Some st' -> ctl st' <> Returned) /\
  (exists es st', Forall (fun e => is_settle e = false) es /\
                  run 2 es (state_reaction_due Rejected) = Some st' /\ ctl st' = Thrown).
Proof.
  assert (reachable 2 abc (state_reaction_due Rejected)) as H
    by (by exists [EYield; ERun; EYield; ERun; ESettle 0 Rejected]).
  split; [exact H|].
  exact (worker_rejection_reaches_caller 2 abc (state_reaction_due Rejected) 0%nat H eq_refl).
Defined.

(** X5.  Once the returned promise has settled the body of [concurrent] is
    over: whatever jobs run afterwards (workers that were started go on
    settling, nothing cancels them), no further item is pulled and no
    worker is started; after a rejection the items left in the source are
    never processed. *)
Theorem settled_run_starts_nothing {Item} (limit : Z) (es : list event)
    (st st' : state Item) :
  settled st = true -> run limit es st = Some st' ->
  ctl st' = ctl st /\ source st' = source st /\ pulled st' = pulled st /\
  invoked st' = invoked st /\ length (tasks st') = length (tasks st).
Proof.
  revert st. induction es as [|e es IH]; intros st Hs Hrun; simpl in Hrun.
  - inversion Hrun; by subst.
  - destruct (step limit e st) as [st1|] eqn:Es; [|done].
    assert (ctl st1 = ctl st /\ source st1 = source st /\ pulled st1 = pulled st /\
            invoked st1 = invoked st /\ length (tasks st1) = length (tasks st))
      as (H1 & H2 & H3 & H4 & H5).
    { unfold settled in Hs.
      destruct e; simpl in Es.
      - destruct (ctl st); done.
      - destruct (ctl st) as [|[x|]| | | |]; done.
      - destruct (tasks st !! i) as [[[w|] h]|]; try done.
        inversion Es; subst; simpl. by rewrite length_insert.
      - destruct (tasks st !! i) as [[[w|] [h|]]|]; try done.
        inversion Es; subst; simpl. rewrite length_insert.
        by destruct (ctl st).
      - destruct (ctl st) as [|[x|]| snap [[|]|] | snap | |]; done. }
    destruct (IH st1) as (H6 & H7 & H8 & H9 & H10);
      [unfold settled in *; by rewrite H1|done|].
    repeat split; congruence.
Qed.

Lemma settled_run_starts_nothing_witness :
  settled state_rejected = true /\
  run 2 schedule_after_rejection state_rejected = Some state_after_rejection /\
  ctl state_after_rejection = ctl state_rejected /\
  source state_after_rejection = source state_rejected /\
  pulled state_after_rejection = pulled state_rejected /\
  invoked state_after_rejection = invoked state_rejected /\
  length (tasks state_after_rejection) = length (tasks state_rejected).
Proof.
  split; [reflexivity|]. split; [reflexivity|].
  exact (settled_run_starts_nothing 2 schedule_after_rejection state_rejected
           state_after_rejection eq_refl eq_refl).
Defined.

(** X6.  The removal expression [executing.splice(executing.indexOf(p), 1)]:
    when [p] is in the array it removes the first occurrence of [p] and
    nothing else; when [p] is not in the array, [indexOf] answers [-1] and
    [splice(-1, 1)] removes the last element, whichever handle that is. *)
Theorem removal_expression (xs : list nat) (p : nat) :
  (p ∈ xs -> exists l1 l2, xs = l1 ++ p :: l2 /\ (p ∉ l1) /\
             splice1 xs (indexOf xs p) = l1 ++ l2) /\
  (p ∉ xs -> indexOf xs p = -1 /\ splice1 xs (indexOf xs p) = removelast xs).
Proof.
  split.
  - intros Hin. destruct (indexOf_first xs p Hin) as (l1 & l2 & -> & Hn & Hi).
    exists l1, l2. split; [done|]. split; [done|].
    rewrite Hi. rewrite splice1_delete by (rewrite length_app; simpl; lia).
    clear. induction l1 as [|a l1 IH]; [done|]. simpl. by rewrite IH.
  - intros Hn. rewrite (indexOf_absent xs p Hn). split; [done|].
    unfold splice1. simpl. rewrite removelast_firstn_len.
    destruct xs as [|x xs]; [done|].
    replace (Z.to_nat (Z.max (Z.of_nat (length (x :: xs)) + -1) 0))
      with (pred (length (x :: xs))) by (simpl length; lia).
    replace (S (pred (length (x :: xs)))) with (length (x :: xs)) by (simpl; lia).
    by rewrite drop_all, app_nil_r.
Qed.


(** *** The limit is attained *)

Lemma filter_pending_replicate n :
  length (List.filter pending (replicate n (Task None None))) = n.
Proof. induction n as [|n IH]; simpl; [done|]. by rewrite IH. Qed.

Lemma first_settled_fresh n (snap : list nat) :
  first_settled (replicate n (Task None None)) snap = None.
Proof.
  induction snap as [|i snap IH]; simpl; [done|].
  unfold handle_of. destruct (replicate n (Task None None) !! i) as [t|] eqn:E; [|done].
  apply lookup_replicate in E as [-> _]. done.
Qed.

Section attained.
Context {Item : Type}.
Variable limit : Z.
Variable items : list Item.

(** One round of the loop from a state that is awaiting the next item. *)
Lemma run_round (x : Item) (rest pu inv : list Item) (ts : list task) (ex : list nat) :
  run limit [EYield; ERun] (State (x :: rest) pu inv ts ex Pulling) =
  Some (State rest (pu ++ [x]) (inv ++ [x]) (ts ++ [Task None None]) (ex ++ [length ts])
          (if Z.of_nat (length (ex ++ [length ts])) >=? limit
           then Racing (ex ++ [length ts])
                  (first_settled (ts ++ [Task None None]) (ex ++ [length ts]))
           else Pulling)).
Proof.
  simpl. by destruct (Z.of_nat (length (ex ++ [length ts])) >=? limit).
Qed.

Lemma started_next (n : nat) (x : Item) :
  items !! n = Some x ->
  run limit [EYield; ERun] (state_started items n Pulling) =
  Some (state_started items (S n)
          (if Z.of_nat (S n) >=? limit then Racing (seq 0 (S n)) None else Pulling)).
Proof.
  intros Hx. unfold state_started. rewrite (drop_S items x n Hx), run_round.
  rewrite length_replicate, length_app, length_seq. cbn [length].
  rewrite <- seq_S, (take_S_r items n x Hx).
  replace (replicate n (Task None None) ++ [Task None None])
    with (replicate (S n) (Task None None)).
  2: { replace (S n) with (n + 1)%nat by lia. by rewrite replicate_add. }
  rewrite first_settled_fresh. by replace (n + 1)%nat with (S n) by lia.
Qed.

Lemma run_started (n : nat) :
  (n <= length items)%nat -> Z.of_nat n < limit ->
  run limit (schedule_start n) (init items) = Some (state_started items n Pulling).
Proof.
  induction n as [|n IH]; intros Hn Hl.
  - simpl. unfold state_started, init. by rewrite drop_0, take_0.
  - cbn [schedule_start]. rewrite run_app, IH by lia.
    destruct (lookup_lt_is_Some_2 items n ltac:(lia)) as [x Hx].
    rewrite (started_next n x Hx).
    destruct (Z.of_nat (S n) >=? limit) eqn:E; [|done].
    rewrite Z.geb_leb in E. apply Z.leb_le in E. lia.
Qed.

End attained.


(** X21.  The limit is attained: with a limit of at least one and at least
    that many items, a run can reach a state in which exactly [limit]
    invocations are unresolved, the body then waiting in the race; the
    runner does run that many workers at once. *)
Theorem limit_is_attained {Item} (limit : Z) (items : list Item) :
  1 <= limit -> limit <= Z.of_nat (length items) ->
  exists st snap, reachable limit items st /\
    Z.of_nat (unresolved st) = limit /\ ctl st = Racing snap None /\
    Z.of_nat (length (invoked st)) = limit.
Proof.
  intros H1 H2.
  set (n := Z.to_nat (limit - 1)).
  assert (n < length items)%nat as Hn by lia.
  destruct (lookup_lt_is_Some_2 items n Hn) as [x Hx].
  pose proof (run_started limit items n ltac:(lia) ltac:(lia)) as Hrun.
  pose proof (started_next limit items n x Hx) as Hnext.
  assert ((Z.of_nat (S n) >=? limit) = true) as E.
  { rewrite Z.geb_leb. apply Z.leb_le. lia. }
  rewrite E in Hnext.
  exists (state_started items (S n) (Racing (seq 0 (S n)) None)), (seq 0 (S n)).
  split; [|split; [|split; [done|]]].
  - exists (schedule_start n ++ [EYield; ERun]). by rewrite run_app, Hrun.
  - unfold unresolved. cbn [state_started tasks]. rewrite filter_pending_replicate. lia.
  - cbn [state_started invoked]. rewrite length_take. lia.
Qed.

Lemma limit_is_attained_witness :
  (1 <= 2 /\ 2 <= Z.of_nat (length abc)) /\
  exists st snap, reachable 2 abc st /\
    Z.of_nat (unresolved st) = 2 /\ ctl st = Racing snap None /\
    Z.of_nat (length (invoked st)) = 2.
Proof.
  assert (1 <= 2) as H1 by lia.
  assert (2 <= Z.of_nat (length abc)) as H2 by (simpl; lia).
  split; [by split|]. exact (limit_is_attained 2 abc H1 H2).
Defined.

End RunnerFacts.


(** ** Facts about the effect monad *)
Module EffFacts.
Import Eff.

(** An invariant of the loop body is an invariant of the loop, whatever its
    outcome. *)
Lemma for_each_invariant {S A} (I : S -> Prop) (xs : list A) (body : A -> M S unit) :
  (forall x h, x ∈ xs -> I h -> I (snd (body x h))) ->
  forall h, I h -> I (snd (for_each xs body h)).
Proof.
  induction xs as [|x xs IH]; intros Hbody h Hh; simpl; [done|].
  unfold bind. pose proof (Hbody x h ltac:(by left) Hh) as H1.
  destruct (body x h) as [[[]|e|] h1]; simpl in *; try done.
  apply IH; [|done]. intros y h' Hy. apply Hbody. by right.
Qed.

End EffFacts.
(** ** Facts about strings *)
Module TextFacts.
Import Text.

Lemma append_empty_r (s : string) : (s ++ EmptyString)%string = s.
Proof.
  induction s as [|c s IH]; [done|].
  change (String c (s ++ EmptyString) = String c s). by rewrite IH.
Qed.

Lemma append_assoc_3 (a b c : string) : ((a ++ b) ++ c)%string = (a ++ (b ++ c))%string.
Proof.
  induction a as [|x a IH]; [done|].
  change (String x ((a ++ b) ++ c) = String x (a ++ (b ++ c))). by rewrite IH.
Qed.

Lemma translate_app from to (a b : string) :
  translate from to (a ++ b) = (translate from to a ++ translate from to b)%string.
Proof.
  induction a as [|x a IH]; [done|].
  change (translate from to (String x (a ++ b)) =
          String (if Ascii.eqb x from then to else x)
            (translate from to a ++ translate from to b)).
  simpl. by rewrite IH.
Qed.

Lemma translate_length from to s : String.length (translate from to s) = String.length s.
Proof. induction s as [|x s IH]; simpl; [done|]. by rewrite IH. Qed.

Lemma translate_idem from to s :
  translate from to (translate from to s) = translate from to s.
Proof.
  induction s as [|x s IH]; simpl; [done|]. rewrite IH. f_equal.
  destruct (Ascii.eqb x from) eqn:E; [|by rewrite E].
  destruct (Ascii.eqb to from) eqn:E'; [|done]. by apply Ascii.eqb_eq in E'.
Qed.

Lemma translate_removes from to s :
  from <> to -> mentions from (translate from to s) = false.
Proof.
  intros Hne. induction s as [|x s IH]; simpl; [done|]. rewrite IH, orb_false_r.
  destruct (Ascii.eqb x from) eqn:E; [|done].
  apply Ascii.eqb_neq. congruence.
Qed.

Lemma translate_id from to s : mentions from s = false -> translate from to s = s.
Proof.
  induction s as [|x s IH]; simpl; [done|]. intros [H1 H2]%orb_false_elim.
  by rewrite H1, IH.
Qed.

Lemma translate_same c s : translate c c s = s.
Proof.
  induction s as [|x s IH]; simpl; [done|]. rewrite IH.
  destruct (Ascii.eqb x c) eqn:E; [|done]. apply Ascii.eqb_eq in E. by subst.
Qed.

End TextFacts.


(** ** Facts about number conversions *)
Module JsNumberFacts.
Import JsNumber.

(** *** [parseInt] reads back what [toString] prints *)

Lemma digits_of_uint_acc (d : Decimal.uint) : forall (z : Z) (acc : positive),
  z = Z.pos acc ->
  digits 10 digit_of z (NilEmpty.string_of_uint d) = Z.pos (Pos.of_uint_acc d acc).
Proof.
  induction d; intros z acc ->; simpl; try done; apply IHd;
    match goal with
    | |- context [Z.of_nat (nat_of_ascii ?c)] =>
        let k := eval vm_compute in (Z.of_nat (nat_of_ascii c)) in
        change (Z.of_nat (nat_of_ascii c)) with k
    end; lia.
Qed.

Lemma digits_of_uint (d : Decimal.uint) :
  digits 10 digit_of 0 (NilEmpty.string_of_uint d) = Z.of_N (Pos.of_uint d).
Proof.
  induction d; simpl; try done; by apply digits_of_uint_acc.
Qed.

Lemma parse_unsigned_of_uint (d : Decimal.uint) :
  d <> Decimal.Nil ->
  parse_unsigned (NilEmpty.string_of_uint d) = Some (Z.of_uint d).
Proof.
  intros Hd. unfold Z.of_uint. rewrite <- digits_of_uint.
  destruct d as [|d|d|d|d|d|d|d|d|d|d]; try done.
  by destruct d.
Qed.

Lemma string_of_uint_nonnil (d : Decimal.uint) :
  d <> Decimal.Nil -> NilZero.string_of_uint d = NilEmpty.string_of_uint d.
Proof. by destruct d. Qed.

Lemma skip_spaces_of_uint (d : Decimal.uint) :
  skip_spaces (NilEmpty.string_of_uint d) = NilEmpty.string_of_uint d.
Proof. by destruct d. Qed.

Lemma parseInt_of_uint (d : Decimal.uint) :
  d <> Decimal.Nil ->
  parseInt (NilEmpty.string_of_uint d) = Some (Z.of_uint d).
Proof.
  intros Hd. unfold parseInt. rewrite skip_spaces_of_uint.
  rewrite <- (parse_unsigned_of_uint d Hd).
  by destruct d.
Qed.

Lemma parseInt_minus (s : string) :
  parseInt (String "-" s) = option_map Z.opp (parse_unsigned s).
Proof. reflexivity. Qed.

(** [parseInt(n.toString()) === n] for every integer [n]. *)
Lemma parseInt_dec (n : Z) : parseInt (dec n) = Some n.
Proof.
  unfold dec. rewrite <- (DecimalZ.of_to n) at 2.
  destruct n as [|p|p]; simpl Z.to_int.
  - reflexivity.
  - pose proof (Unsigned.to_uint_nonnil p) as Hp.
    simpl. rewrite string_of_uint_nonnil by done. by apply parseInt_of_uint.
  - pose proof (Unsigned.to_uint_nonnil p) as Hp.
    simpl NilZero.string_of_int. rewrite string_of_uint_nonnil by done.
    rewrite parseInt_minus, (parse_unsigned_of_uint _ Hp). reflexivity.
Qed.

Lemma parseInt_empty : parseInt "" = None.
Proof. reflexivity. Qed.

End JsNumberFacts.

(** ** Facts about [merge] and [isPlainObject] *)
Module MergeFacts.
Import JsNumber Merge EffFacts.

(** *** Frame: [merge] writes only to objects it has allocated itself *)

Lemma extends_refl h : extends h h.
Proof. exists []. by rewrite app_nil_r. Qed.

Lemma extends_trans h1 h2 h3 : extends h1 h2 -> extends h2 h3 -> extends h1 h3.
Proof. intros [e1 ->] [e2 ->]. exists (e1 ++ e2). by rewrite app_assoc. Qed.

Lemma extends_lookup h h' l o : extends h h' -> h !! l = Some o -> h' !! l = Some o.
Proof. intros [ext ->] H. by apply lookup_app_l_Some. Qed.

Lemma extends_length h h' : extends h h' -> (length h <= length h')%nat.
Proof. intros [ext ->]. rewrite length_app. lia. Qed.

Lemma set_prop_extends h0 l key v h :
  (length h0 <= l)%nat -> extends h0 h -> extends h0 (snd (set_prop l key v h)).
Proof.
  intros Hl [ext ->]. unfold set_prop.
  destruct ((h0 ++ ext) !! l) as [[p props|]|]; cbn [snd]; try by eexists.
  rewrite insert_app_r_alt by done. by eexists.
Qed.

Lemma merge_entry_extends self fuel h0 merged kv h :
  (forall c v h1, extends h0 h1 -> extends h0 (snd (self c v h1))) ->
  (length h0 <= merged)%nat -> extends h0 h ->
  extends h0 (snd (merge_entry self fuel merged kv h)).
Proof.
  intros Hself Hm Hh. destruct kv as [key value]. unfold merge_entry, bind, read. simpl.
  destruct (isPlainObject fuel h (get_prop h merged key)) as [[|]|e|]; simpl; try done.
  - destruct (isPlainObject fuel h value) as [[|]|e|]; simpl; try done.
    + pose proof (Hself (get_prop h merged key) value h Hh) as H1.
      destruct (self (get_prop h merged key) value h) as [[r|e|] h1]; simpl in *; try done.
      by apply set_prop_extends.
    + by apply set_prop_extends.
  - by apply set_prop_extends.
Qed.

Lemma merge_extends fuel : forall defaults user h0 h,
  extends h0 h -> extends h0 (snd (merge fuel defaults user h)).
Proof.
  induction fuel as [|fuel IH]; intros d u h0 h Hh; simpl; [done|].
  unfold bind, read, alloc, ret. simpl.
  assert (extends h0 (h ++ [Obj PObject (own_props h d)])) as H1.
  { eapply extends_trans; [exact Hh|]. by eexists. }
  destruct (truthy u); simpl; [|done].
  pose proof (for_each_invariant (extends h)
    (map_to_list (own_props (h ++ [Obj PObject (own_props h d)]) u))
    (merge_entry (merge fuel) (S fuel) (length h))) as Hloop.
  assert (extends h (snd (for_each
      (map_to_list (own_props (h ++ [Obj PObject (own_props h d)]) u))
      (merge_entry (merge fuel) (S fuel) (length h))
      (h ++ [Obj PObject (own_props h d)])))) as H2.
  { apply Hloop; [|by eexists].
    intros kv h2 _ Hh2. apply merge_entry_extends; [|done|done].
    intros c v h3 Hh3. by apply IH. }
  destruct (for_each _ _ _) as [[[]|e|] h2]; simpl in *;
    exact (extends_trans h0 h h2 Hh H2).
Qed.

Lemma heap_get_extends h h' l :
  extends h h' -> (l < length h)%nat -> heap_get h' l = heap_get h l.
Proof.
  intros [ext ->] Hl. unfold heap_get. by rewrite lookup_app_l.
Qed.

Lemma closed_children h l :
  closed h -> (l < length h)%nat -> Forall (in_heap h) (children (heap_get h l)).
Proof.
  intros Hc Hl. unfold heap_get.
  destruct (h !! l) as [o|] eqn:E; [by eapply Hc|].
  apply lookup_ge_None in E. lia.
Qed.

(** Objects that existed before a heap extension look the same after it, at
    every depth. *)
Lemma snapshot_extends h h' :
  closed h -> extends h h' ->
  forall depth v, in_heap h v -> snapshot depth h' v = snapshot depth h v.
Proof.
  intros Hc He. induction depth as [|d IH]; intros v Hv; destruct v; simpl; try done.
  simpl in Hv. rewrite (heap_get_extends h h' l He Hv).
  pose proof (closed_children h l Hc Hv) as Hch.
  destruct (heap_get h l) as [p props|elems]; simpl in Hch; f_equal.
  - apply List.map_ext_in. intros [k v] Hin. simpl. f_equal. apply IH.
    rewrite Forall_forall in Hch. apply Hch, list_elem_of_In.
    apply (in_map snd) in Hin. done.
  - apply List.map_ext_in. intros v Hin. apply IH.
    rewrite Forall_forall in Hch. by apply Hch, list_elem_of_In.
Qed.

(** C7.  [merge] never mutates its arguments: whatever the outcome of
    [merge(A, B)], every object that existed before the call is left as it
    was (the heap only grows), so [A], [B] and everything nested in them
    are deep-equal to their snapshots taken before the call. *)
Theorem merge_preserves_arguments (fuel : nat) (A B : value) (h : heap) :
  let h' := snd (merge fuel A B h) in
  (exists ext, h' = h ++ ext) /\
  (closed h -> forall v, in_heap h v ->
     forall depth, snapshot depth h' v = snapshot depth h v).
Proof.
  simpl. assert (extends h (snd (merge fuel A B h))) as He.
  { apply merge_extends, extends_refl. }
  split; [exact He|].
  intros Hc v Hv depth. by apply snapshot_extends.
Qed.

(** *** Totality on tame inputs *)

Lemma tame_extends h h' : extends h h' ->
  forall n v, tame n h v = true -> tame n h' v = true.
Proof.
  intros He. induction n as [|n IH]; intros v Hv; destruct v; simpl in *; try done.
  destruct (h !! l) as [o|] eqn:E; [|done].
  rewrite (extends_lookup h h' l o He E).
  destruct o as [[| |ts] props|elems]; try done.
  - destruct (props !! "toString"%string); [done|].
    rewrite forallb_forall in *. intros c Hc. by apply IH, Hv.
  - destruct (props !! "toString"%string); [done|].
    rewrite forallb_forall in *. intros c Hc. by apply IH, Hv.
  - rewrite forallb_forall in *. intros c Hc. specialize (Hv c Hc).
    destruct c; try done; by apply IH.
Qed.

Lemma sequence_ok {A B} (f : A -> result B) (xs : list A) :
  (forall x, In x xs -> exists b, f x = Ok b) ->
  exists bs, sequence (List.map f xs) = Ok bs.
Proof.
  induction xs as [|x xs IH]; intros H; simpl; [by eexists|].
  destruct (H x) as [b ->]; [by left|].
  destruct IH as [bs ->]; [intros y Hy; apply H; by right|].
  by eexists.
Qed.

Lemma obj_toString_total : forall n fuel h l,
  tame n h (VRef l) = true -> (n <= fuel)%nat ->
  exists s, obj_toString fuel h l = Ok s.
Proof.
  induction n as [|n IH]; intros fuel h l Ht Hf; simpl in Ht; [done|].
  destruct fuel as [|fuel]; [lia|]. simpl. unfold heap_get.
  destruct (h !! l) as [[p props|elems]|]; [| |done].
  { destruct (props !! "toString"%string); [by destruct p|].
    destruct p; try done; by eexists. }
  rewrite forallb_forall in Ht.
  edestruct (sequence_ok (fun v =>
      match v with
      | VUndefined | VNull => Ok ""%string
      | VBool true => Ok "true"%string
      | VBool false => Ok "false"%string
      | VNum n => Ok (dec n)
      | VStr s => Ok s
      | VSym _ => Throw TypeError
      | VRef l' => obj_toString fuel h l'
      end) elems) as [parts Hparts].
  - intros e He. specialize (Ht e He).
    destruct e as [| |[|]| | | |l']; try done; try by eexists.
    apply IH; [done|lia].
  - rewrite Hparts. by eexists.
Qed.

Lemma isPlainObject_total n fuel h v :
  tame n h v = true -> (n <= fuel)%nat -> exists b, isPlainObject fuel h v = Ok b.
Proof.
  intros Ht Hf. destruct v; simpl; try by eexists.
  destruct (obj_toString_total n fuel h l Ht Hf) as [s ->].
  destruct (String.eqb s _); by eexists.
Qed.

Lemma isPlainObject_true_ref fuel h v :
  isPlainObject fuel h v = Ok true -> exists l, v = VRef l.
Proof. destruct v; simpl; try done. by eexists. Qed.

Lemma own_props_extends h h' v n :
  extends h h' -> tame n h v = true -> own_props h' v = own_props h v.
Proof.
  intros He Ht. destruct v; try done. simpl. unfold heap_get.
  destruct n; simpl in Ht; [done|].
  destruct (h !! l) as [o|] eqn:E; [|done].
  by rewrite (extends_lookup h h' l o He E).
Qed.

(** The own properties of a tame value are tame one level down. *)
Lemma tame_own_props n h v k c :
  tame n h v = true -> own_props h v !! k = Some c -> tame (pred n) h c = true.
Proof.
  intros Ht Hk. destruct v; simpl in Hk; try done.
  - (* a string: its characters *)
    apply elem_of_list_to_map_2 in Hk.
    apply elem_of_lookup_imap_1 in Hk as (i & x & [= _ ->] & Hx).
    unfold char_values in Hx. apply list_elem_of_lookup_2 in Hx.
    apply list_elem_of_In, in_map_iff in Hx as (a & <- & _). by destruct (pred n).
  - destruct n as [|n]; simpl in Ht; [done|]. simpl. unfold heap_get in Hk.
    destruct (h !! l) as [[p props|elems]|]; [| |done].
    + assert (forallb (tame n h) (List.map snd (map_to_list props)) = true) as Hall.
      { destruct (props !! "toString"%string); by destruct p. }
      rewrite forallb_forall in Hall. apply Hall.
      apply elem_of_map_to_list in Hk. apply list_elem_of_In in Hk.
      by apply (in_map snd) in Hk.
    + apply elem_of_list_to_map_2 in Hk.
      apply elem_of_lookup_imap_1 in Hk as (i & x & [= _ ->] & Hx).
      apply list_elem_of_lookup_2, list_elem_of_In in Hx.
      rewrite forallb_forall in Ht. specialize (Ht x Hx). by destruct x.
Qed.

Lemma get_prop_merged h props ext k :
  get_prop (h ++ Obj PObject props :: ext) (length h) k =
  match props !! k with Some v => v | None => VUndefined end.
Proof.
  unfold get_prop, own_props, heap_get. by rewrite list_lookup_middle.
Qed.

Lemma set_prop_merged h props ext k v :
  set_prop (length h) k v (h ++ Obj PObject props :: ext) =
  (Ok tt, h ++ Obj PObject (<[k := v]> props) :: ext).
Proof.
  unfold set_prop. rewrite list_lookup_middle by done.
  rewrite insert_app_r_alt by lia. by rewrite Nat.sub_diag.
Qed.

(** The loop of [merge] runs to its end when the entries still to be
    processed, and the values they meet in [merged], are tame. *)
Lemma merge_loop_total f n h :
  (forall c v hc, tame n hc c = true -> tame n hc v = true -> (1 <= n)%nat ->
     exists l ext, merge f c v hc = (Ok (VRef l), hc ++ ext)) ->
  (n <= S f)%nat ->
  forall es props ext,
    NoDup (List.map fst es) ->
    (forall k v, In (k, v) es ->
       tame n h v = true /\
       tame n h (match props !! k with Some c => c | None => VUndefined end) = true) ->
    exists props' ext',
      for_each es (merge_entry (merge f) (S f) (length h))
        (h ++ Obj PObject props :: ext) =
      (Ok tt, h ++ Obj PObject props' :: ext').
Proof.
  intros Hrec Hn. induction es as [|[k v] es IH]; intros props ext Hnd Hes.
  - simpl. by eexists _, _.
  - apply NoDup_cons in Hnd as [Hk Hnd]. simpl in Hk.
    destruct (Hes k v ltac:(by left)) as [Hv Hc].
    set (hc := h ++ Obj PObject props :: ext).
    assert (extends h hc) as Hext by (by eexists).
    assert (exists props1 ext1,
              merge_entry (merge f) (S f) (length h) (k, v) hc =
              (Ok tt, h ++ Obj PObject props1 :: ext1) /\
              forall k', k' <> k -> props1 !! k' = props !! k') as (props1 & ext1 & Hstep & Hsame).
    { set (cur := match props !! k with Some c => c | None => VUndefined end) in *.
      assert (get_prop hc (length h) k = cur) as Hget by apply get_prop_merged.
      unfold merge_entry, bind, read. cbn -[merge set_prop isPlainObject get_prop].
      rewrite !Hget.
      destruct (isPlainObject_total n (S f) hc cur) as [b1 Hb1];
        [by apply (tame_extends h)|done|].
      rewrite Hb1. cbn -[merge set_prop isPlainObject get_prop].
      destruct (isPlainObject_total n (S f) hc v) as [b2 Hb2];
        [by apply (tame_extends h)|done|].
      destruct b1; cbn -[merge set_prop isPlainObject get_prop].
      - rewrite Hb2. cbn -[merge set_prop isPlainObject get_prop].
        destruct b2; cbn -[merge set_prop isPlainObject get_prop].
        + destruct (Hrec cur v hc) as (l & ext2 & Hm);
            [by apply (tame_extends h)|by apply (tame_extends h)| |].
          { apply isPlainObject_true_ref in Hb2 as [l ->].
            destruct n; [done|lia]. }
          rewrite Hm. unfold hc. rewrite <- app_assoc. simpl.
          rewrite set_prop_merged. eexists _, _. split; [done|].
          intros k' Hne. by rewrite lookup_insert_ne.
        + unfold hc. rewrite set_prop_merged. eexists _, _. split; [done|].
          intros k' Hne. by rewrite lookup_insert_ne.
      - unfold hc. rewrite set_prop_merged. eexists _, _. split; [done|].
        intros k' Hne. by rewrite lookup_insert_ne. }
    destruct (IH props1 ext1 Hnd) as (props' & ext' & Hrest).
    { intros k' v' Hin. destruct (Hes k' v' ltac:(by right)) as [H1 H2].
      split; [done|]. rewrite Hsame; [done|].
      intros ->. apply Hk. apply list_elem_of_In. by apply (in_map fst) in Hin. }
    exists props', ext'. cbn -[merge_entry]. unfold bind. fold hc. by rewrite Hstep.
Qed.

(** [merge] returns a fresh object on tame inputs, given enough budget. *)
Lemma merge_total : forall fuel n defaults user h,
  (n < fuel)%nat -> tame n h defaults = true -> tame n h user = true ->
  exists l ext, merge fuel defaults user h = (Ok (VRef l), h ++ ext).
Proof.
  induction fuel as [|f IH]; intros n d u h Hn Hd Hu; [lia|].
  simpl. unfold bind, read, alloc, ret. simpl.
  destruct (truthy u); simpl.
  2: { by eexists _, _. }
  assert (extends h (h ++ [Obj PObject (own_props h d)])) as Hext.
  { eexists. reflexivity. }
  rewrite (own_props_extends _ _ u n Hext Hu).
  destruct (merge_loop_total f (pred n) h) with
    (es := map_to_list (own_props h u)) (props := own_props h d) (ext := @nil obj)
    as (props' & ext' & Hloop).
  - intros c v hc Hc Hv Hpos. apply (IH (pred n)); [lia|done|done].
  - lia.
  - apply NoDup_fst_map_to_list.
  - intros k v Hin. apply list_elem_of_In, elem_of_map_to_list in Hin. split.
    + exact (tame_own_props n h u k v Hu Hin).
    + destruct (own_props h d !! k) as [c|] eqn:E;
        [exact (tame_own_props n h d k c Hd E)|].
      by destruct (pred n).
  - rewrite Hloop. simpl. by eexists _, _.
Qed.

(** *** The result of [merge] *)

(** Without a [user] value the result is a shallow copy of [defaults]: a
    fresh record with the same own properties, holding the same values and
    references. *)
Lemma merge_shallow_copy fuel defaults user h :
  truthy user = false ->
  merge (S fuel) defaults user h =
  (Ok (VRef (length h)), h ++ [Obj PObject (own_props h defaults)]).
Proof. intros Hu. simpl. unfold bind, read, alloc, ret. simpl. by rewrite Hu. Qed.

(** A returned result is the record allocated at the start of the call. *)
Lemma merge_returns_fresh fuel defaults user h r h' :
  merge fuel defaults user h = (Ok r, h') -> r = VRef (length h).
Proof.
  destruct fuel as [|f]; [done|]. simpl. unfold bind, read, alloc, ret. simpl.
  destruct (truthy user); simpl; [|by intros [= <- _]].
  destruct (for_each _ _ _) as [[[]|e|] h2]; [|done..]. by intros [= <- _].
Qed.

(** One round of the loop sets the key of its entry in [merged], to the
    user's value or to a record allocated by the recursive call, and leaves
    the other keys alone. *)
Lemma merge_entry_sets_key f h props ext k v hfin :
  merge_entry (merge f) (S f) (length h) (k, v) (h ++ Obj PObject props :: ext) =
    (Ok tt, hfin) ->
  exists x ext',
    hfin = h ++ Obj PObject (<[k := x]> props) :: ext' /\
    (x = v \/ exists l, x = VRef l /\ (length h < l)%nat).
Proof.
  set (hc := h ++ Obj PObject props :: ext).
  unfold merge_entry, bind, read. cbn -[merge set_prop isPlainObject get_prop].
  destruct (isPlainObject (S f) hc (get_prop hc (length h) k)) as [b1|e|];
    cbn -[merge set_prop isPlainObject get_prop]; [|done..].
  assert (forall x hfin', set_prop (length h) k x hc = (Ok tt, hfin') ->
            hfin' = h ++ Obj PObject (<[k := x]> props) :: ext) as Hset.
  { intros x hfin'. unfold hc. rewrite set_prop_merged. by intros [= <-]. }
  destruct b1; cbn -[merge set_prop isPlainObject get_prop].
  - destruct (isPlainObject (S f) hc v) as [b2|e|];
      cbn -[merge set_prop isPlainObject get_prop]; [|done..].
    destruct b2; cbn -[merge set_prop isPlainObject get_prop].
    + destruct (merge f (get_prop hc (length h) k) v hc) as [[r|e|] h2] eqn:Em; [|done..].
      pose proof (merge_returns_fresh _ _ _ _ _ _ Em) as ->.
      pose proof (merge_extends f (get_prop hc (length h) k) v hc hc (extends_refl hc)) as He.
      rewrite Em in He. simpl in He. destruct He as [ext2 ->]. unfold hc.
      rewrite <- app_assoc. simpl. rewrite set_prop_merged. intros [= <-].
      eexists _, _. split; [done|]. right. eexists. split; [done|].
      rewrite length_app. simpl. lia.
    + intros H. apply Hset in H. eexists _, _. split; [exact H|by left].
  - intros H. apply Hset in H. eexists _, _. split; [exact H|by left].
Qed.

Lemma merge_loop_keys f h : forall es props ext hfin,
  for_each es (merge_entry (merge f) (S f) (length h)) (h ++ Obj PObject props :: ext) =
    (Ok tt, hfin) ->
  exists props' ext',
    hfin = h ++ Obj PObject props' :: ext' /\
    (forall k, is_Some (props' !! k) <-> is_Some (props !! k) \/ k ∈ es.*1) /\
    (forall k, k ∉ es.*1 -> props' !! k = props !! k).
Proof.
  induction es as [|[k v] es IH]; intros props ext hfin Hrun.
  - simpl in Hrun. inversion Hrun; subst. exists props, ext. split; [done|].
    split; [|done]. intros k. rewrite elem_of_nil. tauto.
  - cbn [for_each] in Hrun. unfold bind in Hrun.
    destruct (merge_entry (merge f) (S f) (length h) (k, v) _) as [[[]|e|] h1] eqn:E1;
      [|done..].
    apply merge_entry_sets_key in E1 as (x & ext1 & -> & _).
    apply IH in Hrun as (props' & ext' & -> & Hdom & Hout).
    exists props', ext'. split; [done|]. split.
    + intros k'. rewrite Hdom, fmap_cons, elem_of_cons. simpl.
      destruct (decide (k = k')) as [<-|Hne].
      * rewrite lookup_insert_eq. split; [by right; left|by left].
      * rewrite lookup_insert_ne by done.
        split; [intros [H|H]; [by left|by right; right]|].
        intros [H|[->|H]]; [by left|done|by right].
    + intros k' Hk'. rewrite fmap_cons, not_elem_of_cons in Hk'. destruct Hk' as [Hne Hk'].
      rewrite Hout by done. by rewrite lookup_insert_ne.
Qed.

(** The keys of a returned result are the keys of [defaults] together with
    the keys of [user], and a key that [user] does not have keeps the value
    it has in [defaults]. *)
Lemma merge_keys fuel defaults user h r h' :
  merge fuel defaults user h = (Ok r, h') ->
  exists props,
    r = VRef (length h) /\ h' !! length h = Some (Obj PObject props) /\
    let theirs := if truthy user
                  then own_props (h ++ [Obj PObject (own_props h defaults)]) user
                  else ∅ in
    (forall k, is_Some (props !! k) <->
               is_Some (own_props h defaults !! k) \/ is_Some (theirs !! k)) /\
    (forall k, theirs !! k = None -> props !! k = own_props h defaults !! k).
Proof.
  destruct fuel as [|f]; [done|]. simpl. unfold bind, read, alloc, ret. simpl.
  destruct (truthy user); simpl.
  - destruct (for_each _ _ _) as [[[]|e|] h2] eqn:Eloop; [|done..].
    intros [= <- <-].
    apply (merge_loop_keys f h _ _ []) in Eloop as (props & ext & -> & Hdom & Hout).
    exists props. split; [done|]. split; [by rewrite list_lookup_middle|]. split.
    + intros k. rewrite Hdom.
      assert (k ∈ (map_to_list (own_props (h ++ [Obj PObject (own_props h defaults)]) user)).*1
              <-> is_Some (own_props (h ++ [Obj PObject (own_props h defaults)]) user !! k))
        as ->; [|done].
      rewrite list_elem_of_fmap. split.
      * intros ([k' v] & -> & Hin). apply elem_of_map_to_list in Hin. by eexists.
      * intros [v Hv]. exists (k, v). split; [done|]. by apply elem_of_map_to_list.
    + intros k Hk. apply Hout. rewrite list_elem_of_fmap.
      intros ([k' v] & -> & Hin). apply elem_of_map_to_list in Hin. simpl in Hk. congruence.
  - intros [= <- <-]. exists (own_props h defaults).
    split; [done|]. split; [by rewrite list_lookup_middle|]. split; [|done].
    intros k. rewrite lookup_empty. split; [by left|]. intros [H|[? H]]; done.
Qed.

(** *** Claims about [merge] and [isPlainObject] *)

(** C5 (as amended).  On tame inputs (finite trees in which every object
    has a [toString] that returns a string) [merge] returns a fresh object
    and does not throw, and [isPlainObject] yields an answer. *)
Theorem merge_total_on_tame_inputs (n fuel : nat) (defaults user : value) (h : heap) :
  tame n h defaults = true -> tame n h user = true -> (n < fuel)%nat ->
  (exists l ext, merge fuel defaults user h = (Ok (VRef l), h ++ ext)) /\
  (exists b, isPlainObject fuel h defaults = Ok b) /\
  (exists b, isPlainObject fuel h user = Ok b).
Proof.
  intros Hd Hu Hn. split; [by eapply merge_total|].
  split; eapply isPlainObject_total; try eassumption; lia.
Qed.

Lemma merge_total_on_tame_inputs_witness :
  (tame 2 heap_nested (VRef 1%nat) = true /\ tame 2 heap_nested (VRef 3%nat) = true /\
   (2 < 3)%nat) /\
  ((exists l ext, merge 3 (VRef 1%nat) (VRef 3%nat) heap_nested =
                  (Ok (VRef l), heap_nested ++ ext)) /\
   (exists b, isPlainObject 3 heap_nested (VRef 1%nat) = Ok b) /\
   (exists b, isPlainObject 3 heap_nested (VRef 3%nat) = Ok b)).
Proof.
  assert (tame 2 heap_nested (VRef 1%nat) = true) as H1 by (vm_compute; reflexivity).
  assert (tame 2 heap_nested (VRef 3%nat) = true) as H2 by (vm_compute; reflexivity).
  assert (2 < 3)%nat as H3 by lia.
  split; [by repeat split|].
  exact (merge_total_on_tame_inputs 2 3 (VRef 1%nat) (VRef 3%nat) heap_nested H1 H2 H3).
Defined.

(** Two records that each refer to themselves under the same key: with any
    amount of fuel, and whatever else the heap holds, the recursion of
    [merge] does not come back. *)
Lemma merge_cyclic_diverges : forall fuel ext,
  fst (merge fuel (VRef 0%nat) (VRef 1%nat) (heap_cyclic ++ ext)) = OutOfFuel.
Proof.
  induction fuel as [|f IH]; intros ext; [done|].
  set (h := heap_cyclic ++ ext).
  set (copy := Obj PObject {["self"%string := VRef 0%nat]}).
  assert (own_props h (VRef 0%nat) = {["self"%string := VRef 0%nat]}) as Hp0 by done.
  assert (own_props (h ++ [copy]) (VRef 1%nat) = {["self"%string := VRef 1%nat]}) as Hp1 by done.
  assert (get_prop (h ++ [copy]) (length h) "self" = VRef 0%nat) as Hget.
  { unfold copy. rewrite get_prop_merged. by rewrite lookup_singleton_eq. }
  assert (forall l, (l < 2)%nat -> isPlainObject (S f) (h ++ [copy]) (VRef l) = Ok true) as Hplain.
  { intros [|[|l]] Hl; try lia; unfold isPlainObject; simpl; unfold get_prop; simpl.
    all: by rewrite lookup_singleton_ne. }
  cbn [merge]. unfold bind at 1, read at 1. rewrite Hp0. fold copy.
  unfold bind at 1, alloc. fold h. cbn [truthy negb].
  unfold bind at 1, read at 1. rewrite Hp1, map_to_list_singleton.
  unfold bind at 1. cbn [for_each].
  unfold bind at 1. unfold merge_entry.
  unfold bind at 1, read at 1. rewrite Hget.
  unfold bind at 1, read at 1. rewrite (Hplain 0%nat) by lia.
  unfold bind at 1, read at 1. rewrite (Hplain 1%nat) by lia.
  cbn [andb]. unfold bind at 1.
  specialize (IH (ext ++ [copy])). unfold h. rewrite <- app_assoc.
  destruct (merge f (VRef 0%nat) (VRef 1%nat) (heap_cyclic ++ ext ++ [copy])) as [[r|e|] h2];
    simpl in IH; try done.
Qed.

(** C5, counterexample.  [isPlainObject] throws on an object without
    [toString], and so does [merge] when such an object sits under a key of
    [defaults] that [user] overrides; on two self-referencing records
    [merge] recurses without end.  In neither case is there a budget for
    which a result is returned. *)
Lemma merge_not_total :
  (forall fuel, isPlainObject fuel heap_nullproto (VRef 0%nat) <> Ok true /\
                isPlainObject fuel heap_nullproto (VRef 0%nat) <> Ok false) /\
  isPlainObject 1 heap_nullproto (VRef 0%nat) = Throw TypeError /\
  fst (merge 2 (VRef 1%nat) (VRef 2%nat) heap_nullproto) = Throw TypeError /\
  (forall fuel r, fst (merge fuel (VRef 1%nat) (VRef 2%nat) heap_nullproto) <> Ok r) /\
  (forall fuel r, fst (merge fuel (VRef 0%nat) (VRef 1%nat) heap_cyclic) <> Ok r).
Proof.
  split; [|split; [|split; [|split]]].
  - intros [|f]; by split.
  - reflexivity.
  - vm_compute. reflexivity.
  - intros [|f] r; [done|].
    assert (fst (merge (S f) (VRef 1%nat) (VRef 2%nat) heap_nullproto) = Throw TypeError) as ->; [|done].
    set (h := heap_nullproto).
    set (copy := Obj PObject {["a"%string := VRef 0%nat]}).
    assert (own_props h (VRef 1%nat) = {["a"%string := VRef 0%nat]}) as Hp0 by done.
    assert (own_props (h ++ [copy]) (VRef 2%nat) = {["a"%string := VNum 1]}) as Hp1 by done.
    assert (get_prop (h ++ [copy]) (length h) "a" = VRef 0%nat) as Hget.
    { unfold copy. rewrite get_prop_merged. by rewrite lookup_singleton_eq. }
    cbn [merge]. unfold bind at 1, read at 1. rewrite Hp0. fold copy.
    unfold bind at 1, alloc. fold h. cbn [truthy negb Z.eqb].
    unfold bind at 1, read at 1. rewrite Hp1, map_to_list_singleton.
    unfold bind at 1. cbn [for_each].
    unfold bind at 1. unfold merge_entry.
    unfold bind at 1, read at 1. rewrite Hget.
    unfold bind at 1, read at 1. reflexivity.
  - intros fuel r. pose proof (merge_cyclic_diverges fuel []) as H.
    rewrite app_nil_r in H. by rewrite H.
Qed.

(** C3.  On [merge({list: [{a: 1}]}, {list: [{b: 2}]})] the probe
    [isPlainObject] answers [true] for both arrays, because an array that
    holds a single record prints as ["[object Object]"]; the arrays are
    merged as records, and the result is [{list: {0: {a: 1, b: 2}}}]
    instead of the user's sequence [{list: [{b: 2}]}]. *)
Theorem merge_object_array_not_replaced :
  isPlainObject 10 heap_lists (VRef 1%nat) = Ok true /\
  isPlainObject 10 heap_lists (VRef 4%nat) = Ok true /\
  fst (merge 10 (VRef 2%nat) (VRef 5%nat) heap_lists) = Ok (VRef 6%nat) /\
  snapshot 10 (snd (merge 10 (VRef 2%nat) (VRef 5%nat) heap_lists)) (VRef 6%nat) =
    TObj PObject
      [("list"%string,
        TObj PObject
          [("0"%string,
            TObj PObject [("a"%string, TLeaf (VNum 1)); ("b"%string, TLeaf (VNum 2))])])] /\
  snapshot 10 (snd (merge 10 (VRef 2%nat) (VRef 5%nat) heap_lists)) (VRef 6%nat) <>
    TObj PObject [("list"%string, snapshot 10 heap_lists (VRef 4%nat))].
Proof.
  repeat split; try (vm_compute; reflexivity).
  vm_compute. discriminate.
Qed.

(** The examples of the specification. *)
Example merge_recursion_example :
  fst (merge 10 (VRef 1%nat) (VRef 3%nat) heap_nested) = Ok (VRef 4%nat) /\
  snapshot 10 (snd (merge 10 (VRef 1%nat) (VRef 3%nat) heap_nested)) (VRef 4%nat) =
  snapshot 10 heap_nested_expected (VRef 1%nat).
Proof. split; vm_compute; reflexivity. Qed.

Example merge_replaces_number_sequence :
  fst (merge 10 (VRef 1%nat) (VRef 3%nat) heap_numbers) = Ok (VRef 4%nat) /\
  snapshot 10 (snd (merge 10 (VRef 1%nat) (VRef 3%nat) heap_numbers)) (VRef 4%nat) =
  snapshot 10 heap_numbers (VRef 3%nat).
Proof. split; vm_compute; reflexivity. Qed.

Lemma merge_preserves_arguments_witness :
  closed heap_nested /\ in_heap heap_nested (VRef 1%nat) /\
  forall depth,
    snapshot depth (snd (merge 10 (VRef 1%nat) (VRef 3%nat) heap_nested)) (VRef 1%nat) =
    snapshot depth heap_nested (VRef 1%nat).
Proof.
  assert (closed heap_nested) as Hc.
  { intros [|[|[|[|l]]]] o; simpl; intros [= <-]; vm_compute;
      repeat constructor. }
  assert (in_heap heap_nested (VRef 1%nat)) as Hin by (simpl; lia).
  split; [exact Hc|]. split; [exact Hin|].
  exact (proj2 (merge_preserves_arguments 10 (VRef 1%nat) (VRef 3%nat) heap_nested)
           Hc (VRef 1%nat) Hin).
Defined.

(** *** The probes see the same thing after the heap has grown *)

Lemma obj_toString_frame h h' :
  closed h -> extends h h' ->
  forall fuel l, (l < length h)%nat -> obj_toString fuel h' l = obj_toString fuel h l.
Proof.
  intros Hc He. induction fuel as [|f IH]; intros l Hl; [done|].
  simpl. rewrite (heap_get_extends h h' l He Hl).
  pose proof (closed_children h l Hc Hl) as Hch.
  destruct (heap_get h l) as [p props|elems]; [done|].
  simpl in Hch. rewrite Forall_forall in Hch.
  assert (List.map (fun v => match v with
                   | VUndefined | VNull => Ok ""%string
                   | VBool true => Ok "true"%string
                   | VBool false => Ok "false"%string
                   | VNum n => Ok (dec n)
                   | VStr s => Ok s
                   | VSym _ => Throw TypeError
                   | VRef l' => obj_toString f h' l'
                   end) elems =
          List.map (fun v => match v with
                   | VUndefined | VNull => Ok ""%string
                   | VBool true => Ok "true"%string
                   | VBool false => Ok "false"%string
                   | VNum n => Ok (dec n)
                   | VStr s => Ok s
                   | VSym _ => Throw TypeError
                   | VRef l' => obj_toString f h l'
                   end) elems) as ->; [|done].
  apply List.map_ext_in. intros v Hv. destruct v; try done.
  apply IH. by apply (Hch (VRef l0)), list_elem_of_In.
Qed.

Lemma isPlainObject_frame h h' fuel v :
  closed h -> extends h h' -> in_heap h v ->
  isPlainObject fuel h' v = isPlainObject fuel h v.
Proof.
  intros Hc He Hv. destruct v; try done. simpl in Hv. simpl.
  rewrite (obj_toString_frame h h' Hc He fuel l Hv).
  unfold get_prop, own_props. by rewrite (heap_get_extends h h' l He Hv).
Qed.

Lemma both_plain_frame h h' fuel c v :
  closed h -> extends h h' -> in_heap h c -> in_heap h v ->
  both_plain fuel h' c v = both_plain fuel h c v.
Proof.
  intros Hc He H1 H2. unfold both_plain.
  by rewrite !(isPlainObject_frame h h') by done.
Qed.

Lemma index_key_not_marker i : index_key i <> "$$typeof"%string.
Proof.
  unfold index_key, dec. destruct (Z.to_int (Z.of_nat i)) as [d|d]; [|done].
  by destruct d.
Qed.

Lemma indexed_lookup_Some vs k v :
  indexed vs !! k = Some v -> exists i, k = index_key i /\ vs !! i = Some v.
Proof.
  unfold indexed. intros H%elem_of_list_to_map_2.
  apply elem_of_lookup_imap_1 in H as (i & x & [= -> ->] & Hx). by exists i.
Qed.

(** The own properties of a value of a closed heap are values of the heap. *)
Lemma own_props_in_heap h v k c :
  closed h -> in_heap h v -> own_props h v !! k = Some c -> in_heap h c.
Proof.
  intros Hc Hv Hk. destruct v; simpl in Hk; try done.
  - apply indexed_lookup_Some in Hk as (i & _ & Hi). unfold char_values in Hi.
    apply list_elem_of_lookup_2, list_elem_of_In, in_map_iff in Hi as (a & <- & _). done.
  - simpl in Hv. pose proof (closed_children h l Hc Hv) as Hch.
    rewrite Forall_forall in Hch. apply Hch.
    destruct (heap_get h l) as [p props|elems]; simpl.
    + apply elem_of_map_to_list, list_elem_of_In in Hk. apply list_elem_of_In.
      by apply (in_map snd) in Hk.
    + apply indexed_lookup_Some in Hk as (i & _ & Hi). by eapply list_elem_of_lookup_2.
Qed.

Lemma own_props_alloc h o v : in_heap h v -> own_props (h ++ [o]) v = own_props h v.
Proof.
  intros Hv. destruct v; try done. simpl in *. unfold heap_get. by rewrite lookup_app_l.
Qed.

Lemma own_props_frame h h' v :
  extends h h' -> in_heap h v -> own_props h' v = own_props h v.
Proof.
  intros He Hv. destruct v; try done. simpl in *. by rewrite (heap_get_extends h h').
Qed.

Lemma lookup_allocated (H : heap) (o o' : obj) (ext more1 more2 : list obj) j :
  (length (H ++ o :: ext) <= j < length ((H ++ o :: ext) ++ more1))%nat ->
  (H ++ o' :: (ext ++ more1) ++ more2) !! j = ((H ++ o :: ext) ++ more1) !! j.
Proof.
  intros Hj. rewrite !length_app in Hj. simpl in Hj.
  replace (H ++ o' :: (ext ++ more1) ++ more2) with ((H ++ o' :: ext) ++ more1 ++ more2)
    by (by rewrite <- !app_assoc).
  assert (length (H ++ o' :: ext) = length (H ++ o :: ext)) as Hlen.
  { rewrite !length_app. simpl. lia. }
  rewrite (lookup_app_r (H ++ o' :: ext)) by (rewrite length_app; simpl; lia).
  rewrite (lookup_app_r (H ++ o :: ext)) by (rewrite length_app; simpl; lia).
  rewrite Hlen. apply lookup_app_l. rewrite length_app. simpl. lia.
Qed.

(** One round of the loop, told in terms of a closed heap [h0] that holds
    the values; the call itself runs in a heap [H] extending [h0]. *)
Lemma merge_entry_result f h0 H props ext k v hfin :
  closed h0 -> extends h0 H ->
  in_heap h0 (or_undefined (props !! k)) -> in_heap h0 v ->
  merge_entry (merge f) (S f) (length H) (k, v) (H ++ Obj PObject props :: ext) =
    (Ok tt, hfin) ->
  exists x more,
    hfin = H ++ Obj PObject (<[k := x]> props) :: (ext ++ more) /\
    if both_plain (S f) h0 (or_undefined (props !! k)) v
    then x = VRef (length (H ++ Obj PObject props :: ext)) /\
         merge f (or_undefined (props !! k)) v (H ++ Obj PObject props :: ext) =
           (Ok x, (H ++ Obj PObject props :: ext) ++ more)
    else x = v /\ more = [].
Proof.
  intros Hc HextH Hcur Hv.
  set (hc := H ++ Obj PObject props :: ext).
  set (cur := or_undefined (props !! k)) in *.
  assert (extends h0 hc) as Hext.
  { eapply extends_trans; [exact HextH|]. by eexists. }
  assert (get_prop hc (length H) k = cur) as Hget by apply get_prop_merged.
  unfold both_plain.
  rewrite <- (isPlainObject_frame h0 hc (S f) cur Hc Hext Hcur).
  rewrite <- (isPlainObject_frame h0 hc (S f) v Hc Hext Hv).
  unfold merge_entry, bind, read. cbn -[merge set_prop isPlainObject get_prop].
  rewrite !Hget.
  destruct (isPlainObject (S f) hc cur) as [b1|e|];
    cbn -[merge set_prop isPlainObject get_prop]; [|done..].
  assert (forall x hfin', set_prop (length H) k x hc = (Ok tt, hfin') ->
            hfin' = H ++ Obj PObject (<[k := x]> props) :: (ext ++ [])) as Hset.
  { intros x hfin'. unfold hc. rewrite set_prop_merged, app_nil_r. by intros [= <-]. }
  destruct b1; cbn -[merge set_prop isPlainObject get_prop].
  - destruct (isPlainObject (S f) hc v) as [b2|e|];
      cbn -[merge set_prop isPlainObject get_prop]; [|done..].
    destruct b2; cbn -[merge set_prop isPlainObject get_prop].
    + destruct (merge f cur v hc) as [[r|e|] h2] eqn:Em; [|done..].
      pose proof (merge_returns_fresh _ _ _ _ _ _ Em) as ->.
      pose proof (merge_extends f cur v hc hc (extends_refl hc)) as He.
      rewrite Em in He. simpl in He. destruct He as [ext2 Heq]. subst h2.
      assert (hc ++ ext2 = H ++ Obj PObject props :: (ext ++ ext2)) as Heq.
      { unfold hc. by rewrite <- app_assoc. }
      intros Hsp. rewrite Heq, set_prop_merged in Hsp. injection Hsp as <-.
      exists (VRef (length hc)), ext2. by repeat split.
    + intros Hsp. apply Hset in Hsp. exists v, []. by repeat split.
  - intros Hsp. apply Hset in Hsp. exists v, []. by repeat split.
Qed.

Lemma merge_loop_values f h0 H : closed h0 -> extends h0 H ->
  forall es props ext hfin,
  NoDup es.*1 ->
  (forall k v, (k, v) ∈ es -> in_heap h0 v /\ in_heap h0 (or_undefined (props !! k))) ->
  for_each es (merge_entry (merge f) (S f) (length H)) (H ++ Obj PObject props :: ext) =
    (Ok tt, hfin) ->
  exists props' more,
    hfin = H ++ Obj PObject props' :: (ext ++ more) /\
    (forall k, k ∉ es.*1 -> props' !! k = props !! k) /\
    (forall k v, (k, v) ∈ es ->
       entry_result f h0 (length H) (or_undefined (props !! k)) v (props' !! k) hfin).
Proof.
  intros Hc HextH. induction es as [|[k v] es IH]; intros props ext hfin Hnd Hin Hrun.
  - simpl in Hrun. inversion Hrun; subst. exists props, []. rewrite app_nil_r.
    split; [done|]. split; [done|]. intros k v Hk. by apply elem_of_nil in Hk.
  - rewrite fmap_cons in Hnd. apply NoDup_cons in Hnd as [Hk Hnd]. simpl in Hk.
    cbn [for_each] in Hrun. unfold bind in Hrun.
    destruct (merge_entry (merge f) (S f) (length H) (k, v) _) as [[[]|e|] h1] eqn:E1;
      [|done..].
    destruct (Hin k v ltac:(by left)) as [Hv Hcur].
    apply (merge_entry_result f h0) in E1 as (x & more1 & -> & Hx); [|done..].
    assert (forall k' v', (k', v') ∈ es -> k' <> k) as Hne.
    { intros k' v' H' ->. apply Hk. apply list_elem_of_fmap. by exists (k, v'). }
    apply IH in Hrun as (props' & more2 & -> & Hout & Hval); [|done|].
    2: { intros k' v' H'. destruct (Hin k' v' ltac:(by right)) as [H1 H2].
         split; [done|]. rewrite lookup_insert_ne; [done|]. intros ->. by eapply Hne. }
    exists props', (more1 ++ more2). split; [by rewrite app_assoc|]. split.
    + intros k' Hk'. rewrite fmap_cons, not_elem_of_cons in Hk'. destruct Hk' as [Hne' Hk'].
      rewrite Hout by done. by rewrite lookup_insert_ne.
    + intros k' v' [[= -> ->]|H']%elem_of_cons.
      * rewrite Hout by done. rewrite lookup_insert_eq.
        unfold entry_result.
        destruct (both_plain (S f) h0 (or_undefined (props !! k)) v).
        -- destruct Hx as [-> Hm].
           eexists _, (H ++ Obj PObject props :: ext), _.
           split; [done|]. split; [done|]. split.
           { rewrite length_app. simpl. lia. }
           split.
           { eapply extends_trans; [exact HextH|]. by eexists. }
           split; [exact Hm|].
           intros j Hj. by apply lookup_allocated.
        -- by destruct Hx as [-> _].
      * specialize (Hval k' v' H'). rewrite lookup_insert_ne in Hval; [done|].
        intros ->. by eapply Hne.
Qed.

(** The lemma behind the description of one level. *)
Lemma merge_level (fuel : nat) (h0 H : heap) (defaults user : value) (H' : heap) (r : value) :
  closed h0 -> extends h0 H -> in_heap h0 defaults -> in_heap h0 user ->
  merge fuel defaults user H = (Ok r, H') ->
  exists props,
    r = VRef (length H) /\ H' !! length H = Some (Obj PObject props) /\
    forall k,
      match (if truthy user then own_props h0 user else ∅) !! k with
      | None => props !! k = own_props h0 defaults !! k
      | Some v =>
          entry_result (pred fuel) h0 (length H)
            (or_undefined (own_props h0 defaults !! k)) v (props !! k) H'
      end.
Proof.
  intros Hc HextH Hd Hu. destruct fuel as [|f]; [done|]. simpl.
  unfold bind, read, alloc, ret. simpl.
  rewrite (own_props_frame h0 H defaults HextH Hd).
  assert (extends h0 (H ++ [Obj PObject (own_props h0 defaults)])) as Hext1.
  { eapply extends_trans; [exact HextH|]. by eexists. }
  destruct (truthy user); simpl.
  - rewrite (own_props_frame h0 _ user Hext1 Hu).
    destruct (for_each _ _ _) as [[[]|e|] h2] eqn:Eloop; [|done..].
    intros [= <- <-].
    apply (merge_loop_values f h0 H Hc HextH _ _ []) in Eloop
      as (props & more & -> & Hout & Hval).
    + exists props. split; [done|]. split; [by rewrite list_lookup_middle|].
      intros k. destruct (own_props h0 user !! k) as [v|] eqn:Ek.
      * apply Hval. by apply elem_of_map_to_list.
      * apply Hout. rewrite list_elem_of_fmap.
        intros ([k' v] & -> & Hin). apply elem_of_map_to_list in Hin. simpl in Ek. congruence.
    + apply NoDup_fst_map_to_list.
    + intros k v Hin. apply elem_of_map_to_list in Hin. split.
      * exact (own_props_in_heap h0 user k v Hc Hu Hin).
      * destruct (own_props h0 defaults !! k) as [c|] eqn:Ek; [|done].
        exact (own_props_in_heap h0 defaults k c Hc Hd Ek).
  - intros [= <- <-]. exists (own_props h0 defaults).
    split; [done|]. split; [by rewrite list_lookup_middle|].
    intros k. by rewrite lookup_empty.
Qed.

(** *** Along a path of keys *)

Lemma reach_old h0 H2 : closed h0 ->
  (forall j, (j < length h0)%nat -> H2 !! j = h0 !! j) ->
  forall path v, in_heap h0 v -> reach H2 v path = reach h0 v path.
Proof.
  intros Hc Hsame. induction path as [|k rest IH]; intros v Hv; [done|].
  cbn [reach].
  assert (own_props H2 v = own_props h0 v) as ->.
  { destruct v; try done. simpl in *. unfold heap_get. by rewrite Hsame. }
  apply IH. destruct (own_props h0 v !! k) as [c|] eqn:Ek; [|done].
  exact (own_props_in_heap h0 v k c Hc Hv Ek).
Qed.

(** The values found along a path in a result: stated for every heap [H2]
    that agrees with the heap of the arguments and with what the call
    allocated, so that the statement survives later writes to the record of
    an enclosing call. *)
Lemma merge_reach_gen : forall (fuel : nat) (h0 H : heap) (d u r : value) (H' : heap),
  closed h0 -> extends h0 H -> in_heap h0 d -> in_heap h0 u ->
  merge fuel d u H = (Ok r, H') ->
  forall H2,
    (forall j, (j < length h0)%nat -> H2 !! j = h0 !! j) ->
    (forall j, (length H <= j < length H')%nat -> H2 !! j = H' !! j) ->
    forall path x, mreach fuel h0 d u path = Some x -> reach H2 r path = x.
Proof.
  induction fuel as [|f IH]; intros h0 H d u r H' Hc HextH Hd Hu Hrun H2 Hold Hnew path x Hx;
    [done|].
  destruct (merge_level (S f) h0 H d u H' r Hc HextH Hd Hu Hrun)
    as (props & -> & Hm & Hprops).
  assert (length H < length H')%nat as Hlen by (by eapply lookup_lt_Some).
  destruct path as [|k rest]; [done|].
  cbn [mreach] in Hx. cbn [reach].
  assert (own_props H2 (VRef (length H)) = props) as ->.
  { unfold own_props, heap_get. rewrite Hnew by lia. by rewrite Hm. }
  specialize (Hprops k). cbn [pred] in Hprops.
  assert (in_heap h0 (or_undefined (own_props h0 d !! k))) as Hcur.
  { destruct (own_props h0 d !! k) as [c|] eqn:Ed; [|done].
    exact (own_props_in_heap h0 d k c Hc Hd Ed). }
  destruct ((if truthy u then own_props h0 u else ∅) !! k) as [v|] eqn:Ek.
  - assert (in_heap h0 v) as Hv.
    { destruct (truthy u); [|by rewrite lookup_empty in Ek].
      exact (own_props_in_heap h0 u k v Hc Hu Ek). }
    unfold entry_result in Hprops.
    destruct (both_plain (S f) h0 (or_undefined (own_props h0 d !! k)) v).
    + destruct Hprops as (l & hc & hc' & -> & Hl & Hbase & Hext & Hcall & Hagree).
      simpl.
      apply (IH h0 hc (or_undefined (own_props h0 d !! k)) v (VRef l) hc'); try done.
      intros j Hj. rewrite <- Hagree by done. apply Hnew.
      assert (is_Some (H' !! j)) as Hsome.
      { rewrite Hagree by done. apply lookup_lt_is_Some_2. lia. }
      apply lookup_lt_is_Some_1 in Hsome. lia.
    + rewrite Hprops. simpl. injection Hx as <-. by apply reach_old.
  - rewrite Hprops. injection Hx as <-. by apply reach_old.
Qed.


(** X7.  One level of [merge]: a returned result is a record allocated by
    the call; a key that [user] does not have (or every key, when [user] is
    absent or falsy) holds what [defaults] holds there, the same value or
    reference; a key that [user] has holds the user's value itself, unless
    the value of [defaults] at the key and the user's value are both taken
    for plain objects, in which case it holds the record returned by
    [merge] on these two.  The result has no other key. *)
Theorem merge_one_level (fuel : nat) (defaults user : value) (h h' : heap) (r : value) :
  closed h -> in_heap h defaults -> in_heap h user ->
  merge fuel defaults user h = (Ok r, h') ->
  exists props,
    r = VRef (length h) /\ h' !! length h = Some (Obj PObject props) /\
    forall k,
      match (if truthy user then own_props h user else ∅) !! k with
      | None => props !! k = own_props h defaults !! k
      | Some v =>
          entry_result (pred fuel) h (length h)
            (or_undefined (own_props h defaults !! k)) v (props !! k) h'
      end.
Proof.
  intros Hc Hd Hu Hrun.
  exact (merge_level fuel h h defaults user h' r Hc (extends_refl h) Hd Hu Hrun).
Qed.

Lemma closed_heap_nested : closed heap_nested.
Proof.
  intros [|[|[|[|l]]]] o; simpl; intros [= <-]; vm_compute; repeat constructor.
Qed.

Lemma merge_one_level_witness :
  closed heap_nested /\ in_heap heap_nested (VRef 1%nat) /\
  in_heap heap_nested (VRef 3%nat) /\
  exists props,
    VRef 4%nat = VRef (length heap_nested) /\
    snd (merge 3 (VRef 1%nat) (VRef 3%nat) heap_nested) !! length heap_nested =
      Some (Obj PObject props) /\
    forall k,
      match (if truthy (VRef 3%nat) then own_props heap_nested (VRef 3%nat) else ∅) !! k with
      | None => props !! k = own_props heap_nested (VRef 1%nat) !! k
      | Some v =>
          entry_result (pred 3) heap_nested (length heap_nested)
            (or_undefined (own_props heap_nested (VRef 1%nat) !! k)) v (props !! k)
            (snd (merge 3 (VRef 1%nat) (VRef 3%nat) heap_nested))
      end.
Proof.
  assert (in_heap heap_nested (VRef 1%nat)) as H1 by (simpl; lia).
  assert (in_heap heap_nested (VRef 3%nat)) as H3 by (simpl; lia).
  split; [exact closed_heap_nested|]. split; [exact H1|]. split; [exact H3|].
  refine (merge_one_level 3 (VRef 1%nat) (VRef 3%nat) heap_nested
            (snd (merge 3 (VRef 1%nat) (VRef 3%nat) heap_nested)) (VRef 4%nat)
            closed_heap_nested H1 H3 _).
  vm_compute. reflexivity.
Defined.

(** X20.  [merge] is deep: whatever the deep-merge rule finds along a path
    of keys in the two arguments, the result holds along the same path.
    The rule goes on in [defaults] at a key that [user] lacks, goes on in
    both at a key where both hold what [isPlainObject] takes for plain
    objects, and goes on in [user] at any other key of [user]; so a value
    of [user] wins at every depth, and a value of [defaults] is kept where
    [user] says nothing. *)
Theorem merge_follows_deep_rule (fuel : nat) (defaults user : value) (h h' : heap)
    (r : value) (path : list string) (x : value) :
  closed h -> in_heap h defaults -> in_heap h user ->
  merge fuel defaults user h = (Ok r, h') ->
  mreach fuel h defaults user path = Some x ->
  reach h' r path = x.
Proof.
  intros Hc Hd Hu Hrun Hx.
  assert (extends h h') as [ext ->].
  { pose proof (merge_extends fuel defaults user h h (extends_refl h)) as He.
    by rewrite Hrun in He. }
  apply (merge_reach_gen fuel h h defaults user r (h ++ ext) Hc (extends_refl h) Hd Hu Hrun);
    [|done|done].
  intros j Hj. by apply lookup_app_l.
Qed.

Lemma merge_follows_deep_rule_witness :
  (closed heap_nested /\ in_heap heap_nested (VRef 1%nat) /\
   in_heap heap_nested (VRef 3%nat) /\
   mreach 3 heap_nested (VRef 1%nat) (VRef 3%nat) ["b"; "x"]%string = Some (VNum 1)) /\
  reach (snd (merge 3 (VRef 1%nat) (VRef 3%nat) heap_nested)) (VRef 4%nat)
    ["b"; "x"]%string = VNum 1.
Proof.
  assert (in_heap heap_nested (VRef 1%nat)) as H1 by (simpl; lia).
  assert (in_heap heap_nested (VRef 3%nat)) as H3 by (simpl; lia).
  assert (mreach 3 heap_nested (VRef 1%nat) (VRef 3%nat) ["b"; "x"]%string = Some (VNum 1))
    as Hm by (vm_compute; reflexivity).
  split; [split; [exact closed_heap_nested|split; [exact H1|split; [exact H3|exact Hm]]]|].
  refine (merge_follows_deep_rule 3 (VRef 1%nat) (VRef 3%nat) heap_nested
            (snd (merge 3 (VRef 1%nat) (VRef 3%nat) heap_nested)) (VRef 4%nat)
            ["b"; "x"]%string (VNum 1) closed_heap_nested H1 H3 _ Hm).
  vm_compute. reflexivity.
Defined.

(** The example of the specification, read along its paths. *)
Example merge_recursion_paths :
  let h' := snd (merge 3 (VRef 1%nat) (VRef 3%nat) heap_nested) in
  reach h' (VRef 4%nat) ["a"]%string = VNum 1 /\
  reach h' (VRef 4%nat) ["b"; "x"]%string = VNum 1 /\
  reach h' (VRef 4%nat) ["b"; "y"]%string = VNum 3 /\
  reach h' (VRef 4%nat) ["b"; "z"]%string = VNum 4.
Proof. vm_compute. by repeat split. Qed.

(** *** Arrays and the probe *)

Lemma comma_in a b : In ","%char (list_ascii_of_string (a ++ String "," b)).
Proof. induction a as [|c a IH]; simpl; [by left|by right]. Qed.

Lemma join_has_comma s1 s2 rest :
  join "," (s1 :: s2 :: rest) <> "[object Object]"%string.
Proof.
  intros H. pose proof (comma_in s1 (join "," (s2 :: rest))) as Hin.
  assert (join "," (s1 :: s2 :: rest) =
          (s1 ++ String "," (join "," (s2 :: rest)))%string) as Hj by reflexivity.
  rewrite <- Hj, H in Hin. simpl in Hin. intuition discriminate.
Qed.

Lemma dec_not_object n : String.eqb (dec n) "[object Object]" = false.
Proof.
  unfold dec. destruct (Z.to_int n) as [d|d]; [|done]. by destruct d.
Qed.

Lemma indexed_no_marker vs : indexed vs !! "$$typeof"%string = None.
Proof.
  destruct (indexed vs !! "$$typeof"%string) as [v|] eqn:E; [|done].
  apply indexed_lookup_Some in E as (i & Hi & _).
  symmetry in Hi. by apply index_key_not_marker in Hi.
Qed.

Lemma sequence_cons_inv {A} (r : result A) (rs : list (result A)) parts :
  sequence (r :: rs) = Ok parts ->
  exists a l, r = Ok a /\ sequence rs = Ok l /\ parts = a :: l.
Proof.
  simpl. destruct r as [a|e|]; [|done..].
  destruct (sequence rs) as [l|e|]; [|done..]. intros [= <-]. by exists a, l.
Qed.

(** X8.  An array is taken for a plain object exactly when it has a single
    element and that element prints as ["[object Object]"]: the string
    itself, or an object whose [toString()] returns it, such as a plain
    record or another such array.  An empty array, an array of two or more
    elements and an array of numbers are never taken for one. *)
Theorem array_taken_for_plain_object (fuel : nat) (h : heap) (l : loc)
    (elems : list value) :
  h !! l = Some (Arr elems) ->
  isPlainObject (S fuel) h (VRef l) = Ok true <->
  exists e, elems = [e] /\
    (e = VStr "[object Object]" \/
     exists l', e = VRef l' /\ obj_toString fuel h l' = Ok "[object Object]"%string).
Proof.
  intros Hl. unfold isPlainObject, get_prop, own_props.
  cbn [obj_toString]. unfold heap_get. rewrite Hl, indexed_no_marker.
  cbn [value_eqb reactElement negb].
  destruct elems as [|e [|e2 rest]].
  - simpl. split; [done|]. by intros (e & ? & _).
  - cbn [List.map sequence].
    split.
    + intros H. exists e. split; [done|].
      destruct e as [| |[|]|n|s|s|l']; try done.
      * simpl in H. by rewrite dec_not_object in H.
      * simpl in H. destruct (String.eqb s "[object Object]") eqn:E; [|done].
        apply String.eqb_eq in E. left. by subst.
      * right. exists l'. split; [done|].
        destruct (obj_toString fuel h l') as [s|err|]; [|done..].
        simpl in H. destruct (String.eqb s "[object Object]") eqn:E; [|done].
        apply String.eqb_eq in E. by subst.
    + intros (e' & [= <-] & [->|(l' & -> & Hs)]); [done|]. by rewrite Hs.
  - split; [|by intros (e' & ? & _)].
    intros H. exfalso.
    destruct (sequence _) as [parts|err|] eqn:Es; [|done..].
    apply sequence_cons_inv in Es as (s1 & ps & _ & Es & ->).
    apply sequence_cons_inv in Es as (s2 & ps' & _ & _ & ->).
    destruct (String.eqb _ _) eqn:E; [|done].
    apply String.eqb_eq in E. by apply join_has_comma in E.
Qed.

Lemma array_taken_for_plain_object_witness :
  heap_arrays !! 1%nat = Some (Arr [VRef 0%nat]) /\
  (isPlainObject 2 heap_arrays (VRef 1%nat) = Ok true <->
   exists e, [VRef 0%nat] = [e] /\
     (e = VStr "[object Object]" \/
      exists l', e = VRef l' /\ obj_toString 1 heap_arrays l' = Ok "[object Object]"%string)).
Proof.
  split; [reflexivity|].
  exact (array_taken_for_plain_object 1 heap_arrays 1%nat [VRef 0%nat] eq_refl).
Defined.

End MergeFacts.


(** ** Facts about the import-map functions *)
Module ImportMapFacts.
Import ImportMaps EffFacts.

Lemma get_lookup (st : store) l m : st !! l = Some m -> get st l = m.
Proof. unfold get. by intros ->. Qed.

Lemma get_insert_eq (st : store) l m : (l < length st)%nat -> get (<[l := m]> st) l = m.
Proof. intros H. unfold get. by rewrite list_lookup_insert_eq. Qed.

Lemma get_app_l (st ext : store) l : (l < length st)%nat -> get (st ++ ext) l = get st l.
Proof. intros H. unfold get. by rewrite lookup_app_l. Qed.

Lemma get_app_new (st : store) m : get (st ++ [m]) (length st) = m.
Proof. unfold get. by rewrite list_lookup_middle. Qed.

Section resolver_facts.
Variable href : string -> string -> option string.

(** *** Footprint *)

Lemma only_changes_refl ls st : only_changes ls st st.
Proof. by split. Qed.

Lemma only_changes_trans ls st1 st2 st3 :
  only_changes ls st1 st2 -> only_changes ls st2 st3 -> only_changes ls st1 st3.
Proof.
  intros [H1 H2] [H3 H4]. split; [congruence|].
  intros l Hl. by rewrite H4, H2.
Qed.

Lemma only_changes_weaken ls ls' st st' :
  ls ⊆ ls' -> only_changes ls st st' -> only_changes ls' st st'.
Proof. intros Hsub [H1 H2]. split; [done|]. intros l Hl. apply H2. set_solver. Qed.

Lemma set_target_only_changes l k r st :
  only_changes [l] st (snd (set_target l k r st)).
Proof.
  unfold set_target. simpl. split; [by rewrite length_insert|].
  intros l' Hl'. rewrite list_lookup_insert_ne; [done|]. set_solver.
Qed.

Lemma resolveSpecifierMap_only_changes l base st :
  only_changes [l] st (snd (resolveSpecifierMap href l base st)).
Proof.
  unfold resolveSpecifierMap, bind, read. simpl.
  apply (for_each_invariant (only_changes [l] st)); [|apply only_changes_refl].
  intros [k u] st1 _ H1. unfold resolve_entry, bind, new_URL_href.
  destruct (href u base) as [r|]; simpl; [|done].
  eapply only_changes_trans; [exact H1|]. apply set_target_only_changes.
Qed.

Lemma resolveImportMap_unfold m base :
  resolveImportMap href m base =
  for_each (specifier_maps m) (fun l => resolveSpecifierMap href l base).
Proof.
  unfold resolveImportMap, specifier_maps, scope_maps. by destruct (scopes m).
Qed.

Lemma resolveImportMap_only_changes m base st :
  only_changes (specifier_maps m) st (snd (resolveImportMap href m base st)).
Proof.
  rewrite resolveImportMap_unfold.
  apply (for_each_invariant (only_changes (specifier_maps m) st)); [|apply only_changes_refl].
  intros l st1 Hl H1.
  eapply only_changes_trans; [exact H1|].
  eapply only_changes_weaken; [|apply resolveSpecifierMap_only_changes].
  by intros x ->%list_elem_of_singleton.
Qed.

(** *** Effect of a successful resolution *)

Lemma resolve_loop_ok l base :
  forall (es : list (string * string)) (m : SpecifierMap) (st : store),
  NoDup (List.map fst es) ->
  (forall k u, In (k, u) es -> is_Some (href u base)) ->
  st !! l = Some m ->
  exists m',
    for_each es (resolve_entry href l base) st = (Ok tt, <[l := m']> st) /\
    forall k, m' !! k = match (list_to_map es : gmap string string) !! k with
                        | Some u => href u base
                        | None => m !! k
                        end.
Proof.
  induction es as [|[k u] es IH]; intros m st Hnd Hres Hl.
  - exists m. split; [|done]. simpl. unfold ret. by rewrite list_insert_id.
  - apply NoDup_cons in Hnd as [Hk Hnd].
    destruct (Hres k u ltac:(by left)) as [r Hr].
    assert (l < length st)%nat as Hlt by (by eapply lookup_lt_Some).
    assert (forall k' u', In (k', u') es -> is_Some (href u' base)) as Hres'.
    { intros k' u' Hin. apply (Hres k'). by right. }
    assert (<[l := <[k := r]> m]> st !! l = Some (<[k := r]> m)) as Hl'.
    { by rewrite list_lookup_insert_eq. }
    destruct (IH (<[k := r]> m) (<[l := <[k := r]> m]> st) Hnd Hres' Hl') as (m' & Hrun & Hm').
    exists m'. split.
    + cbn [for_each]. unfold bind at 1. unfold resolve_entry at 1.
      unfold bind at 1, new_URL_href at 1. rewrite Hr. unfold ret at 1.
      unfold set_target at 1. rewrite (get_lookup st l m Hl).
      rewrite Hrun. by rewrite list_insert_insert_eq.
    + intros k'. rewrite Hm'. simpl.
      destruct (decide (k = k')) as [<-|Hne].
      * rewrite lookup_insert_eq.
        rewrite (not_elem_of_list_to_map_1 es k); [by rewrite lookup_insert_eq, Hr|].
        exact Hk.
      * by rewrite !lookup_insert_ne.
Qed.

Lemma resolveSpecifierMap_ok l base st :
  (l < length st)%nat -> resolvable href base (get st l) ->
  resolveSpecifierMap href l base st = (Ok tt, <[l := resolved href base (get st l)]> st).
Proof.
  intros Hl Hres.
  destruct (lookup_lt_is_Some_2 st l Hl) as [m Hm].
  rewrite (get_lookup st l m Hm) in *.
  unfold resolveSpecifierMap, bind, read. simpl. rewrite (get_lookup st l m Hm).
  assert (forall k u, In (k, u) (map_to_list m) -> is_Some (href u base)) as Hres'.
  { intros k u Hin. apply (Hres k). by apply elem_of_map_to_list, list_elem_of_In. }
  destruct (resolve_loop_ok l base (map_to_list m) m st
              (NoDup_fst_map_to_list m) Hres' Hm) as (m' & Hrun & Hm').
  rewrite Hrun. f_equal. f_equal. apply map_eq. intros k.
  rewrite Hm', list_to_map_to_list. unfold resolved. rewrite lookup_omap.
  by destruct (m !! k).
Qed.

Section url_rule.
(** The rule of the specification for the platform's URL resolution: the
    result is an absolute URL, and an absolute URL resolves to itself. *)
Variable is_absolute : string -> bool.
Hypothesis href_absolute : forall u b, is_absolute u = true -> href u b = Some u.
Hypothesis href_yields_absolute : forall u b r, href u b = Some r -> is_absolute r = true.

Lemma resolved_lookup base m k :
  resolved href base m !! k = m !! k ≫= (fun u => href u base).
Proof. unfold resolved. apply lookup_omap. Qed.

Lemma resolved_idem base m : resolved href base (resolved href base m) = resolved href base m.
Proof.
  apply map_eq. intros k. rewrite !resolved_lookup.
  destruct (m !! k) as [u|]; simpl; [|done].
  destruct (href u base) as [r|] eqn:E; simpl; [|done].
  apply href_absolute. by eapply href_yields_absolute.
Qed.

Lemma resolvable_resolved base m : resolvable href base (resolved href base m).
Proof.
  intros k r. rewrite resolved_lookup.
  destruct (m !! k) as [u|]; simpl; [|done]. intros Hr.
  exists r. apply href_absolute. by eapply href_yields_absolute.
Qed.

(** Resolving a list of specifier maps, some of which may be the same
    object: each ends up resolved exactly as if it had been resolved once. *)
Lemma resolve_all_ok base (st0 : store) : forall (ls : list loc) (st : store),
  length st = length st0 ->
  (forall l, get st l = get st0 l \/ get st l = resolved href base (get st0 l)) ->
  (forall l, l ∈ ls -> (l < length st0)%nat /\ resolvable href base (get st0 l)) ->
  exists st',
    for_each ls (fun l => resolveSpecifierMap href l base) st = (Ok tt, st') /\
    length st' = length st0 /\
    (forall l, l ∈ ls -> get st' l = resolved href base (get st0 l)) /\
    (forall l, l ∉ ls -> st' !! l = st !! l) /\
    (forall l, get st' l = get st0 l \/ get st' l = resolved href base (get st0 l)).
Proof.
  induction ls as [|l ls IH]; intros st Hlen Hinv Hwf.
  - exists st. repeat split; try done. by intros l ?%elem_of_nil.
  - destruct (Hwf l ltac:(by left)) as [Hl Hres].
    assert (resolvable href base (get st l)) as Hres'.
    { destruct (Hinv l) as [-> | ->]; [done|apply resolvable_resolved]. }
    assert (resolved href base (get st l) = resolved href base (get st0 l)) as Heq.
    { destruct (Hinv l) as [-> | ->]; [done|apply resolved_idem]. }
    pose proof (resolveSpecifierMap_ok l base st ltac:(lia) Hres') as Hstep.
    rewrite Heq in Hstep.
    set (st1 := <[l := resolved href base (get st0 l)]> st) in *.
    assert (forall l', get st1 l' = get st0 l' \/ get st1 l' = resolved href base (get st0 l')) as Hinv1.
    { intros l'. destruct (decide (l = l')) as [<-|Hne].
      - right. unfold st1. apply get_insert_eq. lia.
      - unfold st1, get. rewrite list_lookup_insert_ne by done. apply Hinv. }
    destruct (IH st1) as (st' & Hrun & Hlen' & Hin & Hout & Hinv').
    { unfold st1. by rewrite length_insert. }
    { exact Hinv1. }
    { intros l' Hl'. apply Hwf. by right. }
    exists st'. split; [|split; [done|split; [|split; [|done]]]].
    + cbn [for_each]. unfold bind at 1. by rewrite Hstep.
    + intros l' Hl'. apply elem_of_cons in Hl' as [->|Hl']; [|by apply Hin].
      destruct (decide (l ∈ ls)) as [Hmem|Hmem]; [by apply Hin|].
      unfold get at 1. rewrite (Hout l Hmem). fold (get st1 l).
      unfold st1. apply get_insert_eq. lia.
    + intros l' Hl'. rewrite Hout; [|by intros ?; apply Hl'; right].
      unfold st1. rewrite list_lookup_insert_ne; [done|].
      intros ->. apply Hl'. by left.
Qed.

Lemma resolveImportMap_ok (st : store) (m : ImportMap) (base : string) :
  well_formed href st m base ->
  exists st',
    resolveImportMap href m base st = (Ok tt, st') /\
    only_changes (specifier_maps m) st st' /\
    forall l, l ∈ specifier_maps m -> get st' l = resolved href base (get st l).
Proof.
  intros Hwf. rewrite resolveImportMap_unfold.
  destruct (resolve_all_ok base st (specifier_maps m) st) as (st' & Hrun & Hlen & Hin & Hout & _);
    [done|by left|exact Hwf|].
  exists st'. by repeat split.
Qed.

End url_rule.

Section stable_rule.
(** What the resolution of a map needs of the platform when an object
    occurs twice among the specifier maps: a URL returned by the
    constructor for the base is returned as it is when it is resolved
    again. *)
Variable base : string.
Hypothesis href_stable : forall u r, href u base = Some r -> href r base = Some r.

Lemma resolved_stable m : resolved href base (resolved href base m) = resolved href base m.
Proof.
  apply map_eq. intros k. rewrite !resolved_lookup.
  destruct (m !! k) as [u|]; simpl; [|done].
  destruct (href u base) as [r|] eqn:E; simpl; [|done].
  by apply (href_stable u).
Qed.

Lemma resolvable_stable m : resolvable href base (resolved href base m).
Proof.
  intros k r. rewrite resolved_lookup.
  destruct (m !! k) as [u|]; simpl; [|done]. intros Hr.
  exists r. by apply (href_stable u).
Qed.

Lemma resolve_all_stable (st0 : store) : forall (ls : list loc) (st : store),
  length st = length st0 ->
  (forall l, get st l = get st0 l \/ get st l = resolved href base (get st0 l)) ->
  (forall l, l ∈ ls -> (l < length st0)%nat /\ resolvable href base (get st0 l)) ->
  exists st',
    for_each ls (fun l => resolveSpecifierMap href l base) st = (Ok tt, st') /\
    length st' = length st0 /\
    (forall l, l ∈ ls -> get st' l = resolved href base (get st0 l)) /\
    (forall l, l ∉ ls -> st' !! l = st !! l).
Proof.
  induction ls as [|l ls IH]; intros st Hlen Hinv Hwf.
  - exists st. repeat split; try done. by intros l ?%elem_of_nil.
  - destruct (Hwf l ltac:(by left)) as [Hl Hres].
    assert (resolvable href base (get st l)) as Hres'.
    { destruct (Hinv l) as [-> | ->]; [done|apply resolvable_stable]. }
    assert (resolved href base (get st l) = resolved href base (get st0 l)) as Heq.
    { destruct (Hinv l) as [-> | ->]; [done|apply resolved_stable]. }
    pose proof (resolveSpecifierMap_ok l base st ltac:(lia) Hres') as Hstep.
    rewrite Heq in Hstep.
    set (st1 := <[l := resolved href base (get st0 l)]> st) in *.
    assert (forall l', get st1 l' = get st0 l' \/ get st1 l' = resolved href base (get st0 l'))
      as Hinv1.
    { intros l'. destruct (decide (l = l')) as [<-|Hne].
      - right. unfold st1. apply get_insert_eq. lia.
      - unfold st1, get. rewrite list_lookup_insert_ne by done. apply Hinv. }
    destruct (IH st1) as (st' & Hrun & Hlen' & Hin & Hout).
    { unfold st1. by rewrite length_insert. }
    { exact Hinv1. }
    { intros l' Hl'. apply Hwf. by right. }
    exists st'. split; [|split; [done|split]].
    + cbn [for_each]. unfold bind at 1. by rewrite Hstep.
    + intros l' Hl'. apply elem_of_cons in Hl' as [->|Hl']; [|by apply Hin].
      destruct (decide (l ∈ ls)) as [Hmem|Hmem]; [by apply Hin|].
      unfold get at 1. rewrite (Hout l Hmem). fold (get st1 l).
      unfold st1. apply get_insert_eq. lia.
    + intros l' Hl'. rewrite Hout; [|by intros ?; apply Hl'; right].
      unfold st1. rewrite list_lookup_insert_ne; [done|].
      intros ->. apply Hl'. by left.
Qed.

Lemma resolveImportMap_stable (st : store) (m : ImportMap) :
  well_formed href st m base ->
  exists st',
    resolveImportMap href m base st = (Ok tt, st') /\
    only_changes (specifier_maps m) st st' /\
    forall l, l ∈ specifier_maps m -> get st' l = resolved href base (get st l).
Proof.
  intros Hwf. rewrite resolveImportMap_unfold.
  destruct (resolve_all_stable st (specifier_maps m) st) as (st' & Hrun & Hlen & Hin & Hout);
    [done|by left|exact Hwf|].
  exists st'. by repeat split.
Qed.

End stable_rule.
End resolver_facts.

(** *** Claims about the import-map functions *)

Section resolve_claims.
Variable href : string -> string -> option string.

(** C8 (as amended).  On a well-formed import map [resolveImportMap]
    succeeds, and afterwards every target in [imports] and in each scope is
    [new URL(target, baseUrl).href], the resolution of the former target
    against the base by the URL constructor; no specifier is added or
    removed.  A target is left as it was exactly when the constructor
    returns it as it is: an absolute target that is not in the form the
    constructor returns is rewritten too.  The condition on the
    constructor, that it returns its own results as they are, matters only
    when one object occurs twice among the specifier maps. *)
Theorem resolveImportMap_resolves_targets (st : store) (m : ImportMap) (base : string) :
  (forall u r, href u base = Some r -> href r base = Some r) ->
  well_formed href st m base ->
  exists st',
    resolveImportMap href m base st = (Ok tt, st') /\
    forall l, l ∈ specifier_maps m ->
      (forall k u, get st l !! k = Some u ->
         exists r, href u base = Some r /\ get st' l !! k = Some r /\
                   (get st' l !! k = Some u <-> href u base = Some u)) /\
      (forall k, get st l !! k = None -> get st' l !! k = None).
Proof.
  intros Hstable Hwf.
  destruct (resolveImportMap_stable href base Hstable st m Hwf) as (st' & Hrun & _ & Hin).
  exists st'. split; [done|]. intros l Hl. rewrite (Hin l Hl). split.
  - intros k u Hk. destruct (Hwf l Hl) as [_ Hres]. destruct (Hres k u Hk) as [r Hr].
    exists r. rewrite resolved_lookup, Hk. simpl. by rewrite Hr.
  - intros k Hk. by rewrite resolved_lookup, Hk.
Qed.

End resolve_claims.

Section getImportMap_facts.
Variable href : string -> string -> option string.
Variable baseUrl : string.

(** The store after [getImportMap(userMap, url)], step by step. *)
Lemma getImportMap_user_store (userMap : ImportMap) (url : option string)
    (st : store) (mod_ts root : string) :
  href "./mod.ts" baseUrl = Some mod_ts -> href "./" baseUrl = Some root ->
  let st1 := st ++ [canonical_imports mod_ts root] in
  let run := match url with
             | Some url => resolveImportMap href userMap url st1
             | None => (Ok tt, st1)
             end in
  getImportMap href baseUrl (Some userMap) url st =
  match run with
  | (Ok _, st2) =>
      (Ok {| imports := length st2; scopes := scopes userMap |},
       st2 ++ [get st2 (imports userMap) ∪ get st2 (length st)])
  | (Throw e, st2) => (Throw e, st2)
  | (OutOfFuel, st2) => (OutOfFuel, st2)
  end.
Proof.
  intros Hm Hr. unfold getImportMap, bind, new_URL_href. rewrite Hm, Hr.
  unfold ret, alloc_map, read. simpl. unfold canonical_imports.
  destruct url as [u|]; simpl; [|done].
  by destruct (resolveImportMap href userMap u _) as [[[]|e|] st2].
Qed.

(** C9.  Without arguments [getImportMap] returns a fresh map whose
    imports are the three entries of Lume itself and which has no scopes.
    With a [userMap] whose specifier maps are objects of the store, a
    returned map has the scopes of [userMap] itself and, as imports, the
    imports of [userMap] (as they are after the call) laid over the three
    entries, the user's entry winning on a common key; without a [url] the
    call succeeds and the imports of [userMap] are as before the call.
    With a [url], on a well-formed [userMap], the call returns, and the
    imports of the result hold, under each specifier of the imports that
    were supplied, the resolution of the supplied target against [url], and
    under any other specifier the entry of Lume.  (The condition on the
    URL constructor, that it returns its own results as they are, matters
    only when one object occurs twice among the specifier maps.) *)
Theorem getImportMap_overlays_user_imports (mod_ts root : string) (st : store) :
  href "./mod.ts" baseUrl = Some mod_ts -> href "./" baseUrl = Some root ->
  (forall url, getImportMap href baseUrl None url st =
               (Ok {| imports := length st; scopes := None |},
                st ++ [canonical_imports mod_ts root])) /\
  (forall k, canonical_imports mod_ts root !! k =
             if decide (k = "lume"%string) then Some mod_ts
             else if decide (k = "lume/"%string) then Some root
             else if decide (k = "https://deno.land/x/lume/"%string) then Some root
             else None) /\
  size (canonical_imports mod_ts root) = 3%nat /\
  (forall userMap url r st',
     (forall l, l ∈ specifier_maps userMap -> (l < length st)%nat) ->
     getImportMap href baseUrl (Some userMap) url st = (Ok r, st') ->
     scopes r = scopes userMap /\
     (forall k, get st' (imports r) !! k =
                match get st' (imports userMap) !! k with
                | Some target => Some target
                | None => canonical_imports mod_ts root !! k
                end) /\
     (url = None -> get st' (imports userMap) = get st (imports userMap))) /\
  (forall userMap, exists r st',
     getImportMap href baseUrl (Some userMap) None st = (Ok r, st')) /\
  (forall userMap url,
     (forall u r, href u url = Some r -> href r url = Some r) ->
     well_formed href st userMap url ->
     exists r st',
       getImportMap href baseUrl (Some userMap) (Some url) st = (Ok r, st') /\
       scopes r = scopes userMap /\
       forall k, get st' (imports r) !! k =
                 match get st (imports userMap) !! k with
                 | Some target => href target url
                 | None => canonical_imports mod_ts root !! k
                 end).
Proof.
  intros Hm Hr. split; [|split; [|split; [|split; [|split]]]].
  - intros url. unfold getImportMap, bind, new_URL_href. by rewrite Hm, Hr.
  - intros k. unfold canonical_imports.
    repeat (case_decide; [subst; by simplify_map_eq|]).
    by simplify_map_eq.
  - unfold canonical_imports.
    rewrite !map_size_insert_None, map_size_empty; [done|by simplify_map_eq..].
  - intros userMap url r st' Hvalid Hrun.
    rewrite (getImportMap_user_store userMap url st mod_ts root Hm Hr) in Hrun.
    set (st1 := st ++ [canonical_imports mod_ts root]) in *.
    assert (imports userMap < length st)%nat as Himp by (apply Hvalid; by left).
    assert (forall st2, only_changes (specifier_maps userMap) st1 st2 ->
              get st2 (length st) = canonical_imports mod_ts root /\
              (imports userMap < length st2)%nat) as Hown.
    { intros st2 [H1 H2]. split.
      - unfold get. rewrite H2.
        + unfold st1. by rewrite list_lookup_middle.
        + intros Hin. apply Hvalid in Hin. lia.
      - rewrite H1. unfold st1. rewrite length_app. lia. }
    destruct url as [u|].
    + pose proof (resolveImportMap_only_changes href userMap u st1) as Hoc.
      destruct (resolveImportMap href userMap u st1) as [[[]|e|] st2]; simpl in *; try done.
      inversion Hrun; subst; clear Hrun. simpl.
      destruct (Hown st2 Hoc) as [Hc Hlt].
      split; [done|]. split; [|done].
      intros k. rewrite get_app_new, get_app_l by done.
      rewrite lookup_union, Hc.
      by destruct (get st2 (imports userMap) !! k), (canonical_imports mod_ts root !! k).
    + inversion Hrun; subst; clear Hrun. simpl.
      destruct (Hown st1 (only_changes_refl _ _)) as [Hc Hlt].
      split; [done|]. split.
      * intros k. rewrite get_app_new, get_app_l by done.
        rewrite lookup_union, Hc.
        by destruct (get st1 (imports userMap) !! k), (canonical_imports mod_ts root !! k).
      * intros _. rewrite get_app_l by done. unfold st1. by rewrite get_app_l.
  - intros userMap.
    rewrite (getImportMap_user_store userMap None st mod_ts root Hm Hr). by eexists _, _.
  - intros userMap url Hstable Hwf.
    rewrite (getImportMap_user_store userMap (Some url) st mod_ts root Hm Hr). cbv zeta.
    set (st1 := st ++ [canonical_imports mod_ts root]).
    assert (well_formed href st1 userMap url) as Hwf1.
    { intros l Hl. destruct (Hwf l Hl) as [H1 H2]. split.
      - unfold st1. rewrite length_app. lia.
      - unfold st1. by rewrite get_app_l. }
    destruct (resolveImportMap_stable href url Hstable st1 userMap Hwf1)
      as (st2 & Hrun & [Hlen Hout] & Hin).
    rewrite Hrun. eexists _, _. split; [done|]. split; [done|].
    intros k. cbn [imports]. rewrite get_app_new.
    assert (get st2 (length st) = canonical_imports mod_ts root) as ->.
    { unfold get. rewrite Hout.
      - unfold st1. by rewrite list_lookup_middle.
      - intros Hl. destruct (Hwf _ Hl) as [Hlt _]. lia. }
    assert (imports userMap ∈ specifier_maps userMap) as Himp by (by left).
    destruct (Hwf _ Himp) as [Hlt Hres].
    rewrite (Hin _ Himp). unfold st1. rewrite get_app_l by done.
    rewrite lookup_union, resolved_lookup.
    destruct (get st (imports userMap) !! k) as [u|] eqn:Hk; simpl.
    + destruct (Hres k u Hk) as [r Hr']. rewrite Hr'.
      by destruct (canonical_imports mod_ts root !! k).
    + by destruct (canonical_imports mod_ts root !! k).
Qed.

End getImportMap_facts.

Section in_place.
Variable href : string -> string -> option string.
Variable baseUrl : string.
Variable is_absolute : string -> bool.
Hypothesis href_absolute : forall u b, is_absolute u = true -> href u b = Some u.
Hypothesis href_yields_absolute : forall u b r, href u b = Some r -> is_absolute r = true.

(** C6 (as amended).  The import-map functions work in place:
    [resolveImportMap] returns no value and writes to the specifier maps of
    the map it is given, and to no other object; [getImportMap] allocates its
    result and, when it is given a [url], first rewrites the specifier
    maps of [userMap] in place, so that on a well-formed map each of them
    holds the resolved targets after the call; without a [url] it changes no
    existing object. *)
Theorem resolution_rewrites_in_place (userMap : ImportMap) (st : store) :
  (forall base, only_changes (specifier_maps userMap) st
                  (snd (resolveImportMap href userMap base st))) /\
  (forall url, let st' := snd (getImportMap href baseUrl (Some userMap) url st) in
     (length st <= length st')%nat /\
     (forall l, (l < length st)%nat -> l ∉ specifier_maps userMap -> st' !! l = st !! l) /\
     (url = None -> forall l, (l < length st)%nat -> st' !! l = st !! l)) /\
  (forall url mod_ts root,
     href "./mod.ts" baseUrl = Some mod_ts -> href "./" baseUrl = Some root ->
     well_formed href st userMap url ->
     let st' := snd (getImportMap href baseUrl (Some userMap) (Some url) st) in
     forall l, l ∈ specifier_maps userMap ->
               get st' l = resolved href url (get st l)).
Proof.
  split; [|split].
  - intros base. apply resolveImportMap_only_changes.
  - intros url. simpl.
    destruct (href "./mod.ts" baseUrl) as [mod_ts|] eqn:Hm;
      [destruct (href "./" baseUrl) as [root|] eqn:Hr|].
    + rewrite (getImportMap_user_store href baseUrl userMap url st mod_ts root Hm Hr).
      set (st1 := st ++ [canonical_imports mod_ts root]).
      assert (length st1 = S (length st)) as Hlen1.
      { unfold st1. rewrite length_app. simpl. lia. }
      assert (forall l, (l < length st)%nat -> st1 !! l = st !! l) as Hsame1.
      { intros l Hl. unfold st1. by rewrite lookup_app_l. }
      destruct url as [u|]; simpl.
      * pose proof (resolveImportMap_only_changes href userMap u st1) as [H1 H2].
        destruct (resolveImportMap href userMap u st1) as [[[]|e|] st2]; simpl in *.
        -- rewrite length_app. split; [lia|]. split; [|done].
           intros l Hl Hnot. rewrite lookup_app_l by lia. rewrite H2 by done. by apply Hsame1.
        -- split; [lia|]. split; [|done].
           intros l Hl Hnot. rewrite H2 by done. by apply Hsame1.
        -- split; [lia|]. split; [|done].
           intros l Hl Hnot. rewrite H2 by done. by apply Hsame1.
      * rewrite length_app. split; [lia|].
        split; intros; rewrite lookup_app_l by lia; by apply Hsame1.
    + unfold getImportMap, bind, new_URL_href. rewrite Hm, Hr. simpl. by repeat split.
    + unfold getImportMap, bind, new_URL_href. rewrite Hm. simpl. by repeat split.
  - intros url mod_ts root Hm Hr Hwf. simpl. intros l Hl.
    rewrite (getImportMap_user_store href baseUrl userMap (Some url) st mod_ts root Hm Hr).
    assert (well_formed href (st ++ [canonical_imports mod_ts root]) userMap url) as Hwf1.
    { intros l' Hl'. destruct (Hwf l' Hl') as [H1 H2]. split.
      - rewrite length_app. lia.
      - by rewrite get_app_l. }
    destruct (resolveImportMap_ok href is_absolute href_absolute href_yields_absolute
                _ userMap url Hwf1) as (st2 & Hrun & [Hlen _] & Hin).
    rewrite Hrun. simpl. destruct (Hwf l Hl) as [Hlt _].
    rewrite get_app_l by (rewrite Hlen, length_app; lia).
    rewrite (Hin l Hl). by rewrite get_app_l.
Qed.

(** On a well-formed map the call with a [url] returns: the resolution of
    the user's targets cannot fail. *)
Lemma getImportMap_returns (userMap : ImportMap) (st : store)
    (url mod_ts root : string) :
  href "./mod.ts" baseUrl = Some mod_ts -> href "./" baseUrl = Some root ->
  well_formed href st userMap url ->
  exists r st', getImportMap href baseUrl (Some userMap) (Some url) st = (Ok r, st').
Proof.
  intros Hm Hr Hwf.
  rewrite (getImportMap_user_store href baseUrl userMap (Some url) st mod_ts root Hm Hr).
  assert (well_formed href (st ++ [canonical_imports mod_ts root]) userMap url) as Hwf1.
  { intros l' Hl'. destruct (Hwf l' Hl') as [H1 H2]. split.
    - rewrite length_app. lia.
    - by rewrite get_app_l. }
  destruct (resolveImportMap_ok href is_absolute href_absolute href_yields_absolute
              _ userMap url Hwf1) as (st2 & Hrun & _).
  rewrite Hrun. simpl. by eexists _, _.
Qed.

End in_place.

(** *** The sample resolver obeys the rule of the specification *)

Lemma sample_href_absolute u b : has_scheme u = true -> sample_href u b = Some u.
Proof. intros H. unfold sample_href. by rewrite H. Qed.

Lemma has_scheme_dir_of b x :
  has_scheme b = true -> dir_of b <> EmptyString ->
  has_scheme (dir_of b ++ x) = true.
Proof.
  induction b as [|c b IH]; intros Hs Hd; simpl in *; [done|].
  destruct (Ascii.eqb c ":"%char) eqn:Ec.
  - destruct (dir_of b); [|by simpl; rewrite Ec].
    destruct (Ascii.eqb c "/"%char); [|done]. simpl. by rewrite Ec.
  - destruct (Ascii.eqb c "/"%char) eqn:Es; [done|].
    destruct (dir_of b) as [|c' d] eqn:Ed; [done|].
    simpl. rewrite Ec, Es. by apply IH.
Qed.

Lemma sample_href_yields_absolute u b r :
  sample_href u b = Some r -> has_scheme r = true.
Proof.
  unfold sample_href. destruct (has_scheme u) eqn:Hu; [by intros [= <-]|].
  destruct (has_scheme b) eqn:Hb; [|done].
  destruct (dir_of b) as [|c d] eqn:Ed; [done|].
  intros [= <-]. rewrite <- Ed. apply has_scheme_dir_of; [done|]. by rewrite Ed.
Qed.

(** A check of well-formedness by enumeration. *)
Lemma well_formed_check href (st : store) (m : ImportMap) (base : string) :
  forallb (fun l =>
    Nat.ltb l (length st) &&
    forallb (fun kv => match href (snd kv) base with Some _ => true | None => false end)
      (map_to_list (get st l))) (specifier_maps m) = true ->
  well_formed href st m base.
Proof.
  intros H l Hl. rewrite forallb_forall in H.
  specialize (H l ltac:(by apply list_elem_of_In)).
  apply andb_prop in H as [H1 H2]. split; [by apply Nat.ltb_lt|].
  intros k u Hk. rewrite forallb_forall in H2.
  specialize (H2 (k, u) ltac:(by apply list_elem_of_In, elem_of_map_to_list)).
  simpl in H2. by destruct (href u base).
Qed.

(** A URL returned by the sample is returned as it is. *)
Lemma sample_href_stable u b r b' : sample_href u b = Some r -> sample_href r b' = Some r.
Proof. intros H. apply sample_href_absolute. by eapply sample_href_yields_absolute. Qed.

(** *** The normalising sample *)

Lemma has_scheme_app r s : has_scheme r = true -> has_scheme (r ++ s)%string = true.
Proof.
  induction r as [|c r IH]; intros H; [discriminate H|].
  change (String c r ++ s)%string with (String c (r ++ s)%string).
  cbn [has_scheme] in *.
  destruct (Ascii.eqb c ":"); [done|]. destruct (Ascii.eqb c "/"); [done|]. by apply IH.
Qed.

Lemma has_delim_app_slash r : has_delim (r ++ "/")%string = true.
Proof.
  induction r as [|c r IH]; [reflexivity|].
  change (String c r ++ "/")%string with (String c (r ++ "/")%string).
  cbn [has_delim]. rewrite IH. apply orb_true_r.
Qed.

Lemma strip_prefix_app_slash p : forall r rest,
  strip_prefix p (r ++ "/")%string = Some rest -> rest = EmptyString \/ has_delim rest = true.
Proof.
  induction p as [|a p IH]; intros r rest.
  - cbn [strip_prefix]. intros [= <-]. right. apply has_delim_app_slash.
  - destruct r as [|b r].
    + change ("" ++ "/")%string with "/"%string. cbn [strip_prefix].
      destruct (Ascii.eqb a "/"); [|done]. destruct p; cbn [strip_prefix]; [|done].
      intros [= <-]. by left.
    + change (String b r ++ "/")%string with (String b (r ++ "/")%string).
      cbn [strip_prefix]. destruct (Ascii.eqb a b); [apply IH|done].
Qed.

Lemma bare_origin_app_slash r : bare_origin (r ++ "/")%string = false.
Proof.
  assert (forall rest, rest = EmptyString \/ has_delim rest = true -> no_path rest = false)
    as Hno.
  { intros rest [->| H]; [done|]. unfold no_path. rewrite H. by destruct (String.eqb _ _). }
  unfold bare_origin.
  destruct (strip_prefix "https://" (r ++ "/")%string) as [rest|] eqn:E1.
  { by apply Hno, (strip_prefix_app_slash "https://" r). }
  destruct (strip_prefix "http://" (r ++ "/")%string) as [rest|] eqn:E2; [|done].
  by apply Hno, (strip_prefix_app_slash "http://" r).
Qed.

(** The normalising sample returns its own results as they are. *)
Lemma sample_href_normalising_stable u b r b' :
  sample_href_normalising u b = Some r -> sample_href_normalising r b' = Some r.
Proof.
  unfold sample_href_normalising.
  destruct (sample_href u b) as [r0|] eqn:E; [|done].
  pose proof (sample_href_yields_absolute u b r0 E) as Hs.
  destruct (bare_origin r0) eqn:Eb; intros [= <-].
  - rewrite (sample_href_absolute (r0 ++ "/")%string b' (has_scheme_app r0 "/" Hs)).
    by rewrite bare_origin_app_slash.
  - rewrite (sample_href_absolute r0 b' Hs). by rewrite Eb.
Qed.

Lemma resolveImportMap_resolves_targets_witness :
  ((forall u r, sample_href_normalising u project_url = Some r ->
                sample_href_normalising r project_url = Some r) /\
   well_formed sample_href_normalising store_user map_user project_url) /\
  exists st',
    resolveImportMap sample_href_normalising map_user project_url store_user = (Ok tt, st') /\
    forall l, l ∈ specifier_maps map_user ->
      (forall k u, get store_user l !! k = Some u ->
         exists r, sample_href_normalising u project_url = Some r /\
                   get st' l !! k = Some r /\
                   (get st' l !! k = Some u <->
                    sample_href_normalising u project_url = Some u)) /\
      (forall k, get store_user l !! k = None -> get st' l !! k = None).
Proof.
  assert (forall u r, sample_href_normalising u project_url = Some r ->
                      sample_href_normalising r project_url = Some r) as Hstable.
  { intros u r. apply sample_href_normalising_stable. }
  assert (well_formed sample_href_normalising store_user map_user project_url) as Hwf.
  { apply well_formed_check. vm_compute. reflexivity. }
  split; [by split|].
  exact (resolveImportMap_resolves_targets sample_href_normalising
           store_user map_user project_url Hstable Hwf).
Defined.

(** C8, counterexample.  A target that is an absolute URL is not always
    left as it is: the constructor returns ["https://cdn"] as
    ["https://cdn/"], and that is what the map holds after the call; the
    target ["https://cdn/x.js"] beside it is kept. *)
Lemma absolute_target_is_normalised :
  has_scheme "https://cdn" = true /\
  well_formed sample_href_normalising store_bare map_bare project_url /\
  get store_bare 0%nat !! "cdn"%string = Some "https://cdn"%string /\
  fst (resolveImportMap sample_href_normalising map_bare project_url store_bare) = Ok tt /\
  get (snd (resolveImportMap sample_href_normalising map_bare project_url store_bare))
      0%nat !! "cdn"%string = Some "https://cdn/"%string /\
  get (snd (resolveImportMap sample_href_normalising map_bare project_url store_bare))
      0%nat !! "x"%string = Some "https://cdn/x.js"%string.
Proof.
  split; [reflexivity|]. split; [apply well_formed_check; vm_compute; reflexivity|].
  vm_compute. by repeat split.
Qed.

(** The example of the specification: ["./bar.js"] against
    ["https://example.com/project/"], next to an absolute entry. *)
Example resolveImportMap_example :
  let st' := snd (resolveImportMap sample_href map_user project_url store_user) in
  get st' 0%nat !! "foo"%string = Some "https://example.com/project/bar.js"%string /\
  get st' 0%nat !! "cdn"%string = Some "https://cdn/x.js"%string /\
  get st' 1%nat !! "dep"%string = Some "https://example.com/project/dep.js"%string.
Proof. vm_compute. by repeat split. Qed.

(** C6, counterexample.  After [getImportMap(userMap, url)], and after
    [resolveImportMap(userMap, url)], the caller's map is not what it was:
    its relative targets have been overwritten with resolved URLs. *)
Lemma getImportMap_mutates_user_map :
  get store_user 0%nat !! "foo"%string = Some "./bar.js"%string /\
  get (snd (getImportMap sample_href lume_url (Some map_user) (Some project_url) store_user))
      0%nat !! "foo"%string = Some "https://example.com/project/bar.js"%string /\
  get (snd (getImportMap sample_href lume_url (Some map_user) (Some project_url) store_user))
      1%nat !! "dep"%string = Some "https://example.com/project/dep.js"%string /\
  get (snd (resolveImportMap sample_href map_user project_url store_user))
      0%nat !! "foo"%string = Some "https://example.com/project/bar.js"%string.
Proof. vm_compute. by repeat split. Qed.

Lemma resolution_rewrites_in_place_witness :
  (sample_href "./mod.ts" lume_url = Some "https://deno.land/x/lume@v1.7.0/mod.ts"%string /\
   sample_href "./" lume_url = Some lume_url /\
   well_formed sample_href store_user map_user project_url) /\
  forall l, l ∈ specifier_maps map_user ->
    get (snd (getImportMap sample_href lume_url (Some map_user) (Some project_url) store_user)) l =
    resolved sample_href project_url (get store_user l).
Proof.
  assert (well_formed sample_href store_user map_user project_url) as Hwf.
  { apply well_formed_check. vm_compute. reflexivity. }
  split; [split; [reflexivity|split; [reflexivity|exact Hwf]]|].
  exact (proj2 (proj2 (resolution_rewrites_in_place sample_href lume_url has_scheme
           sample_href_absolute sample_href_yields_absolute map_user store_user))
           project_url _ _ eq_refl eq_refl Hwf).
Defined.

Lemma getImportMap_overlays_user_imports_witness :
  (sample_href "./mod.ts" lume_url = Some "https://deno.land/x/lume@v1.7.0/mod.ts"%string /\
   sample_href "./" lume_url = Some lume_url /\
   well_formed sample_href store_user map_user project_url) /\
  getImportMap sample_href lume_url None None store_user =
    (Ok {| imports := 2%nat; scopes := None |},
     store_user ++ [canonical_imports "https://deno.land/x/lume@v1.7.0/mod.ts" lume_url]) /\
  size (canonical_imports "https://deno.land/x/lume@v1.7.0/mod.ts" lume_url) = 3%nat /\
  exists r st',
    getImportMap sample_href lume_url (Some map_user) (Some project_url) store_user
      = (Ok r, st') /\
    scopes r = scopes map_user /\
    get st' (imports r) !! "foo"%string = Some "https://example.com/project/bar.js"%string /\
    get st' (imports r) !! "cdn"%string = Some "https://cdn/x.js"%string /\
    get st' (imports r) !! "lume/"%string = Some lume_url.
Proof.
  assert (well_formed sample_href store_user map_user project_url) as Hwf.
  { apply well_formed_check. vm_compute. reflexivity. }
  split; [split; [reflexivity|split; [reflexivity|exact Hwf]]|].
  pose proof (getImportMap_overlays_user_imports sample_href lume_url
                "https://deno.land/x/lume@v1.7.0/mod.ts" lume_url store_user
                eq_refl eq_refl) as (H1 & _ & H3 & _ & _ & H6).
  split; [exact (H1 None)|]. split; [exact H3|].
  destruct (H6 map_user project_url
              (fun u r => sample_href_stable u project_url r project_url) Hwf)
    as (r & st' & Hrun & Hsc & Hk).
  exists r, st'. split; [exact Hrun|]. split; [exact Hsc|].
  rewrite !Hk. vm_compute. by repeat split.
Defined.

(** A user entry wins over an entry of Lume with the same specifier. *)
Example getImportMap_user_entry_wins :
  let st := [ ({[ "lume/" := "https://example.com/my-lume/" ]} : SpecifierMap) ]%string in
  let r := getImportMap sample_href lume_url
             (Some {| imports := 0%nat; scopes := None |}) None st in
  fst r = Ok {| imports := 2%nat; scopes := None |} /\
  get (snd r) 2%nat !! "lume/"%string = Some "https://example.com/my-lume/"%string /\
  get (snd r) 2%nat !! "lume"%string = Some "https://deno.land/x/lume@v1.7.0/mod.ts"%string.
Proof. vm_compute. by repeat split. Qed.

(** *** Failure and what it leaves behind *)

Section failure.
Variable href : string -> string -> option string.

Lemma keeps_refl base st : keeps href base st st.
Proof. split; [done|]. intros l. split; [done|]. intros k u' H. by left. Qed.

Lemma keeps_trans base st1 st2 st3 :
  keeps href base st1 st2 -> keeps href base st2 st3 -> keeps href base st1 st3.
Proof.
  intros [H1 H2] [H3 H4]. split; [congruence|].
  intros l. destruct (H2 l) as [Hd2 Hp2]. destruct (H4 l) as [Hd4 Hp4].
  split; [congruence|]. intros k u' Hk.
  destruct (Hp4 k u' Hk) as [H|H]; [by apply Hp2|by right].
Qed.

Lemma set_target_keeps base l k u r st :
  is_Some (get st l !! k) -> href u base = Some r ->
  keeps href base st (snd (set_target l k r st)).
Proof.
  intros Hk Hr. unfold set_target. simpl. split; [by rewrite length_insert|].
  intros l'. destruct (decide (l = l')) as [<-|Hne].
  - destruct (decide (l < length st)%nat) as [Hl|Hl].
    + rewrite get_insert_eq by done. split.
      * by apply dom_insert_lookup_L.
      * intros k' u'. destruct (decide (k = k')) as [<-|Hne].
        -- rewrite lookup_insert_eq. intros [= <-]. right. by exists u.
        -- rewrite lookup_insert_ne by done. by left.
    + rewrite list_insert_ge by lia. split; [done|]. intros k' u' H. by left.
  - unfold get. rewrite list_lookup_insert_ne by done. split; [done|].
    intros k' u' H. by left.
Qed.

Lemma resolveSpecifierMap_keeps l base st :
  keeps href base st (snd (resolveSpecifierMap href l base st)).
Proof.
  unfold resolveSpecifierMap, bind, read. simpl.
  apply (for_each_invariant (keeps href base st)); [|apply keeps_refl].
  intros [k u] st1 Hin H1. unfold resolve_entry, bind, new_URL_href.
  destruct (href u base) as [r|] eqn:Hr; simpl; [|done].
  eapply keeps_trans; [exact H1|]. apply (set_target_keeps base l k u r); [|done].
  apply elem_of_map_to_list in Hin.
  destruct H1 as [_ H1]. destruct (H1 l) as [Hd _].
  apply elem_of_dom. rewrite Hd. apply elem_of_dom. by eexists.
Qed.

Lemma resolveImportMap_keeps m base st :
  keeps href base st (snd (resolveImportMap href m base st)).
Proof.
  rewrite resolveImportMap_unfold.
  apply (for_each_invariant (keeps href base st)); [|apply keeps_refl].
  intros l st1 _ H1. eapply keeps_trans; [exact H1|]. apply resolveSpecifierMap_keeps.
Qed.

Lemma resolve_loop_throws l base k u : forall (es : list (string * string)) (st : store),
  (k, u) ∈ es -> href u base = None ->
  fst (for_each es (resolve_entry href l base) st) = Throw TypeError.
Proof.
  induction es as [|[k' u'] es IH]; intros st Hin Hu; [by apply elem_of_nil in Hin|].
  cbn [for_each]. unfold bind at 1. unfold resolve_entry at 1, bind at 1, new_URL_href at 1.
  destruct (href u' base) as [r|] eqn:Hr; simpl.
  - apply IH; [|done]. apply elem_of_cons in Hin as [[= -> ->]|Hin]; [congruence|done].
  - done.
Qed.

Lemma resolveSpecifierMap_throws l base st k u :
  get st l !! k = Some u -> href u base = None ->
  fst (resolveSpecifierMap href l base st) = Throw TypeError.
Proof.
  intros Hk Hu. unfold resolveSpecifierMap, bind, read. simpl.
  apply (resolve_loop_throws l base k u); [|done]. by apply elem_of_map_to_list.
Qed.

Lemma resolve_loop_fuel l base : forall (es : list (string * string)) (st : store),
  fst (for_each es (resolve_entry href l base) st) <> OutOfFuel.
Proof.
  induction es as [|[k' u'] es IH]; intros st; [done|].
  cbn [for_each]. unfold bind at 1. unfold resolve_entry at 1, bind at 1, new_URL_href at 1.
  destruct (href u' base) as [r|]; simpl; [apply IH|done].
Qed.

Lemma resolveSpecifierMap_fuel l base st :
  fst (resolveSpecifierMap href l base st) <> OutOfFuel.
Proof. unfold resolveSpecifierMap, bind, read. simpl. apply resolve_loop_fuel. Qed.

Lemma resolve_all_throws base l k u : forall (ls : list loc) (st : store),
  l ∈ ls -> get st l !! k = Some u -> href u base = None ->
  fst (for_each ls (fun l => resolveSpecifierMap href l base) st) = Throw TypeError.
Proof.
  induction ls as [|l' ls IH]; intros st Hin Hk Hu; [by apply elem_of_nil in Hin|].
  cbn [for_each]. unfold bind at 1.
  destruct (decide (l' = l)) as [->|Hne].
  - pose proof (resolveSpecifierMap_throws l base st k u Hk Hu) as Ht.
    destruct (resolveSpecifierMap href l base st) as [[[]|e|] st1]; simpl in *; done.
  - pose proof (resolveSpecifierMap_only_changes href l' base st) as [_ Hsame].
    pose proof (resolveSpecifierMap_fuel l' base st) as Hf.
    destruct (resolveSpecifierMap href l' base st) as [[[]|[]|] st1]; simpl in *; try done.
    apply IH; [|unfold get; rewrite Hsame; [done|]|done].
    + apply elem_of_cons in Hin as [->|Hin]; done.
    + intros ?%list_elem_of_singleton. congruence.
Qed.

Lemma getImportMap_throws baseUrl (m : ImportMap) base (st : store) l k u :
  l ∈ specifier_maps m -> get st l !! k = Some u -> href u base = None ->
  fst (getImportMap href baseUrl (Some m) (Some base) st) = Throw TypeError.
Proof.
  intros Hl Hk Hu. unfold getImportMap, bind, new_URL_href.
  destruct (href "./mod.ts" baseUrl) as [mod_ts|]; [|done].
  destruct (href "./" baseUrl) as [root|]; [|done].
  unfold ret, alloc_map. simpl.
  assert (l < length st)%nat as Hlt.
  { unfold get in Hk. destruct (st !! l) eqn:E; [by eapply lookup_lt_Some|].
    by rewrite lookup_empty in Hk. }
  set (st1 := st ++ _).
  assert (fst (resolveImportMap href m base st1) = Throw TypeError) as Ht.
  { rewrite resolveImportMap_unfold. apply (resolve_all_throws base l k u); [done| |done].
    unfold st1. by rewrite get_app_l. }
  destruct (resolveImportMap href m base st1) as [[[]|[]|] st2]; simpl in *; done.
Qed.

(** The imports are resolved before any scope is visited: a failure in a
    scope comes after the imports have been rewritten. *)
Lemma failed_scope_keeps_imports (m : ImportMap) base (st : store) l k u :
  (imports m < length st)%nat -> resolvable href base (get st (imports m)) ->
  imports m ∉ scope_maps m -> l ∈ scope_maps m ->
  get st l !! k = Some u -> href u base = None ->
  fst (resolveImportMap href m base st) = Throw TypeError /\
  get (snd (resolveImportMap href m base st)) (imports m) =
    resolved href base (get st (imports m)).
Proof.
  intros Hlt Hres Hnot Hl Hk Hu.
  rewrite resolveImportMap_unfold. unfold specifier_maps. cbn [for_each]. unfold bind.
  rewrite (resolveSpecifierMap_ok href (imports m) base st Hlt Hres).
  set (st1 := <[imports m := resolved href base (get st (imports m))]> st).
  split.
  - apply (resolve_all_throws base l k u); [done| |done].
    unfold st1, get. rewrite list_lookup_insert_ne; [exact Hk|].
    intros Heq. apply Hnot. by rewrite Heq.
  - apply (for_each_invariant
             (fun s => get s (imports m) = resolved href base (get st (imports m)))).
    + intros x s Hx Hs.
      pose proof (resolveSpecifierMap_only_changes href x base s) as [_ Hsame].
      rewrite <- Hs. unfold get. rewrite Hsame; [done|].
      intros Heq%list_elem_of_singleton. apply Hnot. by rewrite Heq.
    + unfold st1. by apply get_insert_eq.
Qed.

End failure.


(** *** Further properties of the import-map functions *)

(** X9.  Whatever its outcome, [resolveImportMap] adds no object and no
    specifier and removes none: after the call, also after a call that
    threw midway, every specifier map has the specifiers it had, and every
    target is either the former target or a URL returned by the URL
    constructor.  A failed call is not undone: the imports are resolved
    before any scope is visited, so when the targets of [imports] are all
    accepted ([imports] being no scope object itself) and some scope holds
    a target that is rejected, the call throws and leaves [imports] with
    its targets resolved. *)
Theorem resolution_keeps_specifiers (href : string -> string -> option string)
    (m : ImportMap) (base : string) (st : store) :
  let st' := snd (resolveImportMap href m base st) in
  length st' = length st /\
  (forall l,
     dom (get st' l) = dom (get st l) /\
     forall k u', get st' l !! k = Some u' ->
       get st l !! k = Some u' \/ exists u, href u base = Some u') /\
  (forall l k u,
     (imports m < length st)%nat -> resolvable href base (get st (imports m)) ->
     imports m ∉ scope_maps m -> l ∈ scope_maps m ->
     get st l !! k = Some u -> href u base = None ->
     fst (resolveImportMap href m base st) = Throw TypeError /\
     get st' (imports m) = resolved href base (get st (imports m))).
Proof.
  intros st'. destruct (resolveImportMap_keeps href m base st) as [Hlen Hkeeps].
  split; [exact Hlen|]. split; [exact Hkeeps|].
  intros l k u. apply failed_scope_keeps_imports.
Qed.

(** The conditions hold of the test input. *)
Lemma bad_scope_conditions :
  (imports map_bad_scope < length store_bad_scope)%nat /\
  resolvable sample_href_strict project_url (get store_bad_scope (imports map_bad_scope)) /\
  (imports map_bad_scope ∉ scope_maps map_bad_scope) /\
  (1%nat ∈ scope_maps map_bad_scope) /\
  get store_bad_scope 1%nat !! "bad"%string = Some "https://exa mple.com/x.js"%string /\
  sample_href_strict "https://exa mple.com/x.js" project_url = None.
Proof.
  assert (scope_maps map_bad_scope = [1%nat]) as Hsc by (vm_compute; reflexivity).
  split; [simpl; lia|]. split; [|split; [|split; [|split]]].
  - change (get store_bad_scope (imports map_bad_scope))
      with ({[ "foo"%string := "./bar.js"%string ]} : SpecifierMap).
    intros k u [<- <-]%lookup_singleton_Some. by eexists.
  - rewrite Hsc. intros Hin%list_elem_of_singleton. discriminate Hin.
  - rewrite Hsc. by left.
  - by vm_compute.
  - by vm_compute.
Qed.

Lemma resolution_keeps_specifiers_witness :
  fst (resolveImportMap sample_href_strict map_bad_scope project_url store_bad_scope)
    = Throw TypeError /\
  get (snd (resolveImportMap sample_href_strict map_bad_scope project_url store_bad_scope))
      (imports map_bad_scope) =
    resolved sample_href_strict project_url (get store_bad_scope (imports map_bad_scope)).
Proof.
  destruct bad_scope_conditions as (H1 & H2 & H3 & H4 & H5 & H6).
  exact (proj2 (proj2 (resolution_keeps_specifiers sample_href_strict map_bad_scope
                         project_url store_bad_scope))
           1%nat "bad"%string "https://exa mple.com/x.js"%string H1 H2 H3 H4 H5 H6).
Defined.

(** The imports of the test input after the failed call. *)
Example failed_call_leaves_imports_resolved :
  get store_bad_scope 0%nat !! "foo"%string = Some "./bar.js"%string /\
  fst (resolveImportMap sample_href_strict map_bad_scope project_url store_bad_scope)
    = Throw TypeError /\
  get (snd (resolveImportMap sample_href_strict map_bad_scope project_url store_bad_scope))
      0%nat !! "foo"%string = Some "https://example.com/project/bar.js"%string.
Proof. vm_compute. by repeat split. Qed.

(** X10.  A malformed target fails the whole call: when some specifier map
    of the import map holds a target the URL constructor rejects,
    [resolveImportMap] throws a [TypeError], and so does
    [getImportMap(userMap, url)], which then returns no map at all. *)
Theorem unresolvable_target_throws (href : string -> string -> option string)
    (m : ImportMap) (base : string) (st : store) (l : loc) (k u : string) :
  l ∈ specifier_maps m -> get st l !! k = Some u -> href u base = None ->
  fst (resolveImportMap href m base st) = Throw TypeError /\
  forall baseUrl,
    fst (getImportMap href baseUrl (Some m) (Some base) st) = Throw TypeError.
Proof.
  intros Hl Hk Hu. split.
  - rewrite resolveImportMap_unfold. by apply (resolve_all_throws href base l k u).
  - intros baseUrl. by apply (getImportMap_throws href baseUrl m base st l k u).
Qed.

Lemma unresolvable_target_throws_witness :
  (0%nat ∈ specifier_maps map_malformed /\
   get store_malformed 0%nat !! "bad"%string = Some "https://exa mple.com/x.js"%string /\
   sample_href_strict "https://exa mple.com/x.js" project_url = None) /\
  fst (resolveImportMap sample_href_strict map_malformed project_url store_malformed) =
    Throw TypeError /\
  forall baseUrl,
    fst (getImportMap sample_href_strict baseUrl (Some map_malformed) (Some project_url)
           store_malformed) = Throw TypeError.
Proof.
  assert (0%nat ∈ specifier_maps map_malformed) as H1 by (by left).
  split; [split; [exact H1|split; reflexivity]|].
  exact (unresolvable_target_throws sample_href_strict map_malformed project_url
           store_malformed 0%nat "bad"%string "https://exa mple.com/x.js"%string
           H1 eq_refl eq_refl).
Defined.

Section idempotence.
Variable href : string -> string -> option string.
Variable is_absolute : string -> bool.
Hypothesis href_absolute : forall u b, is_absolute u = true -> href u b = Some u.
Hypothesis href_yields_absolute : forall u b r, href u b = Some r -> is_absolute r = true.

Lemma resolved_absolute base (m : SpecifierMap) :
  (forall k u, m !! k = Some u -> is_absolute u = true) -> resolved href base m = m.
Proof.
  intros Habs. apply map_eq. intros k. unfold resolved. rewrite lookup_omap.
  destruct (m !! k) as [u|] eqn:E; [|done]. simpl. apply href_absolute. by eapply Habs.
Qed.

Lemma resolved_targets_absolute base (m : SpecifierMap) k r :
  resolved href base m !! k = Some r -> is_absolute r = true.
Proof.
  unfold resolved. rewrite lookup_omap. destruct (m !! k) as [u|]; [|done]. simpl.
  apply href_yields_absolute.
Qed.

(** X11.  Resolution is idempotent: once [resolveImportMap] has succeeded on
    an import map, a second call on the same map, against the same or any
    other base, succeeds and changes nothing. *)
Theorem resolution_is_idempotent (st : store) (m : ImportMap) (base base' : string) :
  well_formed href st m base ->
  exists st', resolveImportMap href m base st = (Ok tt, st') /\
              resolveImportMap href m base' st' = (Ok tt, st').
Proof.
  intros Hwf.
  destruct (resolveImportMap_ok href is_absolute href_absolute href_yields_absolute st m base Hwf)
    as (st' & Hrun & [Hlen Hout] & Hin).
  exists st'. split; [done|].
  assert (well_formed href st' m base') as Hwf'.
  { intros l Hl. destruct (Hwf l Hl) as [Hlt _]. split; [lia|].
    intros k r Hk. rewrite (Hin l Hl) in Hk. exists r.
    apply href_absolute. by eapply resolved_targets_absolute. }
  destruct (resolveImportMap_ok href is_absolute href_absolute href_yields_absolute st' m base' Hwf')
    as (st'' & Hrun' & [Hlen' Hout'] & Hin').
  rewrite Hrun'. f_equal. apply list_eq. intros l.
  destruct (decide (l ∈ specifier_maps m)) as [Hl|Hl]; [|by apply Hout'].
  destruct (Hwf l Hl) as [Hlt _].
  specialize (Hin' l Hl). rewrite resolved_absolute in Hin'.
  - unfold get in Hin'.
    destruct (lookup_lt_is_Some_2 st' l ltac:(lia)) as [m1 H1].
    destruct (lookup_lt_is_Some_2 st'' l ltac:(lia)) as [m2 H2].
    rewrite H1, H2 in *. by subst.
  - intros k u Hk. rewrite (Hin l Hl) in Hk. by eapply resolved_targets_absolute.
Qed.

End idempotence.

Lemma resolution_is_idempotent_witness :
  well_formed sample_href store_user map_user project_url /\
  exists st', resolveImportMap sample_href map_user project_url store_user = (Ok tt, st') /\
              resolveImportMap sample_href map_user lume_url st' = (Ok tt, st').
Proof.
  assert (well_formed sample_href store_user map_user project_url) as Hwf.
  { apply well_formed_check. vm_compute. reflexivity. }
  split; [exact Hwf|].
  exact (resolution_is_idempotent sample_href has_scheme
           sample_href_absolute sample_href_yields_absolute
           store_user map_user project_url lume_url Hwf).
Defined.

(** X12.  What [getImportMap] shares with its argument: the [imports] of a
    returned map is an object created by the call, different from every
    specifier map of [userMap] and from the object holding the three entries
    of Lume, so writing to it leaves [userMap.imports] alone; the scope maps
    of the result are the very objects of [userMap]. *)
Theorem getImportMap_shares_scopes_only (href : string -> string -> option string)
    (baseUrl : string) (userMap : ImportMap) (url : option string)
    (st st' : store) (r : ImportMap) :
  (forall l, l ∈ specifier_maps userMap -> (l < length st)%nat) ->
  getImportMap href baseUrl (Some userMap) url st = (Ok r, st') ->
  imports r = S (length st) /\ length st' = S (S (length st)) /\
  (imports r ∉ specifier_maps userMap) /\
  scope_maps r = scope_maps userMap.
Proof.
  intros Hvalid Hrun. unfold getImportMap, bind, new_URL_href in Hrun.
  destruct (href "./mod.ts" baseUrl) as [mod_ts|]; [|done].
  destruct (href "./" baseUrl) as [root|]; [|done].
  unfold ret, alloc_map, read in Hrun. simpl in Hrun.
  set (st1 := st ++ _) in Hrun.
  assert (length st1 = S (length st)) as Hlen1.
  { unfold st1. rewrite length_app. simpl. lia. }
  assert (forall st2, length st2 = length st1 ->
            (Ok {| imports := length st2; scopes := scopes userMap |},
             st2 ++ [get st2 (imports userMap) ∪ get st2 (length st)]) = (Ok r, st') ->
            imports r = S (length st) /\ length st' = S (S (length st)) /\
            (imports r ∉ specifier_maps userMap) /\
            scope_maps r = scope_maps userMap) as Hfin.
  { intros st2 Hlen2 [= <- <-]. simpl. rewrite length_app. simpl.
    split; [lia|]. split; [lia|]. split; [|done].
    intros Hin%Hvalid. lia. }
  destruct url as [u|].
  - pose proof (resolveImportMap_only_changes href userMap u st1) as [Hlen2 _].
    destruct (resolveImportMap href userMap u st1) as [[[]|e|] st2]; simpl in *; try done.
    by apply (Hfin st2).
  - simpl in Hrun. by apply (Hfin st1).
Qed.

Lemma getImportMap_shares_scopes_only_witness :
  (forall l, l ∈ specifier_maps map_user -> (l < length store_user)%nat) /\
  imports {| imports := 3%nat; scopes := scopes map_user |} = S (length store_user) /\
  length (snd (getImportMap sample_href lume_url (Some map_user) (Some project_url)
                 store_user)) = S (S (length store_user)) /\
  (imports {| imports := 3%nat; scopes := scopes map_user |} ∉ specifier_maps map_user) /\
  scope_maps {| imports := 3%nat; scopes := scopes map_user |} = scope_maps map_user.
Proof.
  assert (forall l, l ∈ specifier_maps map_user -> (l < length store_user)%nat) as Hv.
  { intros l Hl. vm_compute in Hl.
    apply elem_of_cons in Hl as [->|Hl]; [simpl; lia|].
    apply elem_of_cons in Hl as [->|Hl]; [simpl; lia|]. by apply elem_of_nil in Hl. }
  split; [exact Hv|].
  refine (getImportMap_shares_scopes_only sample_href lume_url map_user (Some project_url)
            store_user
            (snd (getImportMap sample_href lume_url (Some map_user) (Some project_url)
                    store_user))
            {| imports := 3%nat; scopes := scopes map_user |} Hv _).
  vm_compute. reflexivity.
Defined.


Section feeding_back.
Variable href : string -> string -> option string.
Variable baseUrl : string.
Variable is_absolute : string -> bool.
Hypothesis href_absolute : forall u b, is_absolute u = true -> href u b = Some u.
Hypothesis href_yields_absolute : forall u b r, href u b = Some r -> is_absolute r = true.

Lemma canonical_absolute mod_ts root k u :
  href "./mod.ts" baseUrl = Some mod_ts -> href "./" baseUrl = Some root ->
  canonical_imports mod_ts root !! k = Some u -> is_absolute u = true.
Proof.
  intros Hm Hr. unfold canonical_imports.
  rewrite !lookup_insert_Some, lookup_empty.
  intros [[_ <-]|[_ [[_ <-]|[_ [[_ <-]|[_ ?]]]]]]; try done;
    by eapply href_yields_absolute.
Qed.

(** X22.  Feeding the result back changes nothing: when
    [getImportMap(userMap, url)] has returned a map, calling [getImportMap]
    again on that map, with the same or any other [url], returns a map with
    the same imports and the same scopes, and leaves the scope maps as they
    are.  The targets are absolute after the first call, and the three
    entries of Lume are laid under the same entries again. *)
Theorem getImportMap_is_idempotent (st : store) (userMap : ImportMap)
    (url url' mod_ts root : string) :
  href "./mod.ts" baseUrl = Some mod_ts -> href "./" baseUrl = Some root ->
  well_formed href st userMap url ->
  exists r1 st1 r2 st2,
    getImportMap href baseUrl (Some userMap) (Some url) st = (Ok r1, st1) /\
    getImportMap href baseUrl (Some r1) (Some url') st1 = (Ok r2, st2) /\
    get st2 (imports r2) = get st1 (imports r1) /\
    scopes r2 = scopes r1 /\
    forall l, l ∈ scope_maps r1 -> get st2 l = get st1 l.
Proof.
  intros Hm Hr Hwf.
  set (canon := canonical_imports mod_ts root).
  (* the first call *)
  rewrite (getImportMap_user_store href baseUrl userMap (Some url) st mod_ts root Hm Hr).
  assert (well_formed href (st ++ [canon]) userMap url) as Hwf0.
  { intros l Hl. destruct (Hwf l Hl) as [H1 H2]. split.
    - rewrite length_app. lia.
    - by rewrite get_app_l. }
  destruct (resolveImportMap_ok href is_absolute href_absolute href_yields_absolute
              _ userMap url Hwf0) as (sa & Hrun & [Hlen Hout] & Hin).
  fold canon in Hrun, Hlen, Hout, Hin. cbv zeta. fold canon. rewrite Hrun.
  assert (length sa = S (length st)) as Hlen'.
  { rewrite Hlen, length_app. simpl. lia. }
  assert (forall l, l ∈ specifier_maps userMap -> (l < length st)%nat) as Hvalid.
  { intros l Hl. by destruct (Hwf l Hl). }
  assert (get sa (length st) = canon) as Hcanon.
  { unfold get. rewrite Hout.
    - by rewrite list_lookup_middle.
    - intros Hl%Hvalid. lia. }
  set (ours := get sa (imports userMap) ∪ get sa (length st)).
  set (r1 := {| imports := length sa; scopes := scopes userMap |}).
  set (st1 := sa ++ [ours]).
  exists r1, st1.
  (* the second call *)
  rewrite (getImportMap_user_store href baseUrl r1 (Some url') st1 mod_ts root Hm Hr).
  fold canon.
  assert (forall k u, ours !! k = Some u -> is_absolute u = true) as Hours.
  { intros k u. unfold ours. rewrite lookup_union_Some_raw.
    intros [Hk|[_ Hk]].
    - rewrite (Hin (imports userMap) ltac:(by left)) in Hk.
      by eapply (resolved_targets_absolute href is_absolute).
    - rewrite Hcanon in Hk. by eapply canonical_absolute. }
  assert (forall l, l ∈ scope_maps userMap ->
            (l < length st)%nat /\
            forall k u, get sa l !! k = Some u -> is_absolute u = true) as Hscopes.
  { intros l Hl. assert (l ∈ specifier_maps userMap) as Hl' by (by right).
    split; [by apply Hvalid|]. intros k u Hk. rewrite (Hin l Hl') in Hk.
    by eapply (resolved_targets_absolute href is_absolute). }
  assert (forall l, l ∈ specifier_maps r1 ->
            (l < length st1)%nat /\
            forall k u, get (st1 ++ [canon]) l !! k = Some u -> is_absolute u = true) as Hall.
  { intros l [->|Hl]%elem_of_cons.
    - simpl. unfold st1. rewrite length_app. simpl. split; [lia|].
      intros k u. rewrite get_app_l by (rewrite length_app; simpl; lia).
      rewrite get_app_new. apply Hours.
    - destruct (Hscopes l Hl) as [Hlt Habs]. unfold st1. rewrite length_app. simpl.
      split; [lia|]. intros k u.
      rewrite get_app_l by (rewrite length_app; simpl; lia).
      rewrite get_app_l by lia. apply Habs. }
  assert (well_formed href (st1 ++ [canon]) r1 url') as Hwf1.
  { intros l Hl. destruct (Hall l Hl) as [Hlt Habs]. split.
    - rewrite length_app. lia.
    - intros k u Hk. exists u. apply href_absolute. by eapply Habs. }
  destruct (resolveImportMap_ok href is_absolute href_absolute href_yields_absolute
              _ r1 url' Hwf1) as (sb & Hrun' & [Hlenb Houtb] & Hinb).
  rewrite Hrun'.
  assert (forall l, l ∈ specifier_maps r1 -> get sb l = get (st1 ++ [canon]) l) as Hsame.
  { intros l Hl. rewrite (Hinb l Hl). apply (resolved_absolute href is_absolute href_absolute).
    by destruct (Hall l Hl). }
  assert (length sb = S (length st1)) as Hlenb'.
  { rewrite Hlenb, length_app. simpl. lia. }
  assert (length st1 = S (length sa)) as Hlen1.
  { unfold st1. rewrite length_app. simpl. lia. }
  assert (get sb (length st1) = canon) as Hcanonb.
  { unfold get. rewrite Houtb.
    - by rewrite list_lookup_middle.
    - intros [Heq|Hl]%elem_of_cons.
      + simpl in Heq. lia.
      + apply Hscopes in Hl as [Hl _]. lia. }
  eexists _, _. split; [done|]. split; [done|].
  assert (get sb (length sa) = ours) as Hgb.
  { rewrite (Hsame (length sa)) by (by left).
    rewrite get_app_l by lia. unfold st1. by rewrite get_app_new. }
  split; [|split; [done|]].
  - cbn [imports]. rewrite get_app_new. unfold st1 at 2. rewrite get_app_new.
    replace (imports r1) with (length sa) by done. rewrite Hgb, Hcanonb.
    apply map_eq. intros k. rewrite lookup_union. unfold ours.
    rewrite lookup_union, Hcanon.
    by destruct (get sa (imports userMap) !! k), (canon !! k).
  - intros l Hl. cbn [scope_maps scopes r1] in Hl.
    assert (l ∈ scope_maps userMap) as Hl' by done.
    destruct (Hscopes l Hl') as [Hlt _].
    rewrite get_app_l by lia.
    rewrite (Hsame l) by (by right).
    by rewrite get_app_l by lia.
Qed.

End feeding_back.

Lemma getImportMap_is_idempotent_witness :
  (sample_href "./mod.ts" lume_url = Some "https://deno.land/x/lume@v1.7.0/mod.ts"%string /\
   sample_href "./" lume_url = Some lume_url /\
   well_formed sample_href store_user map_user project_url) /\
  exists r1 st1 r2 st2,
    getImportMap sample_href lume_url (Some map_user) (Some project_url) store_user =
      (Ok r1, st1) /\
    getImportMap sample_href lume_url (Some r1) (Some lume_url) st1 = (Ok r2, st2) /\
    get st2 (imports r2) = get st1 (imports r1) /\
    scopes r2 = scopes r1 /\
    forall l, l ∈ scope_maps r1 -> get st2 l = get st1 l.
Proof.
  assert (well_formed sample_href store_user map_user project_url) as Hwf.
  { apply well_formed_check. vm_compute. reflexivity. }
  split; [split; [reflexivity|split; [reflexivity|exact Hwf]]|].
  exact (getImportMap_is_idempotent sample_href lume_url has_scheme
           sample_href_absolute sample_href_yields_absolute
           store_user map_user project_url lume_url _ _ eq_refl eq_refl Hwf).
Defined.

End ImportMapFacts.

(** ** Facts about the import-map command *)
Module ImportMapCommandFacts.
Import EffFacts ImportMapFacts ImportMapCommand.

(** *** The objects made by [JSON.parse] *)

Lemma scope_locs_lookup (sc : gmap string SpecifierMap) key l :
  scope_locs sc !! key = Some l ->
  exists i sm, l = S i /\ map_to_list sc !! i = Some (key, sm).
Proof.
  unfold scope_locs. intros H%elem_of_list_to_map_2.
  apply elem_of_lookup_imap_1 in H as (i & [k sm] & [= -> ->] & Hi). by exists i, sm.
Qed.

Lemma imap_keys {A B} (l : list (A * B)) (g : nat -> nat) :
  (imap (fun i kv => (fst kv, g i)) l).*1 = l.*1.
Proof.
  revert g. induction l as [|x l IH]; intros g; simpl; [done|].
  f_equal. apply (IH (fun i => g (S i))).
Qed.

Lemma scope_locs_Some (sc : gmap string SpecifierMap) key sm :
  sc !! key = Some sm ->
  exists i, scope_locs sc !! key = Some (S i) /\ map_to_list sc !! i = Some (key, sm).
Proof.
  intros H. apply elem_of_map_to_list, list_elem_of_lookup in H as [i Hi].
  exists i. split; [|done]. unfold scope_locs.
  apply elem_of_list_to_map_1.
  - rewrite (imap_keys (map_to_list sc) S). apply NoDup_fst_map_to_list.
  - apply elem_of_lookup_imap. by exists i, (key, sm).
Qed.

Lemma scope_locs_None (sc : gmap string SpecifierMap) key :
  sc !! key = None -> scope_locs sc !! key = None.
Proof.
  intros H. destruct (scope_locs sc !! key) as [l|] eqn:E; [|done].
  apply scope_locs_lookup in E as (i & sm & _ & Hi).
  apply list_elem_of_lookup_2, elem_of_map_to_list in Hi. congruence.
Qed.

Lemma parsed_store_scope (p : parsed_map) sc i key sm :
  parsed_scopes p = Some sc -> map_to_list sc !! i = Some (key, sm) ->
  (S i < length (parsed_store p))%nat /\ get (parsed_store p) (S i) = sm.
Proof.
  intros Hsc Hi. unfold parsed_store, get. rewrite Hsc. simpl.
  rewrite length_map. split.
  - apply lookup_lt_Some in Hi. lia.
  - change (List.map snd (map_to_list sc)) with ((map_to_list sc).*2).
    by rewrite list_lookup_fmap, Hi.
Qed.

(** Every specifier map of the parsed object is the record of [imports] or
    the record of a scope. *)
Lemma parsed_specifier_maps (p : parsed_map) l :
  l ∈ specifier_maps (parsed_object p) ->
  (l < length (parsed_store p))%nat /\
  (get (parsed_store p) l = parsed_imports p \/
   exists sc key, parsed_scopes p = Some sc /\ sc !! key = Some (get (parsed_store p) l)).
Proof.
  unfold specifier_maps, scope_maps, parsed_object. cbn [imports scopes].
  intros [->|Hl]%elem_of_cons.
  - split; [simpl; lia|]. by left.
  - destruct (parsed_scopes p) as [sc|] eqn:Hsc; [|by apply elem_of_nil in Hl].
    apply list_elem_of_In, in_map_iff in Hl as ([key l'] & Heq & Hin). simpl in Heq. subst l'.
    apply list_elem_of_In, elem_of_map_to_list in Hin.
    apply scope_locs_lookup in Hin as (i & sm & -> & Hi).
    destruct (parsed_store_scope p sc i key sm Hsc Hi) as [Hlt Hget].
    split; [done|]. right. exists sc, key. split; [done|]. rewrite Hget.
    by apply list_elem_of_lookup_2, elem_of_map_to_list in Hi.
Qed.


Lemma scope_loc_member (p : parsed_map) sc key l :
  parsed_scopes p = Some sc -> scope_locs sc !! key = Some l ->
  l ∈ specifier_maps (parsed_object p).
Proof.
  intros Hsc Hl. unfold specifier_maps, scope_maps, parsed_object. cbn [imports scopes].
  rewrite Hsc. apply elem_of_cons. right.
  apply elem_of_map_to_list in Hl.
  apply list_elem_of_In, in_map_iff. exists (key, l). split; [done|].
  by apply list_elem_of_In.
Qed.

Section command_facts.
Variable href : string -> string -> option string.
Variable baseUrl : string.
Variable new_URL : string -> option string.
Variable realPath : string -> option string.
Variable toFileUrl : string -> option string.
Variable fetch_text : string -> option string.
Variable JSON_parse : string -> option parsed_map.
Variable dirname : string -> string.
Variable brightGreen : string -> string.
Variable ensureDir : string -> bool.
Variable writeTextFile : string -> parsed_map -> bool.

Local Abbreviation read_user_map :=
  (read_user_map href baseUrl new_URL realPath toFileUrl fetch_text JSON_parse).
Local Abbreviation toUrl := (toUrl new_URL realPath toFileUrl).

(** The map of Lume alone. *)
Lemma default_map_canonical mod_ts root :
  href "./mod.ts" baseUrl = Some mod_ts -> href "./" baseUrl = Some root ->
  default_map href baseUrl =
  Some {| parsed_imports := canonical_imports mod_ts root; parsed_scopes := None |}.
Proof.
  intros Hm Hr. unfold default_map, getImportMap, bind, new_URL_href.
  rewrite Hm, Hr. unfold ret, alloc_map, contents. simpl. reflexivity.
Qed.

(** A rejected target makes the [try] block fail. *)
Lemma read_bad_target file mapUrl text p :
  toUrl (AString file) = Some mapUrl -> fetch_text mapUrl = Some text ->
  JSON_parse text = Some p -> has_bad_target href mapUrl p ->
  read_user_map file = None.
Proof.
  intros Hu Hf Hp (m & k & u & Hm & Hk & Hbad).
  unfold ImportMapCommand.read_user_map. rewrite Hu, Hf, Hp.
  assert (exists l, l ∈ specifier_maps (parsed_object p) /\ get (parsed_store p) l = m)
    as (l & Hl & Hget).
  { destruct Hm as [->|(sc & scope & Hsc & Hs)].
    - exists 0%nat. split; [apply elem_of_cons; by left|done].
    - destruct (scope_locs_Some sc scope m Hs) as (i & Hloc & Hi).
      exists (S i). split; [by apply (scope_loc_member p sc scope)|].
      by destruct (parsed_store_scope p sc i scope m Hsc Hi). }
  pose proof (getImportMap_throws href baseUrl (parsed_object p) mapUrl (parsed_store p)
                l k u Hl) as Ht.
  rewrite Hget in Ht. specialize (Ht Hk Hbad).
  by destruct (getImportMap _ _ _ _ _) as [[r|e|] st]; simpl in Ht.
Qed.

Section url_rule.
Variable is_absolute : string -> bool.
Hypothesis href_absolute : forall u b, is_absolute u = true -> href u b = Some u.
Hypothesis href_yields_absolute : forall u b r, href u b = Some r -> is_absolute r = true.

(** The [try] block on a map whose targets are all accepted. *)
Lemma read_resolvable file mapUrl text p mod_ts root :
  href "./mod.ts" baseUrl = Some mod_ts -> href "./" baseUrl = Some root ->
  toUrl (AString file) = Some mapUrl -> fetch_text mapUrl = Some text ->
  JSON_parse text = Some p -> all_targets_resolve href mapUrl p ->
  read_user_map file = Some (updated_map href mapUrl mod_ts root p).
Proof.
  intros Hm Hr Hu Hf Hp [Himp Hscs].
  unfold ImportMapCommand.read_user_map. rewrite Hu, Hf, Hp.
  rewrite (getImportMap_user_store href baseUrl (parsed_object p) (Some mapUrl)
             (parsed_store p) mod_ts root Hm Hr). cbv zeta.
  set (st := parsed_store p). set (st1 := st ++ [canonical_imports mod_ts root]).
  assert (well_formed href st1 (parsed_object p) mapUrl) as Hwf.
  { intros l Hl. destruct (parsed_specifier_maps p l Hl) as [Hlt Hgl]. split.
    - unfold st1. rewrite length_app. fold st in Hlt. lia.
    - unfold st1. rewrite get_app_l by exact Hlt. fold st in Hgl.
      destruct Hgl as [->|(sc & key & Hsc & Hk)]; [done|]. by apply (Hscs sc key). }
  destruct (resolveImportMap_ok href is_absolute href_absolute href_yields_absolute
              st1 (parsed_object p) mapUrl Hwf) as (st2 & Hrun & [Hlen Hout] & Hin).
  rewrite Hrun.
  assert (forall l, l ∈ specifier_maps (parsed_object p) ->
            (l < length st)%nat /\ get st2 l = resolved href mapUrl (get st l)) as Hres.
  { intros l Hl. destruct (parsed_specifier_maps p l Hl) as [Hlt _]. split; [done|].
    rewrite (Hin l Hl). unfold st1. by rewrite get_app_l. }
  assert (get st2 (length st) = canonical_imports mod_ts root) as Hown.
  { unfold get. rewrite Hout.
    - unfold st1. by rewrite list_lookup_middle.
    - intros Hl. apply Hres in Hl as [Hlt _]. lia. }
  assert (length st2 = S (length st)) as Hlen2.
  { rewrite Hlen. unfold st1. rewrite length_app. simpl. lia. }
  f_equal. unfold contents, updated_map. cbn [imports scopes parsed_object].
  f_equal.
  - rewrite get_app_new, Hown.
    destruct (Hres 0%nat) as [_ ->]; [apply elem_of_cons; by left|]. done.
  - destruct (parsed_scopes p) as [sc|] eqn:Hsc; [|done]. simpl. f_equal.
    apply map_eq. intros key. rewrite !lookup_fmap.
    destruct (sc !! key) as [m|] eqn:Hk.
    + destruct (scope_locs_Some sc key m Hk) as (i & Hloc & Hi). rewrite Hloc. simpl.
      destruct (parsed_store_scope p sc i key m Hsc Hi) as [Hlt Hget].
      destruct (Hres (S i)) as [_ Hr2]; [by apply (scope_loc_member p sc key)|].
      fold st in Hlt, Hget.
      rewrite get_app_l by lia. by rewrite Hr2, Hget.
    + by rewrite (scope_locs_None sc key Hk).
Qed.

End url_rule.
End command_facts.

(** A check of [all_targets_resolve] by enumeration. *)
Lemma all_targets_resolve_check href mapUrl (p : parsed_map) :
  let accepted (m : SpecifierMap) :=
    forallb (fun kv => match href (snd kv) mapUrl with Some _ => true | None => false end)
      (map_to_list m) in
  accepted (parsed_imports p) &&
  match parsed_scopes p with
  | Some sc => forallb (fun e => accepted (snd e)) (map_to_list sc)
  | None => true
  end = true ->
  all_targets_resolve href mapUrl p.
Proof.
  intros accepted H.
  assert (forall m, accepted m = true -> resolvable href mapUrl m) as Hacc.
  { intros m Hm k u Hk. unfold accepted in Hm. rewrite forallb_forall in Hm.
    specialize (Hm (k, u) ltac:(by apply list_elem_of_In, elem_of_map_to_list)).
    simpl in Hm. by destruct (href u mapUrl). }
  apply andb_prop in H as [H1 H2]. split; [by apply Hacc|].
  intros sc scope m Hsc Hm. rewrite Hsc in H2. apply Hacc.
  rewrite forallb_forall in H2.
  exact (H2 (scope, m) ltac:(by apply list_elem_of_In, elem_of_map_to_list)).
Qed.


(** *** The outcome of the command *)

Section command_outcome.
Variable href : string -> string -> option string.
Variable baseUrl : string.
Variable new_URL : string -> option string.
Variable realPath : string -> option string.
Variable toFileUrl : string -> option string.
Variable fetch_text : string -> option string.
Variable JSON_parse : string -> option parsed_map.
Variable dirname : string -> string.
Variable brightGreen : string -> string.
Variable ensureDir : string -> bool.
Variable writeTextFile : string -> parsed_map -> bool.

Local Abbreviation importMap :=
  (importMap href baseUrl new_URL realPath toFileUrl fetch_text JSON_parse dirname
     brightGreen ensureDir writeTextFile).
Local Abbreviation toUrl := (toUrl new_URL realPath toFileUrl).

(** X23.  When the import map of the user cannot be read, the command does
    not fail: whether the file cannot be located, cannot be fetched, is not
    JSON, or holds a target that the URL constructor rejects, the command
    writes the map of Lume alone (its three entries, no scopes) to the file
    and reports "Created a new import map file".  So a file that exists but
    holds one malformed target is overwritten and its entries are lost. *)
Theorem unreadable_map_is_replaced (file mod_ts root : string) :
  let lume_map := {| parsed_imports := canonical_imports mod_ts root;
                     parsed_scopes := None |} in
  href "./mod.ts" baseUrl = Some mod_ts -> href "./" baseUrl = Some root ->
  ensureDir (dirname file) = true -> writeTextFile file lume_map = true ->
  (toUrl (AString file) = None \/
   exists mapUrl, toUrl (AString file) = Some mapUrl /\
     (fetch_text mapUrl = None \/
      exists text, fetch_text mapUrl = Some text /\
        (JSON_parse text = None \/
         exists p, JSON_parse text = Some p /\ has_bad_target href mapUrl p))) ->
  importMap file =
  ([EnsureDir (dirname file); WriteTextFile file lume_map;
    ConsoleLog [brightGreen "Created a new import map file"; file]], true).
Proof.
  intros lume_map Hm Hr Hdir Hwrite Hcause.
  assert (read_user_map href baseUrl new_URL realPath toFileUrl fetch_text JSON_parse file
          = None) as Hread.
  { destruct Hcause as [Hu|(mapUrl & Hu & [Hf|(text & Hf & [Hp|(p & Hp & Hbad)])])].
    - unfold read_user_map. by rewrite Hu.
    - unfold read_user_map. by rewrite Hu, Hf.
    - unfold read_user_map. by rewrite Hu, Hf, Hp.
    - by apply (read_bad_target href baseUrl new_URL realPath toFileUrl fetch_text
                  JSON_parse file mapUrl text p). }
  unfold ImportMapCommand.importMap. rewrite Hread.
  rewrite (default_map_canonical href baseUrl mod_ts root Hm Hr).
  fold lume_map. by rewrite Hdir, Hwrite.
Qed.

Section url_rule.
Variable is_absolute : string -> bool.
Hypothesis href_absolute : forall u b, is_absolute u = true -> href u b = Some u.
Hypothesis href_yields_absolute : forall u b r, href u b = Some r -> is_absolute r = true.

(** X24.  When the file is located, fetched and parsed and all its targets
    are accepted by the URL constructor, the command writes back the user's
    map completed with the entries of Lume and reports "Updated the file":
    each of the user's imports is resolved against the URL of the file
    itself, an entry of Lume appears only under a specifier the user does
    not use, and each scope is kept with its targets resolved. *)
Theorem readable_map_is_updated (file mapUrl text mod_ts root : string) (p : parsed_map) :
  href "./mod.ts" baseUrl = Some mod_ts -> href "./" baseUrl = Some root ->
  toUrl (AString file) = Some mapUrl -> fetch_text mapUrl = Some text ->
  JSON_parse text = Some p -> all_targets_resolve href mapUrl p ->
  ensureDir (dirname file) = true ->
  writeTextFile file (updated_map href mapUrl mod_ts root p) = true ->
  let written := updated_map href mapUrl mod_ts root p in
  importMap file =
  ([EnsureDir (dirname file); WriteTextFile file written;
    ConsoleLog [brightGreen "Updated the file"; file]], true) /\
  (forall k, parsed_imports written !! k =
             match parsed_imports p !! k with
             | Some u => href u mapUrl
             | None => canonical_imports mod_ts root !! k
             end) /\
  (forall k u, parsed_imports p !! k = Some u -> is_Some (parsed_imports written !! k)) /\
  match parsed_scopes p, parsed_scopes written with
  | Some sc, Some sc' =>
      forall scope, sc' !! scope = resolved href mapUrl <$> sc !! scope
  | None, None => True
  | _, _ => False
  end.
Proof.
  intros Hm Hr Hu Hf Hp Hall Hdir Hwrite written.
  assert (forall k, parsed_imports written !! k =
             match parsed_imports p !! k with
             | Some u => href u mapUrl
             | None => canonical_imports mod_ts root !! k
             end) as Hentries.
  { intros k. unfold written, updated_map. cbn [parsed_imports].
    destruct Hall as [Himp _].
    destruct (parsed_imports p !! k) as [u|] eqn:Hk.
    - destruct (Himp k u Hk) as [r Hr']. rewrite Hr'.
      apply lookup_union_Some_l. unfold resolved. rewrite lookup_omap, Hk. exact Hr'.
    - rewrite lookup_union_r; [done|]. unfold resolved. by rewrite lookup_omap, Hk. }
  split; [|split; [exact Hentries|split]].
  - unfold ImportMapCommand.importMap.
    rewrite (read_resolvable href baseUrl new_URL realPath toFileUrl fetch_text JSON_parse
               is_absolute href_absolute href_yields_absolute
               file mapUrl text p mod_ts root Hm Hr Hu Hf Hp Hall).
    fold written. fold written in Hwrite. by rewrite Hdir, Hwrite.
  - intros k u Hk. rewrite Hentries, Hk. destruct Hall as [Himp _]. exact (Himp k u Hk).
  - unfold written, updated_map. cbn [parsed_scopes].
    destruct (parsed_scopes p) as [sc|]; [|done].
    intros scope. by rewrite lookup_fmap.
Qed.

End url_rule.
End command_outcome.

Lemma unreadable_map_is_replaced_witness :
  let lume_map := {| parsed_imports := canonical_imports sample_mod_ts lume_url;
                     parsed_scopes := None |} in
  (sample_href_strict "./mod.ts" lume_url = Some sample_mod_ts /\
   sample_href_strict "./" lume_url = Some lume_url /\
   toUrl sample_new_URL sample_realPath sample_toFileUrl (AString "import_map.json")
     = Some sample_file_url /\
   sample_fetch_text sample_file_url = Some sample_text /\
   has_bad_target sample_href_strict sample_file_url sample_parsed_malformed) /\
  sample_importMap sample_href_strict sample_parsed_malformed "import_map.json" =
  ([EnsureDir "."; WriteTextFile "import_map.json" lume_map;
    ConsoleLog ["Created a new import map file"; "import_map.json"]], true)%string.
Proof.
  assert (has_bad_target sample_href_strict sample_file_url sample_parsed_malformed) as Hbad.
  { exists (parsed_imports sample_parsed_malformed), "bad"%string,
      "https://exa mple.com/x.js"%string.
    split; [by left|]. split; [by vm_compute|reflexivity]. }
  split; [by repeat split|].
  apply (unreadable_map_is_replaced sample_href_strict lume_url sample_new_URL
           sample_realPath sample_toFileUrl sample_fetch_text
           (fun _ => Some sample_parsed_malformed) sample_dirname (fun s => s)
           (fun _ => true) (fun _ _ => true)
           "import_map.json" sample_mod_ts lume_url
           eq_refl eq_refl eq_refl eq_refl).
  right. exists sample_file_url. split; [reflexivity|].
  right. exists sample_text. split; [reflexivity|].
  right. exists sample_parsed_malformed. by split.
Defined.

(** A file that does not exist is created with the map of Lume. *)
Example command_creates_missing_file :
  sample_importMap sample_href_strict sample_parsed "maps/import_map.json" =
  ([EnsureDir "maps/";
    WriteTextFile "maps/import_map.json"
      {| parsed_imports := canonical_imports sample_mod_ts lume_url; parsed_scopes := None |};
    ConsoleLog ["Created a new import map file"; "maps/import_map.json"]], true)%string.
Proof. by vm_compute. Qed.

Lemma readable_map_is_updated_witness :
  (sample_href "./mod.ts" lume_url = Some sample_mod_ts /\
   sample_href "./" lume_url = Some lume_url /\
   toUrl sample_new_URL sample_realPath sample_toFileUrl (AString "import_map.json")
     = Some sample_file_url /\
   sample_fetch_text sample_file_url = Some sample_text /\
   all_targets_resolve sample_href sample_file_url sample_parsed) /\
  let written := updated_map sample_href sample_file_url sample_mod_ts lume_url sample_parsed in
  sample_importMap sample_href sample_parsed "import_map.json" =
  ([EnsureDir "."; WriteTextFile "import_map.json" written;
    ConsoleLog ["Updated the file"; "import_map.json"]], true)%string /\
  parsed_imports written !! "foo"%string = Some "file:///site/bar.js"%string /\
  parsed_imports written !! "lume/"%string = Some "https://example.com/lume/"%string /\
  parsed_imports written !! "lume"%string = Some sample_mod_ts.
Proof.
  assert (all_targets_resolve sample_href sample_file_url sample_parsed) as Hall.
  { apply all_targets_resolve_check. by vm_compute. }
  split; [repeat (split; [reflexivity|]); exact Hall|].
  destruct (readable_map_is_updated sample_href lume_url sample_new_URL
           sample_realPath sample_toFileUrl sample_fetch_text
           (fun _ => Some sample_parsed) sample_dirname (fun s => s)
           (fun _ => true) (fun _ _ => true) has_scheme
           sample_href_absolute sample_href_yields_absolute
           "import_map.json" sample_file_url sample_text sample_mod_ts lume_url sample_parsed
           eq_refl eq_refl eq_refl eq_refl eq_refl Hall eq_refl eq_refl)
    as (Hrun & Hentries & _).
  split; [exact Hrun|]. clear Hrun Hall.
  rewrite !Hentries. vm_compute. repeat split.
Defined.

End ImportMapCommandFacts.


(** ** Facts about the upgrade check *)
Module UpgradeFacts.
Import JsNumber JsNumberFacts Upgrade.

Lemma run_bind_vis {A B X} (e : eff X) (h : X -> prog A) (k : A -> prog B) (w : world) :
  interp (prog_bind k (Vis e h)) w =
  match handle e w with
  | (Some x, w') => interp (prog_bind k (h x)) w'
  | (None, w') => (Failed, w')
  end.
Proof. reflexivity. Qed.

(** After the cache test: one reading of the clock, one write of the
    timestamp, one request; the rest touches nothing. *)
Lemma run_check_upgrade (current : string) (stable : bool) (w : world) :
  let url := if stable then versions_url else commits_url in
  let w' := World (<[storage_key := dec (now w)]> (storage w)) (clock w) (S (reads w))
              (network w) (requests w ++ [url]) in
  snd (interp (check_upgrade current stable) w) = w' /\
  (network w url = None -> fst (interp (check_upgrade current stable) w) = Failed).
Proof.
  unfold check_upgrade, now. destruct stable; simpl.
  - destruct (network w versions_url) as [versions|]; simpl; [|done].
    split; [|done].
    destruct (get_field versions "latest") as [latest|]; simpl; [|done].
    by destruct (json_is_string latest current).
  - destruct (network w commits_url) as [commits|]; simpl; [|done].
    split; [|done].
    destruct (get_first commits) as [first|]; simpl; [|done].
    destruct (get_field first "sha") as [latest|]; simpl; [|done].
    by destruct (json_is_string latest current).
Qed.

(** A call that finds a recent timestamp. *)
Lemma run_cached (pathname : string) (w : world) :
  cached w = true ->
  exists w', interp (mustNotifyUpgrade pathname) w = (Returned None, w') /\
             storage w' = storage w /\ requests w' = requests w.
Proof.
  unfold cached, recorded, now. intros Hc. unfold mustNotifyUpgrade.
  destruct (String.prefix "local " (getCurrentVersion pathname)); [by eexists|].
  simpl. destruct (storage w !! storage_key) as [text|]; [|done].
  destruct (String.eqb text "") eqn:Et.
  { apply String.eqb_eq in Et. subst. by rewrite parseInt_empty in Hc. }
  simpl. destruct (parseInt text) as [checked|]; [|done].
  rewrite Hc. by eexists.
Qed.

(** A call of a released copy that finds no recent timestamp. *)
Lemma run_due (pathname : string) (w : world) :
  is_local pathname = false -> cached w = false ->
  exists t,
    (t = clock w (reads w) \/ t = clock w (S (reads w))) /\
    storage (snd (interp (mustNotifyUpgrade pathname) w)) =
      <[storage_key := dec t]> (storage w) /\
    requests (snd (interp (mustNotifyUpgrade pathname) w)) =
      requests w ++ [endpoint pathname] /\
    (network w (endpoint pathname) = None ->
     fst (interp (mustNotifyUpgrade pathname) w) = Failed).
Proof.
  unfold is_local, cached, recorded, now, endpoint. intros Hl Hc. unfold mustNotifyUpgrade.
  rewrite Hl.
  set (stable := is_stable (getCurrentVersion pathname)).
  set (current := getCurrentVersion pathname).
  pose proof (run_check_upgrade current stable w) as [Hw0 Hf0].
  pose proof (run_check_upgrade current stable
                (World (storage w) (clock w) (S (reads w)) (network w) (requests w)))
    as [Hw1 Hf1].
  unfold now in *. cbn [storage clock reads network requests] in Hw1, Hf1.
  remember (check_upgrade current stable) as cont eqn:Hcont.
  simpl.
  destruct (storage w !! storage_key) as [text|].
  - destruct (String.eqb text "").
    + exists (clock w (reads w)). rewrite Hw0. simpl.
      split; [by left|]. split; [done|]. split; [done|exact Hf0].
    + simpl. destruct (parseInt text) as [checked|].
      * rewrite Hc. exists (clock w (S (reads w))). rewrite Hw1. simpl.
        split; [by right|]. split; [done|]. split; [done|exact Hf1].
      * exists (clock w (S (reads w))). rewrite Hw1. simpl.
        split; [by right|]. split; [done|]. split; [done|exact Hf1].
  - exists (clock w (reads w)). rewrite Hw0. simpl.
    split; [by left|]. split; [done|]. split; [done|exact Hf0].
Qed.

(** A local copy never looks at the cache or the network. *)
Lemma run_local (pathname : string) (w : world) :
  is_local pathname = true ->
  interp (mustNotifyUpgrade pathname) w = (Returned None, w).
Proof. unfold is_local, mustNotifyUpgrade. by intros ->. Qed.

(** Once a check is recorded at [t], the cache holds until [t] plus 24
    hours. *)
Lemma cached_after_record (w : world) (t : Z) (kept : gmap string string) :
  storage w = <[storage_key := dec t]> kept ->
  now w - t < expires -> cached w = true.
Proof.
  intros Hs Hn. unfold cached, recorded. rewrite Hs, lookup_insert_eq, parseInt_dec.
  apply Z.gtb_lt. lia.
Qed.

(** *** Claims about [mustNotifyUpgrade] *)

(** C4 (as amended).  For a copy that is not a local one,
    [mustNotifyUpgrade] makes at most one network request per 24-hour
    window of the recorded timestamp.  If a timestamp is recorded and now
    is less than 24 hours after it, the call returns none, makes no
    request and leaves the storage as it is.  Otherwise it records a
    current reading of the clock and makes exactly one request; the
    timestamp is recorded whether or not the request succeeds, a failed
    request fails the call, and any later call made less than 24 hours
    after the recorded time makes no request. *)
Theorem upgrade_check_once_per_day (pathname : string) (w : world) :
  is_local pathname = false ->
  let r := fst (interp (mustNotifyUpgrade pathname) w) in
  let w' := snd (interp (mustNotifyUpgrade pathname) w) in
  (cached w = true ->
     r = Returned None /\ requests w' = requests w /\ storage w' = storage w) /\
  (cached w = false ->
     exists t,
       (t = clock w (reads w) \/ t = clock w (S (reads w))) /\
       storage w' = <[storage_key := dec t]> (storage w) /\
       requests w' = requests w ++ [endpoint pathname] /\
       (network w (endpoint pathname) = None -> r = Failed) /\
       forall later,
         storage later = storage w' -> now later - t < expires ->
         fst (interp (mustNotifyUpgrade pathname) later) = Returned None /\
         requests (snd (interp (mustNotifyUpgrade pathname) later)) = requests later).
Proof.
  intros Hl. simpl. split.
  - intros Hc. destruct (run_cached pathname w Hc) as (w' & -> & Hs & Hr). by simpl.
  - intros Hc. destruct (run_due pathname w Hl Hc) as (t & Ht & Hs & Hr & Hf).
    exists t. split; [done|]. split; [done|]. split; [done|]. split; [done|].
    intros later Hstore Hnow.
    assert (cached later = true) as Hc'.
    { eapply cached_after_record; [|exact Hnow]. by rewrite Hstore, Hs. }
    destruct (run_cached pathname later Hc') as (w' & -> & _ & Hr'). by split.
Qed.

(** *** Concrete checks *)

(** One hour after a recorded check: none, and no request. *)
Example check_one_hour_later :
  interp (mustNotifyUpgrade released_path) (world_at noon (Some (noon - hour)) "v1.8.0") =
  (Returned None,
   World {[ storage_key := dec (noon - hour) ]} (fun _ => noon) 1
     (network (world_at noon None "v1.8.0")) []).
Proof. reflexivity. Qed.

(** Twenty-five hours after: one request, and the timestamp is renewed. *)
Example check_25_hours_later :
  let r := interp (mustNotifyUpgrade released_path)
             (world_at noon (Some (noon - 25 * hour)) "v1.8.0") in
  fst r = Returned (Some {| current := "v1.7.0"; latest := JStr "v1.8.0";
                            command := "lume upgrade" |}) /\
  requests (snd r) = [versions_url] /\
  storage (snd r) = {[ storage_key := dec noon ]}.
Proof. vm_compute. by repeat split. Qed.

(** The running version is the latest one: none, after one request. *)
Example check_up_to_date :
  let r := interp (mustNotifyUpgrade released_path) (world_at noon None "v1.7.0") in
  fst r = Returned None /\ requests (snd r) = [versions_url].
Proof. vm_compute. by repeat split. Qed.

(** The network is down: the call fails, and the timestamp is recorded all
    the same. *)
Example check_offline :
  let r := interp (mustNotifyUpgrade released_path)
             (offline (world_at noon (Some (noon - 25 * hour)) "v1.8.0")) in
  fst r = Failed /\ requests (snd r) = [versions_url] /\
  storage (snd r) = {[ storage_key := dec noon ]}.
Proof. vm_compute. by repeat split. Qed.

Lemma upgrade_check_once_per_day_witness :
  is_local released_path = false /\
  let w := world_at noon (Some (noon - 25 * hour)) "v1.8.0" in
  let r := fst (interp (mustNotifyUpgrade released_path) w) in
  let w' := snd (interp (mustNotifyUpgrade released_path) w) in
  (cached w = true ->
     r = Returned None /\ requests w' = requests w /\ storage w' = storage w) /\
  (cached w = false ->
     exists t,
       (t = clock w (reads w) \/ t = clock w (S (reads w))) /\
       storage w' = <[storage_key := dec t]> (storage w) /\
       requests w' = requests w ++ [endpoint released_path] /\
       (network w (endpoint released_path) = None -> r = Failed) /\
       forall later,
         storage later = storage w' -> now later - t < expires ->
         fst (interp (mustNotifyUpgrade released_path) later) = Returned None /\
         requests (snd (interp (mustNotifyUpgrade released_path) later)) = requests later).
Proof.
  split; [reflexivity|].
  exact (upgrade_check_once_per_day released_path
           (world_at noon (Some (noon - 25 * hour)) "v1.8.0") eq_refl).
Defined.

(** C4, counterexample.  A local copy, 25 hours after the last recorded
    check or with no recorded check at all: no timestamp is written and no
    network request is made. *)
Lemma local_copy_never_checks :
  is_local local_path = true /\
  cached (world_at noon (Some (noon - 25 * hour)) "v1.8.0") = false /\
  requests (snd (interp (mustNotifyUpgrade local_path)
                   (world_at noon (Some (noon - 25 * hour)) "v1.8.0"))) = [] /\
  storage (snd (interp (mustNotifyUpgrade local_path)
                  (world_at noon (Some (noon - 25 * hour)) "v1.8.0"))) =
    {[ storage_key := dec (noon - 25 * hour) ]} /\
  storage (snd (interp (mustNotifyUpgrade local_path) (world_at noon None "v1.8.0"))) = ∅.
Proof. vm_compute. by repeat split. Qed.

Import Text TextFacts.

(** *** The outcome of a check that is due *)

Lemma fst_check_upgrade (current : string) (stable : bool) (w : world) :
  fst (interp (check_upgrade current stable) w) =
  match network w (if stable then versions_url else commits_url) with
  | None => Failed
  | Some reply =>
      match latest_of stable reply with
      | None => Failed
      | Some latest =>
          Returned (if json_is_string latest current then None
                    else Some {| current := current; latest := latest;
                                 command := if stable then "lume upgrade"
                                            else "lume upgrade --dev" |})
      end
  end.
Proof.
  unfold check_upgrade, latest_of. destruct stable; simpl.
  - destruct (network w versions_url) as [versions|]; simpl; [|done].
    destruct (get_field versions "latest") as [latest|]; simpl; [|done].
    by destruct (json_is_string latest current).
  - destruct (network w commits_url) as [commits|]; simpl; [|done].
    destruct (get_first commits) as [first|]; simpl; [|done].
    destruct (get_field first "sha") as [latest|]; simpl; [|done].
    by destruct (json_is_string latest current).
Qed.

(** A call that does not return early runs [check_upgrade] in a world that
    differs from the initial one by at most one reading of the clock. *)
Lemma run_due_world (pathname : string) (w : world) :
  is_local pathname = false -> cached w = false ->
  exists n, (n <= 1)%nat /\
    interp (mustNotifyUpgrade pathname) w =
    interp (check_upgrade (getCurrentVersion pathname)
              (is_stable (getCurrentVersion pathname)))
      (World (storage w) (clock w) (n + reads w) (network w) (requests w)).
Proof.
  unfold is_local, cached, recorded, now. intros Hl Hc. unfold mustNotifyUpgrade.
  rewrite Hl.
  remember (check_upgrade (getCurrentVersion pathname)
              (is_stable (getCurrentVersion pathname))) as cont eqn:Hcont.
  simpl.
  assert (World (storage w) (clock w) (reads w) (network w) (requests w) = w) as Hw
    by (by destruct w).
  destruct (storage w !! storage_key) as [text|].
  - destruct (String.eqb text "").
    + exists 0%nat. split; [lia|]. simpl. by rewrite Hw.
    + simpl. destruct (parseInt text) as [checked|].
      * rewrite Hc. exists 1%nat. by split; [lia|].
      * exists 1%nat. by split; [lia|].
  - exists 0%nat. split; [lia|]. simpl. by rewrite Hw.
Qed.


(** *** Further properties of the upgrade check *)

(** X13.  The outcome of a check that is due, for a copy that is not a local
    one: the call fails when the endpoint does not answer or when reading
    [versions.latest], respectively [commits[0].sha], throws (a [null]
    reply, an empty list of commits); otherwise it returns none exactly
    when the value read is the running version, as a string, and else the
    notice with that value and the upgrade command of the version line.  A
    reply that lacks the property is not an error: the notice then names
    [undefined] as the latest version. *)
Theorem due_check_outcome (pathname : string) (w : world) :
  is_local pathname = false -> cached w = false ->
  let current := getCurrentVersion pathname in
  let stable := is_stable current in
  fst (interp (mustNotifyUpgrade pathname) w) =
  match network w (endpoint pathname) with
  | None => Failed
  | Some reply =>
      match latest_of stable reply with
      | None => Failed
      | Some latest =>
          Returned (if json_is_string latest current then None
                    else Some {| current := current; latest := latest;
                                 command := if stable then "lume upgrade"
                                            else "lume upgrade --dev" |})
      end
  end.
Proof.
  intros Hl Hc. simpl.
  destruct (run_due_world pathname w Hl Hc) as (n & _ & ->).
  rewrite fst_check_upgrade. unfold endpoint. simpl. done.
Qed.

Lemma due_check_outcome_witness :
  (is_local released_path = false /\ cached (world_at noon None "v1.8.0") = false) /\
  fst (interp (mustNotifyUpgrade released_path) (world_at noon None "v1.8.0")) =
  Returned (Some {| current := "v1.7.0"; latest := JStr "v1.8.0";
                    command := "lume upgrade" |}).
Proof.
  split; [split; reflexivity|].
  exact (due_check_outcome released_path (world_at noon None "v1.8.0") eq_refl eq_refl).
Defined.

(** A metadata reply without [latest]: the notice names [undefined]. *)
Example check_reply_without_latest :
  fst (interp (mustNotifyUpgrade released_path)
         (world_answering noon (JObj [("versions"%string, JArr [])]) (JArr []))) =
  Returned (Some {| current := "v1.7.0"; latest := JUndefined; command := "lume upgrade" |}).
Proof. reflexivity. Qed.

(** A development copy and an empty list of commits: [commits[0].sha]
    throws, after the timestamp has been written. *)
Example check_empty_commit_list :
  let r := interp (mustNotifyUpgrade development_path)
             (world_answering noon (JObj []) (JArr [])) in
  fst r = Failed /\ requests (snd r) = [commits_url] /\
  storage (snd r) = {[ storage_key := dec noon ]}.
Proof. vm_compute. by repeat split. Qed.

(** A development copy that is not at the latest commit. *)
Example check_development_copy :
  fst (interp (mustNotifyUpgrade development_path)
         (world_answering noon (JObj [])
            (JArr [JObj [("sha"%string, JStr "9e8d7c6")]]))) =
  Returned (Some {| current := "4f1c2d9"; latest := JStr "9e8d7c6";
                    command := "lume upgrade --dev" |}).
Proof. reflexivity. Qed.

(** X14.  What a call of [mustNotifyUpgrade] can touch, whatever the copy
    and the state of the cache: of [localStorage] only the key
    [lume-upgrade]; of the network at most one request, to the endpoint of
    the version line; the clock is read at most twice. *)
Theorem upgrade_check_footprint (pathname : string) (w : world) :
  let w' := snd (interp (mustNotifyUpgrade pathname) w) in
  (forall key, key <> storage_key -> storage w' !! key = storage w !! key) /\
  (requests w' = requests w \/ requests w' = requests w ++ [endpoint pathname]) /\
  (reads w <= reads w' <= reads w + 2)%nat.
Proof.
  simpl. destruct (is_local pathname) eqn:Hl.
  { rewrite (run_local pathname w Hl). simpl. split; [done|]. split; [by left|lia]. }
  destruct (cached w) eqn:Hc.
  - unfold cached, recorded, now in Hc. unfold is_local in Hl. unfold mustNotifyUpgrade.
    rewrite Hl. simpl.
    destruct (storage w !! storage_key) as [text|]; [|done].
    destruct (String.eqb text "") eqn:Et.
    { apply String.eqb_eq in Et. subst. by rewrite parseInt_empty in Hc. }
    simpl. destruct (parseInt text) as [checked|]; [|done].
    rewrite Hc. simpl. split; [done|]. split; [by left|lia].
  - destruct (run_due_world pathname w Hl Hc) as (n & Hn & ->).
    destruct (run_check_upgrade (getCurrentVersion pathname)
                (is_stable (getCurrentVersion pathname))
                (World (storage w) (clock w) (n + reads w) (network w) (requests w)))
      as [-> _].
    simpl. split; [|split; [by right|lia]].
    intros key Hk. by rewrite lookup_insert_ne.
Qed.

(** *** Reading the version out of the module's location *)

Lemma segment_app_slash v rest :
  mentions "/" v = false -> segment (v ++ String "/" rest) = v.
Proof.
  induction v as [|c v IH]; intros H; simpl in *; [done|].
  apply orb_false_elim in H as [Hc Hv]. rewrite Hc. by rewrite IH.
Qed.

Lemma segment_no_slash v : mentions "/" v = false -> segment v = v.
Proof.
  induction v as [|c v IH]; intros H; simpl in *; [done|].
  apply orb_false_elim in H as [Hc Hv]. rewrite Hc. by rewrite IH.
Qed.

Lemma segment_spec s :
  mentions "/" (segment s) = false /\
  exists rest, s = (segment s ++ rest)%string /\
               (rest = EmptyString \/ exists r, rest = String "/" r).
Proof.
  induction s as [|c s (IH1 & rest & IH2 & IH3)]; simpl.
  - split; [done|]. exists EmptyString. by split; [|left].
  - destruct (Ascii.eqb c "/") eqn:Ec.
    + apply Ascii.eqb_eq in Ec. subst. split; [done|].
      exists (String "/" s). split; [done|]. right. by exists s.
    + simpl. rewrite Ec, IH1. split; [done|]. exists rest. split; [|done].
      by rewrite IH2 at 1.
Qed.

Lemma match_version_skip pre s :
  mentions "@" pre = false -> match_version (pre ++ s) = match_version s.
Proof.
  induction pre as [|c pre IH]; intros H; simpl in *; [done|].
  apply orb_false_elim in H as [Hc Hp]. rewrite Hc. by apply IH.
Qed.

Lemma match_version_none s : mentions "@" s = false -> match_version s = None.
Proof.
  induction s as [|c s IH]; intros H; simpl in *; [done|].
  apply orb_false_elim in H as [Hc Hp]. rewrite Hc. by apply IH.
Qed.

Lemma match_version_sound s v :
  match_version s = Some v ->
  v <> EmptyString /\ mentions "/" v = false /\
  exists pre rest, s = (pre ++ String "@" (v ++ rest))%string /\
                   (rest = EmptyString \/ exists r, rest = String "/" r).
Proof.
  induction s as [|c s IH]; intros H; simpl in H; [done|].
  assert (match_version s = Some v ->
          v <> EmptyString /\ mentions "/" v = false /\
          exists pre rest, String c s = (pre ++ String "@" (v ++ rest))%string /\
                           (rest = EmptyString \/ exists r, rest = String "/" r)) as Hrec.
  { intros (H1 & H2 & pre & rest & -> & H3)%IH. split; [done|]. split; [done|].
    by exists (String c pre), rest. }
  destruct (Ascii.eqb c "@") eqn:Ec; [|by apply Hrec].
  apply Ascii.eqb_eq in Ec. subst c.
  destruct (segment s) as [|d seg] eqn:Es; [by apply Hrec|].
  injection H as <-.
  destruct (segment_spec s) as (Hns & rest & Hs & Hrest). rewrite Es in Hns, Hs.
  split; [done|]. split; [done|].
  exists EmptyString, rest. split; [|done]. simpl. by rewrite <- Hs.
Qed.

(** *** The pattern of a released version *)

Lemma skip_digits_split r :
  exists ds, r = (ds ++ skip_digits r)%string /\ all_digits ds = true.
Proof.
  induction r as [|c r (ds & IH1 & IH2)]; simpl.
  - by exists EmptyString.
  - destruct (digit_of c) eqn:Ec.
    + exists (String c ds). simpl. rewrite Ec. split; [|done]. by rewrite IH1 at 1.
    + by exists EmptyString.
Qed.

Lemma skip_digits_app ds rest :
  all_digits ds = true -> skip_digits (ds ++ String "." rest) = String "." rest.
Proof.
  induction ds as [|c ds IH]; intros H; simpl in *; [done|].
  destruct (digit_of c); [by apply IH|done].
Qed.


(** X15.  [getCurrentVersion] reads the version tag out of the module's
    path: when the path reads [pre@tag] followed by a [/] or by nothing,
    with no [@] in [pre], a non-empty [tag] and no [/] in [tag], it returns
    [tag].  A path without [@], such as [pre], is a local copy, reported as
    [local (pre)]. *)
Theorem getCurrentVersion_reads_tag (pre tag rest : string) :
  mentions "@" pre = false -> tag <> EmptyString -> mentions "/" tag = false ->
  (rest = EmptyString \/ exists r, rest = String "/" r) ->
  getCurrentVersion (pre ++ String "@" (tag ++ rest)) = tag /\
  getCurrentVersion pre = ("local (" ++ pre ++ ")")%string /\
  is_local pre = true.
Proof.
  intros Hpre Htag Hslash Hrest. split; [|split].
  - unfold getCurrentVersion. rewrite match_version_skip by done. simpl.
    assert (segment (tag ++ rest) = tag) as ->.
    { destruct Hrest as [->|[r ->]].
      - rewrite append_empty_r. by apply segment_no_slash.
      - by apply segment_app_slash. }
    by destruct tag.
  - unfold getCurrentVersion. by rewrite match_version_none.
  - unfold is_local, getCurrentVersion. by rewrite match_version_none.
Qed.

Lemma getCurrentVersion_reads_tag_witness :
  (mentions "@" "/x/lume" = false /\ "v1.7.0"%string <> EmptyString /\
   mentions "/" "v1.7.0" = false /\
   ("/"%string = EmptyString \/ exists r, "/"%string = String "/" r)) /\
  getCurrentVersion released_path = "v1.7.0"%string /\
  getCurrentVersion "/x/lume" = "local (/x/lume)"%string /\
  is_local "/x/lume" = true.
Proof.
  assert ("v1.7.0"%string <> EmptyString) as H2 by discriminate.
  assert ("/"%string = EmptyString \/ exists r, "/"%string = String "/" r) as H4.
  { right. by exists EmptyString. }
  split; [split; [reflexivity|split; [exact H2|split; [reflexivity|exact H4]]]|].
  exact (getCurrentVersion_reads_tag "/x/lume" "v1.7.0" "/" eq_refl H2 eq_refl H4).
Defined.

(** X16.  Whatever the path, a version that is not a local one was found
    in the path, after an [@], is not empty and holds no [/]; the text it
    is taken from is exactly the run of characters up to the next [/]. *)
Theorem current_version_comes_from_path (pathname version : string) :
  match_version pathname = Some version ->
  getCurrentVersion pathname = version /\
  version <> EmptyString /\ mentions "/" version = false /\
  exists pre rest, pathname = (pre ++ String "@" (version ++ rest))%string /\
                   (rest = EmptyString \/ exists r, rest = String "/" r).
Proof.
  intros H. split; [unfold getCurrentVersion; by rewrite H|].
  by apply match_version_sound.
Qed.

Lemma current_version_comes_from_path_witness :
  match_version released_path = Some "v1.7.0"%string /\
  getCurrentVersion released_path = "v1.7.0"%string /\
  "v1.7.0"%string <> EmptyString /\ mentions "/" "v1.7.0" = false /\
  exists pre rest, released_path = (pre ++ String "@" ("v1.7.0" ++ rest))%string /\
                   (rest = EmptyString \/ exists r, rest = String "/" r).
Proof.
  split; [reflexivity|].
  exact (current_version_comes_from_path released_path "v1.7.0" eq_refl).
Defined.

(** X17.  A version belongs to the stable line exactly when it is a [v]
    followed by one or more decimal digits and a dot; any other version, a
    commit hash for one, belongs to the development line. *)
Theorem is_stable_iff (current : string) :
  is_stable current = true <->
  exists ds rest, current = String "v" (ds ++ String "." rest) /\
                  ds <> EmptyString /\ all_digits ds = true.
Proof.
  split.
  - intros H. destruct current as [|c r]; [done|]. simpl in H.
    destruct (Ascii.eqb c "v") eqn:Ec.
    2: { destruct c as [[] [] [] [] [] [] [] []]; try done. }
    assert (c = "v"%char) as -> by (by apply Ascii.eqb_eq).
    apply andb_prop in H as [H1 H2].
    destruct (skip_digits_split r) as (ds & Hr & Hds).
    destruct (skip_digits r) as [|d rest] eqn:Es; [done|].
    destruct (Ascii.eqb d ".") eqn:Ed.
    2: { destruct d as [[] [] [] [] [] [] [] []]; try done. }
    apply Ascii.eqb_eq in Ed. subst d.
    exists ds, rest. split; [by rewrite <- Hr|]. split; [|done].
    intros ->. simpl in Hr. rewrite Hr in H1. done.
  - intros (ds & rest & -> & Hne & Hds). simpl.
    rewrite skip_digits_app by done.
    destruct ds as [|c ds]; [done|]. simpl in *.
    by destruct (digit_of c).
Qed.

End UpgradeFacts.

(** ** Facts about the check of the Deno version *)
Module VersionFacts.
Import JsNumber TextFacts Versions.

Lemma compare_prefix_sound p m r :
  compare_prefix p m = Some r -> forall x, string_lt (p ++ x) m = r.
Proof.
  revert m. induction p as [|c p IH]; intros m H x; [done|].
  destruct m as [|d m]; simpl in H.
  - injection H as <-. done.
  - change (String c p ++ x)%string with (String c (p ++ x)). simpl.
    destruct (Nat.ltb (nat_of_ascii c) (nat_of_ascii d)); [by injection H as <-|].
    destruct (Nat.ltb (nat_of_ascii d) (nat_of_ascii c)); [by injection H as <-|].
    by apply IH.
Qed.

Lemma elem_of_Z_range lo n b : lo <= b < lo + Z.of_nat n -> In b (Z_range lo n).
Proof.
  intros H. unfold Z_range. apply in_map_iff. exists (Z.to_nat (b - lo)).
  split; [lia|]. apply in_seq. lia.
Qed.

Lemma minors_decided_sound lo n expected :
  minors_decided lo n expected = true ->
  forall minor patch, lo <= minor < lo + Z.of_nat n ->
    string_lt (version 1 minor patch) "1.18.1" = expected.
Proof.
  intros H minor patch Hm. unfold minors_decided in H. rewrite forallb_forall in H.
  specialize (H minor (elem_of_Z_range lo n minor Hm)).
  destruct (compare_prefix ("1." ++ dec minor ++ ".") "1.18.1") as [r|] eqn:E; [|done].
  apply Bool.eqb_prop in H. subst r.
  unfold version.
  replace (dec 1 ++ "." ++ dec minor ++ "." ++ dec patch)%string
    with (("1." ++ dec minor ++ ".") ++ dec patch)%string.
  - by apply compare_prefix_sound.
  - change (dec 1) with "1"%string.
    change ("1." ++ dec minor ++ ".")%string with (String "1" (String "." (dec minor ++ "."))).
    change ("1" ++ "." ++ dec minor ++ "." ++ dec patch)%string
      with (String "1" (String "." (dec minor ++ (String "." (dec patch))))).
    change ((String "1" (String "." (dec minor ++ "."))) ++ dec patch)%string
      with (String "1" (String "." ((dec minor ++ ".") ++ dec patch))).
    by rewrite append_assoc_3.
Qed.

(** The decimal rendering of a positive integer starts with a digit from 1
    to 9. *)
Lemma dec_positive_head (n : Z) :
  1 <= n -> exists d rest, dec n = String d rest /\ (49 <= nat_of_ascii d <= 57)%nat.
Proof.
  intros Hn. destruct n as [|p|p]; try lia. unfold dec. simpl.
  pose proof (DecimalPos.Unsigned.to_of (Pos.to_uint p)) as Hto.
  rewrite DecimalPos.Unsigned.of_to in Hto. simpl in Hto.
  pose proof (DecimalPos.Unsigned.to_uint_nonzero p) as Hnz.
  pose proof (DecimalPos.Unsigned.to_uint_nonnil p) as Hnn.
  pose proof (DecimalFacts.nzhead_nonzero (Pos.to_uint p)) as Hh.
  unfold Decimal.unorm in Hto.
  destruct (Decimal.nzhead (Pos.to_uint p)) as [|u|u|u|u|u|u|u|u|u|u] eqn:E;
    try congruence; try (by specialize (Hh u));
    rewrite Hto; simpl; eexists _, _;
    (split; [reflexivity|split; apply Nat.leb_le; reflexivity]).
Qed.

Lemma patch_order (patch : Z) :
  0 <= patch -> string_lt (dec patch) "1" = (patch =? 0).
Proof.
  intros Hp. destruct (Z.eqb_spec patch 0) as [->|Hne]; [reflexivity|].
  destruct (dec_positive_head patch ltac:(lia)) as (d & rest & -> & Hd).
  cbn [string_lt]. change (nat_of_ascii "1") with 49%nat.
  destruct (Nat.ltb_spec (nat_of_ascii d) 49); [lia|].
  destruct (Nat.ltb_spec 49 (nat_of_ascii d)); [done|]. by destruct rest.
Qed.

Lemma minor_18_order (patch : Z) :
  string_lt (version 1 18 patch) "1.18.1" = string_lt (dec patch) "1".
Proof. reflexivity. Qed.

(** X18.  [checkDenoVersion] compares version strings, not version numbers.
    For Deno [1.minor.patch] the two agree when the minor version has two
    digits, and also for the minors 0 and 1; but every release from 1.2 to
    1.9 passes the check although it is older than the minimum 1.18.1, and
    a release from 1.100 to 1.179 would be reported as too old. *)
Theorem deno_version_check_is_lexicographic (minor patch : Z) :
  0 <= patch ->
  (10 <= minor <= 99 ->
     (checkDenoVersion (version 1 minor patch) = None <->
      18 < minor \/ (minor = 18 /\ 1 <= patch))) /\
  (0 <= minor <= 1 -> checkDenoVersion (version 1 minor patch) <> None) /\
  (2 <= minor <= 9 -> checkDenoVersion (version 1 minor patch) = None) /\
  (100 <= minor <= 179 -> checkDenoVersion (version 1 minor patch) <> None).
Proof.
  intros Hp.
  assert (forall s, checkDenoVersion s = None <-> string_lt s "1.18.1" = false) as Hcheck.
  { intros s. unfold checkDenoVersion. by destruct (string_lt s "1.18.1"). }
  split; [|split; [|split]].
  - intros Hm. rewrite Hcheck.
    destruct (Z.lt_trichotomy minor 18) as [Hlt|[->|Hgt]].
    + rewrite (minors_decided_sound 10 8 true); [|by vm_compute|lia].
      split; [done|lia].
    + rewrite minor_18_order, patch_order by done.
      destruct (Z.eqb_spec patch 0); split; try done; lia.
    + rewrite (minors_decided_sound 19 81 false); [|by vm_compute|lia].
      split; [lia|done].
  - intros Hm. rewrite Hcheck.
    rewrite (minors_decided_sound 0 2 true); [done|by vm_compute|lia].
  - intros Hm. rewrite Hcheck.
    apply (minors_decided_sound 2 8 false); [by vm_compute|lia].
  - intros Hm. rewrite Hcheck.
    rewrite (minors_decided_sound 100 80 true); [done|by vm_compute|lia].
Qed.

Lemma deno_version_check_is_lexicographic_witness :
  0 <= 2 /\
  (10 <= 9 <= 99 ->
     (checkDenoVersion (version 1 9 2) = None <-> 18 < 9 \/ (9 = 18 /\ 1 <= 2))) /\
  (0 <= 9 <= 1 -> checkDenoVersion (version 1 9 2) <> None) /\
  (2 <= 9 <= 9 -> checkDenoVersion (version 1 9 2) = None) /\
  (100 <= 9 <= 179 -> checkDenoVersion (version 1 9 2) <> None).
Proof.
  assert (0 <= 2) as H by lia.
  split; [exact H|]. exact (deno_version_check_is_lexicographic 9 2 H).
Defined.

(** Deno 1.9.2 passes, Deno 1.18.0 does not. *)
Example check_deno_1_9_2 : checkDenoVersion "1.9.2" = None.
Proof. reflexivity. Qed.

Example check_deno_1_18_0 :
  checkDenoVersion "1.18.0" =
  Some {| deno_current := "1.18.0"; deno_minimum := "1.18.1";
          deno_command := "deno upgrade" |}.
Proof. reflexivity. Qed.

End VersionFacts.

(** ** Facts about paths *)
Module PathFacts.
Import Text TextFacts Paths.

(** Replacing a one-character pattern by a one-character string is a
    translation of characters. *)
Lemma replaceAll_char (from to : ascii) (s : string) :
  replaceAll (String from EmptyString) (String to EmptyString) s = translate from to s.
Proof.
  unfold replaceAll. induction s as [|x s IH]; [done|].
  cbn [replace_from String.prefix String.length translate].
  destruct (ascii_dec from x) as [->|Hne].
  - rewrite Ascii.eqb_refl.
    assert (String.prefix EmptyString s = true) as -> by (by destruct s).
    by rewrite IH.
  - assert (Ascii.eqb x from = false) as -> by (apply Ascii.eqb_neq; congruence).
    by rewrite IH.
Qed.

Lemma normalizePath_char (sep : ascii) (path : string) :
  normalizePath (String sep EmptyString) path = translate sep "/" path.
Proof.
  unfold normalizePath. destruct (String.eqb (String sep EmptyString) "/") eqn:E.
  - apply String.eqb_eq in E. injection E as ->. by rewrite translate_same.
  - apply replaceAll_char.
Qed.

(** X19.  [normalizePath] for a separator of one character, as [SEP] always
    is: every separator of the path becomes a [/] and no other character
    changes, so the length is kept, no separator is left (none but [/]),
    a path without separators is returned as it is, and normalizing twice
    is normalizing once. *)
Theorem normalizePath_translates_separator (sep : ascii) (path : string) :
  normalizePath (String sep EmptyString) path = translate sep "/" path /\
  String.length (normalizePath (String sep EmptyString) path) = String.length path /\
  normalizePath (String sep EmptyString) (normalizePath (String sep EmptyString) path) =
    normalizePath (String sep EmptyString) path /\
  (sep <> "/"%char -> mentions sep (normalizePath (String sep EmptyString) path) = false) /\
  (mentions sep path = false -> normalizePath (String sep EmptyString) path = path).
Proof.
  rewrite !normalizePath_char. split; [done|]. split; [apply translate_length|].
  split; [apply translate_idem|]. split; [apply translate_removes|apply translate_id].
Qed.

(** A Windows path, and the behaviour of [replaceAll] on longer and on
    empty patterns. *)
Example normalizePath_windows :
  normalizePath (String backslash EmptyString)
    (String "C" (String ":" (String backslash (String "a" (String backslash "b.md"))))) =
  "C:/a/b.md"%string.
Proof. reflexivity. Qed.

Example replaceAll_longer_pattern : replaceAll "aa" "b" "aaaaa" = "bba"%string.
Proof. reflexivity. Qed.

Example replaceAll_empty_pattern : replaceAll "" "-" "abc" = "-a-b-c-"%string.
Proof. reflexivity. Qed.

End PathFacts.

